(** * Offline job outbox: the two job queues of Threads Ops

    The repository holds two implementations of the durable job queue:

    - [ElectronQueue] embeds [electron/queue/JobQueue.ts], the main-process
      queue that keeps its jobs in the SQLite table [outbox_jobs];
    - [LibQueue] embeds [src/lib/jobQueue.ts], the renderer-side queue that
      keeps its jobs in an in-memory [Map].

    Around them, [ElectronStore] writes out the [try]/[catch] layer of the
    main-process queue over [electron/database/DatabaseManager.ts],
    [JobQueueView] embeds the hook [useJobQueue] and the component that
    draws the renderer queue, and [BenchView] the calls the pick-and-pack
    screen makes to the main-process queue.

    Conventions shared by both embeddings.

    - Timestamps are ISO-8601 strings produced by [Date.prototype.toISOString];
      they are fixed width, so their lexicographic order (the one SQLite uses)
      is the chronological one.  A timestamp is embedded as the number of
      milliseconds since the epoch, a [Z].
    - Every read of the clock ([Date.now()], [new Date()]) is an argument of
      the embedded function.
    - A generated job id ([job_<ms>_<random>]) is an argument as well.
    - The handler a job is dispatched to is an external collaborator; what it
      does (returns, or throws some value) is an argument.
    - In [ElectronQueue] the [DatabaseManager] of the main-process queue is
      taken as opened on the table the queue declares in [initializeTables]:
      [query] and [execute] run their statement on the table and do not
      throw, except for an INSERT that a constraint rejects and a LIMIT
      that SQLite rejects.  [ElectronStore] has the manager as the
      repository has it: not open, or open on the table of its own
      [createTables].
    - The methods of the main-process queue are [async].  Each of them is
      embedded twice: as a function on the table, which is one call that no
      other call of the queue interrupts, and as the steps of
      [ElectronQueue.System], one step for each [await], where calls
      overlap.  A restart of the main process over the table an earlier run
      left is an event of that system.
    - The renderer queue awaits nothing but [executeJob]; [importJobs] is
      one of its events. *)

From stdpp Require Import gmap strings list.
From Stdlib Require Import ZArith Sorted Permutation.
From Stdlib Require Import DecimalString DecimalZ DecimalPos.

Local Open Scope Z_scope.

(** ** Shared data *)

Definition time := Z.

Inductive JobType :=
| create_fulfillment | create_label | void_label | inventory_adjust | event_log.

Inductive Status := queued | running | succeeded | failed | dead.

#[global] Instance Status_eq_dec : EqDecision Status.
Proof. solve_decision. Defined.

Definition status_eqb (a b : Status) : bool := bool_decide (a = b).

(** [hay.includes(needle)] of JavaScript strings. *)
Fixpoint includes (hay needle : string) : bool :=
  String.prefix needle hay
  || match hay with
     | EmptyString => false
     | String _ hay' => includes hay' needle
     end.

(** A value caught by a [catch] clause. *)
Inductive Thrown :=
| ThrownError (message : string)   (* an [Error] instance *)
| ThrownString (s : string)        (* [throw "text"] *)
| ThrownNullish.                   (* [throw undefined], [throw null] *)

(** [error instanceof Error ? error.message : 'Unknown error'] *)
Definition errorText (e : Thrown) : string :=
  match e with
  | ThrownError m => m
  | _ => "Unknown error"
  end.

(** ** The main-process queue, [electron/queue/JobQueue.ts] *)

Module ElectronQueue.

Record OutboxJob := {
  id : string;
  type : JobType;
  payload_json : string;
  idempotency_key : string;
  status : Status;
  attempts : nat;
  next_run_at : time;
  correlation_id : option string;
  created_at : time;
  updated_at : time;
  error_message : option string;
  last_attempt_at : option time
}.

(** [Omit<OutboxJob, 'id' | 'created_at' | 'updated_at'>], the argument of
    [addJob]; only the columns the INSERT writes are kept. *)
Record JobData := {
  jd_type : JobType;
  jd_payload_json : string;
  jd_idempotency_key : string;
  jd_status : Status;
  jd_attempts : nat;
  jd_next_run_at : time;
  jd_correlation_id : option string
}.

Record JobResult := {
  success : bool;
  jobId : string;
  error : option string;
  retryable : option bool;
  correlationId : option string
}.

(** The anonymous result type of [processJob] and of the five handlers. *)
Record ProcessResult := {
  p_success : bool;
  p_error : option string;
  p_retryable : bool
}.

Record QueueStats := {
  total : nat;
  n_queued : nat;
  n_running : nat;
  n_succeeded : nat;
  n_failed : nat;
  n_dead : nat;
  oldestJob : option time
}.

Definition maxConcurrency : nat := 2.

(** seconds: 1m, 5m, 15m, 30m, 1h, 2h *)
Definition backoffSchedule : list Z := [60; 300; 900; 1800; 3600; 7200].

(** *** The table [outbox_jobs]

    The table is the list of its rows in insertion order.  [id] is the
    PRIMARY KEY and [idempotency_key] is UNIQUE. *)

Definition table := list OutboxJob.

Definition wfTable (rows : table) : Prop :=
  List.NoDup (map id rows) /\ List.NoDup (map idempotency_key rows).

(** An update that leaves both constrained columns alone. *)
Definition keepsKeys (f : OutboxJob -> OutboxJob) : Prop :=
  forall r, id (f r) = id r /\ idempotency_key (f r) = idempotency_key r.

(** The order of ORDER BY created_at ASC. *)
Definition olderEq (a b : OutboxJob) : Prop := created_at a <= created_at b.

Definition constraintFailed (job : OutboxJob) (rows : table) : bool :=
  existsb (fun r => String.eqb (id r) (id job)
                    || String.eqb (idempotency_key r) (idempotency_key job)) rows.

(** INSERT INTO outbox_jobs (...) VALUES (...): [None] when a constraint
    rejects the row (the driver throws). *)
Definition insertRow (job : OutboxJob) (rows : table) : option table :=
  if constraintFailed job rows then None else Some (rows ++ [job]).

(** UPDATE outbox_jobs SET ... WHERE id = ? *)
Definition updateWhereId (jobId : string) (f : OutboxJob -> OutboxJob)
    (rows : table) : table :=
  map (fun r => if String.eqb (id r) jobId then f r else r) rows.

(** ORDER BY created_at ASC, as a stable insertion sort. *)
Fixpoint insertByCreatedAt (j : OutboxJob) (l : table) : table :=
  match l with
  | [] => [j]
  | x :: l' =>
      if created_at j <=? created_at x then j :: x :: l'
      else x :: insertByCreatedAt j l'
  end.

Fixpoint orderByCreatedAt (l : table) : table :=
  match l with
  | [] => []
  | x :: l' => insertByCreatedAt x (orderByCreatedAt l')
  end.

(** WHERE status = 'queued' AND next_run_at <= ? *)
Definition isDue (now : time) (j : OutboxJob) : bool :=
  status_eqb (status j) queued && (next_run_at j <=? now).

(** SELECT * FROM outbox_jobs WHERE status = 'queued' AND next_run_at <= ?
    ORDER BY created_at ASC LIMIT ? *)
Definition selectDue (now : time) (limit : nat) (rows : table) : table :=
  firstn limit (orderByCreatedAt (List.filter (isDue now) rows)).

(** [errorMessage || null] *)
Definition orNull (errorMessage : option string) : option string :=
  match errorMessage with
  | Some EmptyString => None
  | other => other
  end.

Definition updateJobStatus (jobId : string) (st : Status)
    (errorMessage : option string) (now : time) (rows : table) : table :=
  updateWhereId jobId (fun r =>
    {| id := id r; type := type r; payload_json := payload_json r;
       idempotency_key := idempotency_key r;
       status := st;
       attempts := attempts r;
       next_run_at := next_run_at r;
       correlation_id := correlation_id r;
       created_at := created_at r;
       updated_at := now;
       error_message := orNull errorMessage;
       last_attempt_at := Some now |}) rows.

Definition updateJobForRetry (jobId : string) (nAttempts : nat)
    (nextRunAt : time) (errorMessage : option string) (now : time)
    (rows : table) : table :=
  updateWhereId jobId (fun r =>
    {| id := id r; type := type r; payload_json := payload_json r;
       idempotency_key := idempotency_key r;
       status := queued;
       attempts := nAttempts;
       next_run_at := nextRunAt;
       correlation_id := correlation_id r;
       created_at := created_at r;
       updated_at := now;
       error_message := orNull errorMessage;
       last_attempt_at := Some now |}) rows.

(** SELECT * FROM outbox_jobs WHERE id = ?, then [rows[0]]. *)
Definition getJobHistory (jobId : string) (rows : table) : option OutboxJob :=
  head (List.filter (fun r => String.eqb (id r) jobId) rows).

Definition getJobById := getJobHistory.

(** SELECT * FROM outbox_jobs WHERE idempotency_key = ?, then [rows[0]]. *)
Definition getJobByIdempotencyKey (key : string) (rows : table)
    : option OutboxJob :=
  head (List.filter (fun r => String.eqb (idempotency_key r) key) rows).

(** SELECT ... LIMIT 1, then [rows[0]]. *)
Definition getNextJobToProcess (now : time) (rows : table) : option OutboxJob :=
  head (selectDue now 1 rows).

(** *** Enqueue *)

Definition constraintMessage : string := "SQLITE_CONSTRAINT".

(** The object literal [{ ...jobData, id, created_at, updated_at }]. *)
Definition makeJob (jobData : JobData) (newId : string) (now : time)
    : OutboxJob :=
  {| id := newId; type := jd_type jobData;
     payload_json := jd_payload_json jobData;
     idempotency_key := jd_idempotency_key jobData;
     status := jd_status jobData;
     attempts := jd_attempts jobData;
     next_run_at := jd_next_run_at jobData;
     correlation_id := jd_correlation_id jobData;
     created_at := now; updated_at := now;
     error_message := None; last_attempt_at := None |}.

(** [addJob].  The call awaits the lookup of the key (line 139) and then
    the INSERT (line 163), and other calls of the queue run in between:
    [seen] is the table when the lookup is answered and [rows] the table
    when the INSERT is.  A call that finds the key returns at once, on the
    table it saw; an INSERT that a constraint rejects throws, and the
    [catch] clause answers. *)
Definition addJobInterleaved (jobData : JobData) (newId : string) (now : time)
    (seen rows : table) : JobResult * table :=
  match getJobByIdempotencyKey (jd_idempotency_key jobData) seen with
  | Some existingJob =>
      ({| success := true; jobId := id existingJob; error := None;
          retryable := None; correlationId := correlation_id existingJob |},
       seen)
  | None =>
      let job := makeJob jobData newId now in
      match insertRow job rows with
      | Some rows' =>
          ({| success := true; jobId := id job; error := None;
              retryable := None; correlationId := correlation_id job |},
           rows')
      | None =>
          ({| success := false; jobId := ""; error := Some constraintMessage;
              retryable := Some false; correlationId := None |},
           rows)
      end
  end.

(** [addJob] as one call that no other call of the queue interrupts: the
    lookup and the INSERT meet the same table. *)
Definition addJob (jobData : JobData) (newId : string) (now : time)
    (rows : table) : JobResult * table :=
  addJobInterleaved jobData newId now rows rows.

(** *** Error classification *)

Definition isRetryableError (e : Thrown) : bool :=
  match e with
  | ThrownNullish => false
  | ThrownString EmptyString => false
  | _ =>
      let errorMessage :=
        match e with
        | ThrownError EmptyString => "Error"
        | ThrownError m => m
        | ThrownString s => s
        | ThrownNullish => ""
        end in
      if includes errorMessage "network" || includes errorMessage "timeout"
      then true
      else if includes errorMessage "429" || includes errorMessage "rate limit"
      then true
      else if includes errorMessage "500" || includes errorMessage "502"
              || includes errorMessage "503"
      then true
      else if includes errorMessage "401" || includes errorMessage "403"
      then false
      else if includes errorMessage "400" || includes errorMessage "404"
      then false
      else true
  end.

(** The five handlers share one shape: the simulated call either returns or
    throws, and the [catch] clause classifies what was thrown. *)
Definition handlerResult (outcome : option Thrown) : ProcessResult :=
  match outcome with
  | None => {| p_success := true; p_error := None; p_retryable := false |}
  | Some e =>
      {| p_success := false; p_error := Some (errorText e);
         p_retryable := isRetryableError e |}
  end.

Definition processCreateFulfillment (job : OutboxJob) := handlerResult.
Definition processCreateLabel (job : OutboxJob) := handlerResult.
Definition processVoidLabel (job : OutboxJob) := handlerResult.
Definition processInventoryAdjust (job : OutboxJob) := handlerResult.
Definition processEventLog (job : OutboxJob) := handlerResult.

Definition processJob (job : OutboxJob) (outcome : option Thrown)
    : ProcessResult :=
  match type job with
  | create_fulfillment => processCreateFulfillment job outcome
  | create_label => processCreateLabel job outcome
  | void_label => processVoidLabel job outcome
  | inventory_adjust => processInventoryAdjust job outcome
  | event_log => processEventLog job outcome
  end.

(** *** Operator actions *)

Record RetryResult := { r_success : bool; r_error : option string }.

Definition retryJob (jobId : string) (now : time) (rows : table)
    : RetryResult * table :=
  match getJobById jobId rows with
  | None =>
      ({| r_success := false; r_error := Some "Job not found" |}, rows)
  | Some job =>
      if status_eqb (status job) dead then
        ({| r_success := true; r_error := None |},
         updateJobForRetry jobId 0 now None now rows)
      else
        ({| r_success := false;
            r_error := Some "Job is not in a retryable state" |}, rows)
  end.

(** DELETE FROM outbox_jobs WHERE status = 'dead'; the count is
    [result.changes]. *)
Definition clearDeadJobs (rows : table) : (bool * nat) * table :=
  let kept := List.filter (fun r => negb (status_eqb (status r) dead)) rows in
  ((true, (length rows - length kept)%nat), kept).

(** *** Statistics

    SELECT status, COUNT( * ), MIN(created_at), AVG(...) FROM outbox_jobs
    GROUP BY status.  One row per status that occurs, in the order of the
    status text.  The AVG column feeds [averageProcessingTime] only, a
    floating-point mean that is left out of [QueueStats]. *)

Record StatsRow := { g_status : Status; g_count : nat; g_oldest : time }.

Definition groupOf (s : Status) (rows : table) : list StatsRow :=
  match List.filter (fun r => status_eqb (status r) s) rows with
  | [] => []
  | r :: rs =>
      [{| g_status := s; g_count := length (r :: rs);
          g_oldest := fold_right Z.min (created_at r) (map created_at rs) |}]
  end.

Definition groupByStatus (rows : table) : list StatsRow :=
  flat_map (fun s => groupOf s rows) [dead; failed; queued; running; succeeded].

Definition emptyStats : QueueStats :=
  {| total := 0; n_queued := 0; n_running := 0; n_succeeded := 0;
     n_failed := 0; n_dead := 0; oldestJob := None |}.

(** The body of [rows.forEach]: [stats.total += count; stats[status] = count]. *)
Definition addStatsRow (stats : QueueStats) (row : StatsRow) : QueueStats :=
  let count := g_count row in
  let at_ s := status_eqb (g_status row) s in
  {| total := (total stats + count)%nat;
     n_queued := if at_ queued then count else n_queued stats;
     n_running := if at_ running then count else n_running stats;
     n_succeeded := if at_ succeeded then count else n_succeeded stats;
     n_failed := if at_ failed then count else n_failed stats;
     n_dead := if at_ dead then count else n_dead stats;
     oldestJob := if at_ queued then Some (g_oldest row) else oldestJob stats |}.

Definition getStats (rows : table) : QueueStats :=
  fold_left addStatsRow (groupByStatus rows) emptyStats.

(** *** The dispatcher

    The queue object: the table plus the private fields [isProcessing] and
    [activeJobs].  [beginPass], [finishPass] and [processNextJob] embed one
    call of [processNextJob] that no other call of the queue interrupts;
    [inflight] holds the local [nextJob] of that call (the row as it was
    selected) while its handler runs.  Calls that overlap are embedded
    further down, by [System], which keeps their local variables itself. *)

Record Queue := {
  rows : table;
  isProcessing : bool;
  activeJobs : gset string;
  inflight : list OutboxJob
}.

Definition init : Queue :=
  {| rows := []; isProcessing := false; activeJobs := ∅; inflight := [] |}.

Definition withRows (q : Queue) (rows' : table) : Queue :=
  {| rows := rows'; isProcessing := isProcessing q;
     activeJobs := activeJobs q; inflight := inflight q |}.

(** [processNextJob] up to the call of the handler. *)
Definition beginPass (now : time) (q : Queue) : Queue :=
  match getNextJobToProcess now (rows q) with
  | None => q
  | Some nextJob =>
      {| rows := updateJobStatus (id nextJob) running None now (rows q);
         isProcessing := true;
         activeJobs := {[id nextJob]} ∪ activeJobs q;
         inflight := nextJob :: inflight q |}
  end.

(** The store update [processNextJob] makes once the handler has settled. *)
Definition settle (nextJob : OutboxJob) (result : ProcessResult) (now : time)
    (rows : table) : table :=
  if p_success result then
    updateJobStatus (id nextJob) succeeded None now rows
  else if p_retryable result
          && (attempts nextJob <? length backoffSchedule)%nat then
    let nextAttempt := (attempts nextJob + 1)%nat in
    let backoffSeconds := nth (nextAttempt - 1) backoffSchedule 0 in
    let nextRunAt := now + backoffSeconds * 1000 in
    updateJobForRetry (id nextJob) nextAttempt nextRunAt (p_error result)
      now rows
  else
    updateJobStatus (id nextJob) dead (p_error result) now rows.

Definition removeInflight (nextJob : OutboxJob) (l : list OutboxJob)
    : list OutboxJob :=
  List.filter (fun j => negb (String.eqb (id j) (id nextJob))) l.

(** [processNextJob] from the return of the handler to its end. *)
Definition finishPass (nextJob : OutboxJob) (outcome : option Thrown)
    (now : time) (q : Queue) : Queue :=
  {| rows := settle nextJob (processJob nextJob outcome) now (rows q);
     isProcessing := false;
     activeJobs := activeJobs q ∖ {[id nextJob]};
     inflight := removeInflight nextJob (inflight q) |}.

(** One whole call of [processNextJob], nothing else interleaved. *)
Definition processNextJob (now : time) (outcome : option Thrown)
    (later : time) (q : Queue) : Queue :=
  match getNextJobToProcess now (rows q) with
  | None => q
  | Some nextJob => finishPass nextJob outcome later (beginPass now q)
  end.

(** *** Calls in flight

    Every method of the queue is an [async] function.  It runs until it
    awaits a statement of the store or the handler of a job, and goes on
    once that is answered; in between, other calls of the queue run.  A
    call in flight is given by what it awaits and by the local variables it
    goes on with.  [loop] tells a call of [processNextJob] made by the
    [while] loop of the public [processQueue] from one made by the timer.
    A statement takes effect on the table when it is answered: the queue
    sees the table through the answers only. *)
Inductive Call :=
| AwaitKeyLookup (jobData : JobData)            (* addJob, line 139 *)
| AwaitInsert (job : OutboxJob)                 (* addJob, line 163 *)
| AwaitJobLookup (jobId : string)               (* retryJob, line 454 *)
| AwaitRetryUpdate (jobId : string) (now : time)   (* retryJob, line 462 *)
| AwaitDelete                                   (* clearDeadJobs, line 477 *)
| AwaitLoopSelect (now : time)                  (* processQueue, line 661 *)
| AwaitSelect (now : time) (loop : bool)        (* processNextJob, line 211 *)
| AwaitRunning (nextJob : OutboxJob) (now : time) (loop : bool)
                                                (* processNextJob, line 218 *)
| AwaitHandler (nextJob : OutboxJob) (loop : bool)
                                                (* processNextJob, line 221 *)
| AwaitSettle (nextJob : OutboxJob) (result : ProcessResult) (now : time)
              (loop : bool).           (* processNextJob, lines 225, 233, 237 *)

(** The queue object with its table, and the calls in flight. *)
Record System := {
  queue : Queue;
  calls : list Call
}.

(** No call is in flight. *)
Definition atRest (q : Queue) : System := {| queue := q; calls := [] |}.

(** A method is called and runs up to its first [await]. *)
Definition spawn (c : Call) (s : System) : System :=
  {| queue := queue s; calls := calls s ++ [c] |}.

(** The head of the [while] loop of [processQueue]: the test of line 660,
    then the selection of line 661, whose clock reading is [now]. *)
Definition loopHead (now : time) (q : Queue) : option Call :=
  if (size (activeJobs q) <? maxConcurrency)%nat
  then Some (AwaitLoopSelect now) else None.

(** Where [processNextJob] returns to: the timer callback ends, the loop of
    [processQueue] goes back to its head. *)
Definition afterProcessNextJob (loop : bool) (now : time) (q : Queue)
    : option Call :=
  if loop then loopHead now q else None.

(** Call [k] goes on to its next [await], [next], or has returned; the
    queue object is now [q]. *)
Definition proceed (k : nat) (next : option Call) (q : Queue) (s : System)
    : System :=
  {| queue := q;
     calls := match next with
              | Some c => <[k := c]> (calls s)
              | None => delete k (calls s)
              end |}.

(** What call [k] awaits is answered, and the call runs up to its next
    [await] or to its end.  [now] is the clock as the call reads it while
    it goes on, [newId] the id it generates if it is an enqueue, [outcome]
    what the handler did if it is the handler that answered. *)
Definition answer (k : nat) (now : time) (newId : string)
    (outcome : option Thrown) (s : System) : System :=
  let q := queue s in
  match calls s !! k with
  | None => s
  | Some (AwaitKeyLookup jobData) =>
      match getJobByIdempotencyKey (jd_idempotency_key jobData) (rows q) with
      | Some _ => proceed k None q s
      | None => proceed k (Some (AwaitInsert (makeJob jobData newId now))) q s
      end
  | Some (AwaitInsert job) =>
      match insertRow job (rows q) with
      | Some rows' => proceed k None (withRows q rows') s
      | None => proceed k None q s
      end
  | Some (AwaitJobLookup jobId) =>
      match getJobById jobId (rows q) with
      | Some job =>
          if status_eqb (status job) dead
          then proceed k (Some (AwaitRetryUpdate jobId now)) q s
          else proceed k None q s
      | None => proceed k None q s
      end
  | Some (AwaitRetryUpdate jobId t) =>
      proceed k None
        (withRows q (updateJobForRetry jobId 0 t None t (rows q))) s
  | Some AwaitDelete =>
      proceed k None (withRows q (snd (clearDeadJobs (rows q)))) s
  | Some (AwaitLoopSelect t) =>
      match getNextJobToProcess t (rows q) with
      | Some _ => proceed k (Some (AwaitSelect now true)) q s
      | None => proceed k None q s
      end
  | Some (AwaitSelect t loop) =>
      match getNextJobToProcess t (rows q) with
      | Some nextJob =>
          proceed k (Some (AwaitRunning nextJob now loop))
            {| rows := rows q;
               isProcessing := true;
               activeJobs := {[id nextJob]} ∪ activeJobs q;
               inflight := inflight q |} s
      | None => proceed k (afterProcessNextJob loop now q) q s
      end
  | Some (AwaitRunning nextJob t loop) =>
      proceed k (Some (AwaitHandler nextJob loop))
        (withRows q (updateJobStatus (id nextJob) running None t (rows q))) s
  | Some (AwaitHandler nextJob loop) =>
      proceed k
        (Some (AwaitSettle nextJob (processJob nextJob outcome) now loop)) q s
  | Some (AwaitSettle nextJob result t loop) =>
      let q' := {| rows := settle nextJob result t (rows q);
                   isProcessing := false;
                   activeJobs := activeJobs q ∖ {[id nextJob]};
                   inflight := inflight q |} in
      proceed k (afterProcessNextJob loop now q') q' s
  end.

(** *** Events of the main-process queue

    The IPC handlers, the timer, the public [processQueue], the answer to
    what a call in flight awaits, and a restart of the main process: the
    table stays in its file, the queue object is made anew and the calls
    that were in flight are gone. *)

Inductive Event :=
| EvAddJob (jobData : JobData)
| EvRetryJob (jobId : string)
| EvClearDeadJobs
| EvTick (now : time)
| EvProcessQueue (now : time)
| EvAnswer (k : nat) (now : time) (newId : string) (outcome : option Thrown)
| EvRestart.

Definition apply (e : Event) (s : System) : System :=
  match e with
  | EvAddJob jobData => spawn (AwaitKeyLookup jobData) s
  | EvRetryJob jobId => spawn (AwaitJobLookup jobId) s
  | EvClearDeadJobs => spawn AwaitDelete s
  | EvTick now =>
      (* the callback of [setInterval] in [startProcessing] *)
      if negb (isProcessing (queue s))
         && (size (activeJobs (queue s)) <? maxConcurrency)%nat
      then spawn (AwaitSelect now false) s else s
  | EvProcessQueue now =>
      match loopHead now (queue s) with
      | Some c => spawn c s
      | None => s
      end
  | EvAnswer k now newId outcome => answer k now newId outcome s
  | EvRestart =>
      atRest {| rows := rows (queue s); isProcessing := false;
                activeJobs := ∅; inflight := [] |}
  end.

(** Callers enqueue a job as [queued] with no attempt made. *)
Definition admissible (e : Event) : Prop :=
  match e with
  | EvAddJob jobData => jd_status jobData = queued /\ jd_attempts jobData = 0%nat
  | _ => True
  end.

Inductive reachableSystem : System -> Prop :=
| reachable_init : reachableSystem (atRest init)
| reachable_apply s e :
    reachableSystem s -> admissible e -> reachableSystem (apply e s).

(** The queue object and table of a system that a sequence of events leads
    to. *)
Definition reachable (q : Queue) : Prop :=
  exists s, reachableSystem s /\ queue s = q.

(** A sequence of events, oldest first. *)
Definition runSystem (events : list Event) (s : System) : System :=
  fold_left (fun s e => apply e s) events s.

(** The same from a queue with no call in flight, to the queue it leaves. *)
Definition run (events : list Event) (q : Queue) : Queue :=
  queue (runSystem events (atRest q)).

(** The number of stored jobs in a given status. *)
Definition countStatus (s : Status) (rows : table) : nat :=
  length (List.filter (fun r => status_eqb (status r) s) rows).

(** What holds of every stored job, and of the local variables of every
    call in flight, after any sequence of events. *)
Definition rowInvariant (r : OutboxJob) : Prop :=
  (attempts r <= length backoffSchedule)%nat
  /\ status r <> failed
  /\ (status r = succeeded \/ status r = running -> error_message r = None).

Definition callInvariant (c : Call) : Prop :=
  match c with
  | AwaitKeyLookup jobData =>
      jd_status jobData = queued /\ jd_attempts jobData = 0%nat
  | AwaitInsert job =>
      status job = queued /\ attempts job = 0%nat
  | AwaitRunning nextJob _ _ | AwaitHandler nextJob _
  | AwaitSettle nextJob _ _ _ =>
      (attempts nextJob <= length backoffSchedule)%nat
  | _ => True
  end.

Record Invariant (s : System) : Prop := {
  inv_wf : wfTable (rows (queue s));
  inv_rows : forall r, In r (rows (queue s)) -> rowInvariant r;
  inv_calls : forall c, In c (calls s) -> callInvariant c
}.


(** *** Listing *)

(** The text held by the column [status]. *)
Definition statusText (s : Status) : string :=
  match s with
  | queued => "queued"
  | running => "running"
  | succeeded => "succeeded"
  | failed => "failed"
  | dead => "dead"
  end.

(** The order of ORDER BY created_at DESC. *)
Definition newerEq (a b : OutboxJob) : Prop := created_at b <= created_at a.

(** ORDER BY created_at DESC, as a stable insertion sort. *)
Fixpoint insertByCreatedAtDesc (j : OutboxJob) (l : table) : table :=
  match l with
  | [] => [j]
  | x :: l' =>
      if created_at x <=? created_at j then j :: x :: l'
      else x :: insertByCreatedAtDesc j l'
  end.

Fixpoint orderByCreatedAtDesc (l : table) : table :=
  match l with
  | [] => []
  | x :: l' => insertByCreatedAtDesc x (orderByCreatedAtDesc l')
  end.

(** The argument [limit]: a whole number, or any other JavaScript number
    (one with a fraction, [NaN], an infinity). *)
Inductive Limit :=
| Whole (n : Z)
| NotWhole.

(** LIMIT ?: SQLite takes a whole number strictly between -2^63 and 2^63
    and rejects the statement for any other value (the driver throws);
    [None] is that rejection.  A negative bound is no bound. *)
Definition limitRows (limit : Limit) (l : table) : option table :=
  match limit with
  | Whole n =>
      if (- 2 ^ 63 <? n) && (n <? 2 ^ 63)
      then Some (if n <? 0 then l else firstn (Z.to_nat n) l)
      else None
  | NotWhole => None
  end.

(** [getJobs(status?: string, limit: number = 100)].  The test [if (status)]
    fails for an absent status and for the empty text; when the statement
    is rejected the [catch] clause answers with the empty list. *)
Definition getJobs (st : option string) (limit : option Limit) (rows : table)
    : list OutboxJob :=
  let bound := match limit with Some n => n | None => Whole 100 end in
  let selected :=
    match st with
    | None | Some EmptyString => rows
    | Some s => List.filter (fun r => String.eqb (statusText (status r)) s) rows
    end in
  match limitRows bound (orderByCreatedAtDesc selected) with
  | Some listed => listed
  | None => []
  end.

(** *** What the renderer is told

    The message [queue:job-processed] that [processNextJob] sends when a
    window is attached. *)
Record ProcessedNotice := {
  n_jobId : string;
  n_success : bool;
  n_status : string
}.

Definition processedNotice (mainWindow : bool) (nextJob : OutboxJob)
    (result : ProcessResult) : option ProcessedNotice :=
  if mainWindow then
    Some {| n_jobId := id nextJob;
            n_success := p_success result;
            n_status := if p_success result then "succeeded"
                        else if p_retryable result then "retrying"
                        else "dead" |}
  else None.

(** *** The public [processQueue]

    A whole call with nothing interleaved.  Each turn of the [while] loop
    reads the clock for its own selection ([t_select]), again inside
    [processNextJob] for the selection and the move to [running]
    ([t_start]), and once the handler has settled ([t_settle]). *)
Record Turn := {
  t_select : time;
  t_start : time;
  t_settle : time;
  t_outcome : option Thrown
}.

(** [None]: the fuel ran out before the loop ended.  Otherwise the queue
    the call leaves and the number of completed turns. *)
Fixpoint processQueue (fuel : nat) (turns : nat -> Turn) (k : nat) (q : Queue)
    : option (Queue * nat) :=
  match fuel with
  | O => None
  | S fuel' =>
      if (size (activeJobs q) <? maxConcurrency)%nat then
        match getNextJobToProcess (t_select (turns k)) (rows q) with
        | None => Some (q, k)
        | Some _ =>
            processQueue fuel' turns (S k)
              (processNextJob (t_start (turns k)) (t_outcome (turns k))
                 (t_settle (turns k)) q)
        end
      else Some (q, k)
  end.

(** The executions a stored job can still get without an operator: one, plus
    one for each entry of the schedule it has not used. *)
Definition executionsLeft (r : OutboxJob) : nat :=
  if status_eqb (status r) queued
  then S (length backoffSchedule - attempts r)
  else 0.

Definition workLeft (rows : table) : nat :=
  list_sum (map executionsLeft rows).

End ElectronQueue.

(** ** The renderer queue, [src/lib/jobQueue.ts] *)

Module LibQueue.

Record Job := {
  id : string;
  type : JobType;
  payload : string;
  idempotencyKey : string;
  status : Status;
  attempts : nat;
  maxAttempts : nat;
  nextRunAt : time;
  correlationId : option string;
  createdAt : time;
  updatedAt : time;
  error : option string;
  result : option string
}.

Record JobStats := {
  total : nat;
  n_queued : nat;
  n_running : nat;
  n_succeeded : nat;
  n_failed : nat;
  n_dead : nat
}.

Record JobQueueConfig := {
  cfg_maxAttempts : nat;
  backoffMultiplier : Z;
  maxBackoffMs : Z;
  jitterMs : Z;
  concurrency : nat
}.

(** The defaults of the constructor. *)
Definition defaultConfig : JobQueueConfig :=
  {| cfg_maxAttempts := 6;
     backoffMultiplier := 2;
     maxBackoffMs := 30 * 60 * 1000;
     jitterMs := 1000;
     concurrency := 2 |}.

(** What [executeJob] does: it returns a result or it throws. *)
Inductive Outcome :=
| Returned (r : string)
| Threw (e : Thrown).

(** *** The [Map] of jobs

    [jobs : Map<string, Job>] iterates in insertion order.  Every entry is
    stored under the id of its job, so the map is the list of its values in
    insertion order; a well-formed map has no two entries with one id. *)

Definition jobMap := list Job.

Definition wfMap (jobs : jobMap) : Prop := List.NoDup (map id jobs).

Definition hasId (jobId : string) (j : Job) : bool := String.eqb (id j) jobId.

(** [jobs.get(jobId)] *)
Definition mapGet (jobId : string) (jobs : jobMap) : option Job :=
  find (hasId jobId) jobs.

(** [jobs.set(job.id, job)]: an existing entry keeps its place. *)
Definition mapSet (job : Job) (jobs : jobMap) : jobMap :=
  if existsb (hasId (id job)) jobs
  then map (fun j => if hasId (id job) j then job else j) jobs
  else jobs ++ [job].

(** [jobs.delete(jobId)] *)
Definition mapDelete (jobId : string) (jobs : jobMap) : jobMap :=
  List.filter (fun j => negb (hasId jobId j)) jobs.

(** Assignments to the fields of the job object stored under [jobId]; the
    object is shared by the map and by whoever holds a reference to it. *)
Definition mutate (jobId : string) (f : Job -> Job) (jobs : jobMap) : jobMap :=
  map (fun j => if hasId jobId j then f j else j) jobs.

Definition keepsId (f : Job -> Job) : Prop := forall j, id (f j) = id j.

Definition keepsKey (f : Job -> Job) : Prop :=
  forall j, idempotencyKey (f j) = idempotencyKey j.


(** *** The queue object

    [pass] is the continuation of the call of [processQueue] that is in
    flight, if any: the instant [now] it read, the ids of the jobs of
    [queuedJobs] still ahead in the [for] loop, and the id of the job whose
    [executeJob] it awaits. *)

Record Pass := {
  p_now : time;
  p_todo : list string;
  p_awaiting : option string
}.

Record Queue := {
  config : JobQueueConfig;
  jobs : jobMap;
  runningSet : gset string;      (* the private field [running] *)
  isProcessing : bool;
  pass : option Pass
}.

Definition create (cfg : JobQueueConfig) : Queue :=
  {| config := cfg; jobs := []; runningSet := ∅; isProcessing := false;
     pass := None |}.

Definition withJobs (q : Queue) (jobs' : jobMap) : Queue :=
  {| config := config q; jobs := jobs'; runningSet := runningSet q;
     isProcessing := isProcessing q; pass := pass q |}.

Definition findJobByIdempotencyKey (key : string) (jobs : jobMap)
    : option Job :=
  find (fun j => String.eqb (idempotencyKey j) key) jobs.

Definition newJob (cfg : JobQueueConfig) (ty : JobType) (pl key : string)
    (corr : option string) (jobId : string) (now : time) : Job :=
  {| id := jobId; type := ty; payload := pl; idempotencyKey := key;
     status := queued; attempts := 0; maxAttempts := cfg_maxAttempts cfg;
     nextRunAt := now; correlationId := corr;
     createdAt := now; updatedAt := now; error := None; result := None |}.

Definition addJob (ty : JobType) (pl key : string) (corr : option string)
    (jobId : string) (now : time) (q : Queue) : string * Queue :=
  let fresh :=
    (jobId, withJobs q (mapSet (newJob (config q) ty pl key corr jobId now)
                               (jobs q))) in
  match findJobByIdempotencyKey key (jobs q) with
  | Some existingJob =>
      if status_eqb (status existingJob) succeeded
      then (id existingJob, q)
      else fresh
  | None => fresh
  end.

(** [stats[job.status]++] *)
Definition bump (stats : JobStats) (job : Job) : JobStats :=
  let inc s n := if status_eqb (status job) s then S n else n in
  {| total := total stats;
     n_queued := inc queued (n_queued stats);
     n_running := inc running (n_running stats);
     n_succeeded := inc succeeded (n_succeeded stats);
     n_failed := inc failed (n_failed stats);
     n_dead := inc dead (n_dead stats) |}.

Definition getStats (jobs : jobMap) : JobStats :=
  fold_left bump jobs
    {| total := length jobs; n_queued := 0; n_running := 0;
       n_succeeded := 0; n_failed := 0; n_dead := 0 |}.

Definition getJobs (st : option Status) (limit : nat) (jobs : jobMap)
    : list Job :=
  match st with
  | Some s => firstn limit (List.filter (fun j => status_eqb (status j) s) jobs)
  | None => firstn limit jobs
  end.

(** The delay of [calculateNextRunTime] before the jitter is added. *)
Definition baseDelay (cfg : JobQueueConfig) (nAttempts : nat) : Z :=
  Z.min (maxBackoffMs cfg) (backoffMultiplier cfg ^ Z.of_nat nAttempts * 1000).

(** [jitter] is the whole number of milliseconds in
    [Math.random() * jitterMs]. *)
Definition calculateNextRunTime (cfg : JobQueueConfig) (nAttempts : nat)
    (now : time) (jitter : Z) : time :=
  now + (baseDelay cfg nAttempts + jitter).

(** The assignments of [retryJob] when the attempts are used up. *)
Definition retryExhausted (now : time) (j : Job) : Job :=
  {| id := id j; type := type j; payload := payload j;
     idempotencyKey := idempotencyKey j; status := dead;
     attempts := attempts j; maxAttempts := maxAttempts j;
     nextRunAt := nextRunAt j; correlationId := correlationId j;
     createdAt := createdAt j; updatedAt := now;
     error := error j; result := result j |}.

(** The assignments of [retryJob] when the job is queued again. *)
Definition retryRequeued (cfg : JobQueueConfig) (now : time) (jitter : Z)
    (j : Job) : Job :=
  {| id := id j; type := type j; payload := payload j;
     idempotencyKey := idempotencyKey j; status := queued;
     attempts := S (attempts j); maxAttempts := maxAttempts j;
     nextRunAt := calculateNextRunTime cfg (S (attempts j)) now jitter;
     correlationId := correlationId j;
     createdAt := createdAt j; updatedAt := now;
     error := None; result := result j |}.

Definition retryJob (jobId : string) (now : time) (jitter : Z) (q : Queue)
    : bool * Queue :=
  match mapGet jobId (jobs q) with
  | None => (false, q)
  | Some job =>
      if negb (status_eqb (status job) failed) then (false, q)
      else if (maxAttempts job <=? attempts job)%nat then
        (false, withJobs q (mutate jobId (retryExhausted now) (jobs q)))
      else
        (true,
         withJobs q (mutate jobId (retryRequeued (config q) now jitter)
                            (jobs q)))
  end.

(** The entries struck by the loop of [clearDeadJobs] over [l]. *)
Definition struck (l : jobMap) (j : Job) : bool :=
  existsb (fun d => status_eqb (status d) dead && hasId (id d) j) l.

(** The loop over [jobs.entries()]: a dead entry is deleted and counted. *)
Definition clearStep (acc : nat * jobMap) (job : Job) : nat * jobMap :=
  if status_eqb (status job) dead
  then (S (fst acc), mapDelete (id job) (snd acc))
  else acc.

Definition clearDeadJobs (q : Queue) : nat * Queue :=
  let r := fold_left clearStep (jobs q) (0%nat, jobs q) in
  (fst r, withJobs q (snd r)).

Definition getJobHistory (jobId : string) (q : Queue) : option Job :=
  mapGet jobId (jobs q).

(** *** Execution of one job *)

(** [job.status = 'running'; job.updatedAt = ...] *)
Definition markRunning (now : time) (j : Job) : Job :=
  {| id := id j; type := type j; payload := payload j;
     idempotencyKey := idempotencyKey j;
     status := running;
     attempts := attempts j; maxAttempts := maxAttempts j;
     nextRunAt := nextRunAt j; correlationId := correlationId j;
     createdAt := createdAt j;
     updatedAt := now;
     error := error j; result := result j |}.

(** [processJob] from its entry to [await this.executeJob(job)], once the
    test [running.has(job.id)] has failed. *)
Definition startJob (jobId : string) (now : time) (q : Queue) : Queue :=
  {| config := config q;
     jobs := mutate jobId (markRunning now) (jobs q);
     runningSet := {[jobId]} ∪ runningSet q;
     isProcessing := isProcessing q;
     pass := pass q |}.

(** The assignments of the [try] and [catch] blocks of [processJob]. *)
Definition settleJob (cfg : JobQueueConfig) (o : Outcome) (now : time)
    (jitter : Z) (j : Job) : Job :=
  match o with
  | Returned r =>
      {| id := id j; type := type j; payload := payload j;
         idempotencyKey := idempotencyKey j;
         status := succeeded;
         attempts := attempts j; maxAttempts := maxAttempts j;
         nextRunAt := nextRunAt j; correlationId := correlationId j;
         createdAt := createdAt j;
         updatedAt := now;
         error := error j; result := Some r |}
  | Threw e =>
      let n := S (attempts j) in
      let exhausted := (maxAttempts j <=? n)%nat in
      {| id := id j; type := type j; payload := payload j;
         idempotencyKey := idempotencyKey j;
         status := if exhausted then dead else failed;
         attempts := n; maxAttempts := maxAttempts j;
         nextRunAt := if exhausted then nextRunAt j
                      else calculateNextRunTime cfg n now jitter;
         correlationId := correlationId j;
         createdAt := createdAt j;
         updatedAt := now;
         error := Some (errorText e); result := result j |}
  end.

(** [processJob] from the return of [executeJob] to the end of [finally]. *)
Definition finishJob (jobId : string) (o : Outcome) (now : time) (jitter : Z)
    (q : Queue) : Queue :=
  {| config := config q;
     jobs := mutate jobId (settleJob (config q) o now jitter) (jobs q);
     runningSet := runningSet q ∖ {[jobId]};
     isProcessing := isProcessing q;
     pass := pass q |}.

(** *** [processQueue] *)

Definition withPass (q : Queue) (p : option Pass) : Queue :=
  {| config := config q; jobs := jobs q; runningSet := runningSet q;
     isProcessing := isProcessing q; pass := p |}.

Definition atCapacity (q : Queue) : bool :=
  (concurrency (config q) <=? size (runningSet q))%nat.

(** From the entry of [processQueue] to the head of its [for] loop. *)
Definition beginQueuePass (now : time) (q : Queue) : Queue :=
  if isProcessing q || atCapacity q then q
  else
    {| config := config q; jobs := jobs q; runningSet := runningSet q;
       isProcessing := true;
       pass := Some {| p_now := now;
                       p_todo := map id (getJobs (Some queued) 100 (jobs q));
                       p_awaiting := None |} |}.

(** The [finally] block. *)
Definition endPass (q : Queue) : Queue :=
  {| config := config q; jobs := jobs q; runningSet := runningSet q;
     isProcessing := false; pass := None |}.

(** One turn of the [for] loop, up to the next suspension.  The second
    component is the job handed to [executeJob] in this turn, if any. *)
Definition loopTurn (tnow : time) (q : Queue) : Queue * option string :=
  match pass q with
  | None => (q, None)
  | Some p =>
      match p_awaiting p, p_todo p with
      | Some _, _ => (q, None)
      | None, [] => (endPass q, None)
      | None, jobId :: rest =>
          let next := Some {| p_now := p_now p; p_todo := rest;
                              p_awaiting := None |} in
          if atCapacity q then (endPass q, None)
          else
            match mapGet jobId (jobs q) with
            | None => (withPass q next, None)
            | Some job =>
                if p_now p <? nextRunAt job then (withPass q next, None)
                else if bool_decide (jobId ∈ runningSet q)
                then (withPass q next, None)
                else
                  (startJob jobId tnow
                     (withPass q (Some {| p_now := p_now p; p_todo := rest;
                                          p_awaiting := Some jobId |})),
                   Some jobId)
            end
      end
  end.

(** The awaited [executeJob] settles and [processJob] runs to its end. *)
Definition resume (o : Outcome) (now : time) (jitter : Z) (q : Queue) : Queue :=
  match pass q with
  | Some p =>
      match p_awaiting p with
      | Some jobId =>
          finishJob jobId o now jitter
            (withPass q (Some {| p_now := p_now p; p_todo := p_todo p;
                                 p_awaiting := None |}))
      | None => q
      end
  | None => q
  end.

(** *** Persistence *)

(** [exportJobs()]: the values of the map, in its order. *)
Definition exportJobs (q : Queue) : list Job := jobs q.

(** [importJobs(jobs)]: the map is cleared and filled again, one [set] for
    each job; no other field of the queue object is touched. *)
Definition importJobs (l : list Job) (q : Queue) : Queue :=
  withJobs q (fold_left (fun m job => mapSet job m) l []).

(** *** Events of the renderer queue

    Whatever happens to the queue object is one of these events.  The timers
    set by [scheduleProcessing] and by the [finally] block fire as
    [EvProcessQueue]; [EvLoop] and [EvSettled] are the resumptions of the
    pass in flight. *)

Inductive Event :=
| EvAddJob (ty : JobType) (pl key : string) (corr : option string)
           (jobId : string) (now : time)
| EvRetryJob (jobId : string) (now : time) (jitter : Z)
| EvClearDeadJobs
| EvProcessQueue (now : time)
| EvLoop (tnow : time)
| EvSettled (o : Outcome) (now : time) (jitter : Z)
| EvImportJobs (l : list Job).

Definition apply (e : Event) (q : Queue) : Queue :=
  match e with
  | EvAddJob ty pl key corr jobId now =>
      snd (addJob ty pl key corr jobId now q)
  | EvRetryJob jobId now jitter => snd (retryJob jobId now jitter q)
  | EvClearDeadJobs => snd (clearDeadJobs q)
  | EvProcessQueue now => beginQueuePass now q
  | EvLoop tnow => fst (loopTurn tnow q)
  | EvSettled o now jitter => resume o now jitter q
  | EvImportJobs l => importJobs l q
  end.

(** Generated ids are fresh.  [importJobs] is taken between passes: the
    loop of a pass in flight holds the job objects of the map it started
    from and goes on with those objects when the map is filled anew, which
    an embedding that finds a job by its id does not follow. *)
Definition admissible (e : Event) (q : Queue) : Prop :=
  match e with
  | EvAddJob _ _ _ _ jobId _ => ~ In jobId (map id (jobs q))
  | EvImportJobs _ => pass q = None
  | _ => True
  end.

Inductive reachable (cfg : JobQueueConfig) : Queue -> Prop :=
| reachable_create : reachable cfg (create cfg)
| reachable_apply q e :
    reachable cfg q -> admissible e q -> reachable cfg (apply e q).

(** The events that leave the filling of the map to [addJob]. *)
Definition importFree (e : Event) : Prop :=
  match e with
  | EvImportJobs _ => False
  | _ => True
  end.

(** The states of a queue that [importJobs] was never called on: every
    stored job came in through [addJob]. *)
Inductive reachableImportFree (cfg : JobQueueConfig) : Queue -> Prop :=
| importFree_create : reachableImportFree cfg (create cfg)
| importFree_apply q e :
    reachableImportFree cfg q -> admissible e q -> importFree e ->
    reachableImportFree cfg (apply e q).

(** A whole call of [processQueue] with nothing interleaved: [env] tells
    what [executeJob] does for each job.  The result carries the ids handed
    to [executeJob], in order. *)
Fixpoint runLoop (n : nat) (env : string -> Outcome) (tnow : time)
    (jitter : Z) (q : Queue) : Queue * list string :=
  match n with
  | O => (q, [])
  | S n' =>
      let '(q1, started) := loopTurn tnow q in
      match started with
      | Some jobId =>
          let '(q2, l) :=
            runLoop n' env tnow jitter (resume (env jobId) tnow jitter q1) in
          (q2, jobId :: l)
      | None => runLoop n' env tnow jitter q1
      end
  end.

(** The ids of [todo] whose job is due at [now], in the order of [todo]. *)
Definition dueIds (now : time) (jobs : jobMap) (todo : list string)
    : list string :=
  List.filter
    (fun i => match mapGet i jobs with
              | Some job => negb (now <? nextRunAt job)
              | None => false
              end) todo.

(** A sequence of events, oldest first, each admissible when it happens. *)
Definition run (events : list Event) (q : Queue) : Queue :=
  fold_left (fun q e => apply e q) events q.

Fixpoint admissibleRun (events : list Event) (q : Queue) : Prop :=
  match events with
  | [] => True
  | e :: rest => admissible e q /\ admissibleRun rest (apply e q)
  end.

(** The number of stored jobs in a given status. *)
Definition countStatus (s : Status) (jobs : jobMap) : nat :=
  length (List.filter (fun j => status_eqb (status j) s) jobs).

(** What holds of a queue built with configuration [cfg] after any sequence
    of events other than [importJobs]. *)
Record Invariant (cfg : JobQueueConfig) (q : Queue) : Prop := {
  inv_config : config q = cfg;
  inv_wf : wfMap (jobs q);
  inv_running :
    forall j, In j (jobs q) -> status j = running -> id j ∈ runningSet q;
  inv_capacity : (size (runningSet q) <= concurrency cfg)%nat;
  inv_flag : isProcessing q = false -> pass q = None;
  inv_todo :
    forall p i j, pass q = Some p -> In i (p_todo p) ->
      In j (jobs q) -> id j = i -> status j = queued;
  inv_todo_nodup : forall p, pass q = Some p -> List.NoDup (p_todo p);
  inv_awaiting :
    forall p a, pass q = Some p -> p_awaiting p = Some a ->
      exists j, In j (jobs q) /\ id j = a /\ status j = running
}.

Definition processQueue (now : time) (env : string -> Outcome) (tnow : time)
    (jitter : Z) (q : Queue) : Queue * list string :=
  if isProcessing q || atCapacity q then (q, [])
  else
    runLoop (S (length (getJobs (Some queued) 100 (jobs q)))) env tnow jitter
      (beginQueuePass now q).

End LibQueue.

(** ** The main-process queue over its database manager

    [electron/database/DatabaseManager.ts]: the field [db] is [null] until
    [initialize] has opened the file, and [query] and [execute] throw
    ["Database not initialized"] while it is.  [initialize] also creates
    the tables of the application, among them [outbox_jobs] without the
    columns [error_message] and [last_attempt_at]; the table the queue
    declares for itself has them, but its [CREATE TABLE IF NOT EXISTS]
    leaves a table that exists as it is.  Every method of the queue wraps
    its calls to the manager in [try]/[catch]; the methods are embedded
    here once more with that layer written out. *)

Module ElectronStore.
Import ElectronQueue.

(** The field [db]: [null], or the open database, given by the rows of
    [outbox_jobs] and by whether the table has the two columns the queue
    writes at each attempt. *)
Inductive Database :=
| Closed
| Open (attemptColumns : bool) (rows : table).

Definition notInitialized : Thrown := ThrownError "Database not initialized".

Definition noSuchColumn : Thrown :=
  ThrownError "SQLITE_ERROR: no such column: error_message".

(** [query(sql, params)], the statement given by the rows it selects. *)
Definition query {A} (select : table -> A) (db : Database) : Thrown + A :=
  match db with
  | Closed => inl notInitialized
  | Open _ rows => inr (select rows)
  end.

(** [execute(sql, params)], the statement given by whether it names the
    columns [error_message] and [last_attempt_at] and by what it does to
    the table ([None]: a constraint rejects it).  The result carries
    [result.changes]. *)
Definition execute (namesAttemptColumns : bool)
    (statement : table -> option (table * nat)) (db : Database)
    : (Thrown + nat) * Database :=
  match db with
  | Closed => (inl notInitialized, db)
  | Open attemptColumns rows =>
      if namesAttemptColumns && negb attemptColumns
      then (inl noSuchColumn, db)
      else
        match statement rows with
        | Some (rows', changes) => (inr changes, Open attemptColumns rows')
        | None => (inl (ThrownError constraintMessage), db)
        end
  end.

(** CREATE TABLE IF NOT EXISTS ..., on a file that has the table. *)
Definition initializeTables (db : Database) : (Thrown + nat) * Database :=
  execute false (fun rows => Some (rows, 0%nat)) db.

(** [initialize]: the tables, then [startProcessing]; an error is logged
    and thrown again.  The second component tells whether the timer was
    started. *)
Definition initialize (db : Database) : (Thrown + unit) * bool :=
  match fst (initializeTables db) with
  | inl e => (inl e, false)
  | inr _ => (inr tt, true)
  end.

Definition getJobHistory (jobId : string) (db : Database) : option OutboxJob :=
  match query (List.filter (fun r => String.eqb (id r) jobId)) db with
  | inl _ => None
  | inr rows => head rows
  end.

Definition getJobById := getJobHistory.

Definition getJobByIdempotencyKey (key : string) (db : Database)
    : option OutboxJob :=
  match query (List.filter (fun r => String.eqb (idempotency_key r) key)) db
  with
  | inl _ => None
  | inr rows => head rows
  end.

Definition getNextJobToProcess (now : time) (db : Database)
    : option OutboxJob :=
  match query (selectDue now 1) db with
  | inl _ => None
  | inr rows => head rows
  end.

Definition addJob (jobData : JobData) (newId : string) (now : time)
    (db : Database) : JobResult * Database :=
  match getJobByIdempotencyKey (jd_idempotency_key jobData) db with
  | Some existingJob =>
      ({| success := true; jobId := id existingJob; error := None;
          retryable := None; correlationId := correlation_id existingJob |},
       db)
  | None =>
      let job := makeJob jobData newId now in
      match execute false
              (fun rows => option_map (fun rows' => (rows', 1%nat))
                             (insertRow job rows)) db with
      | (inr _, db') =>
          ({| success := true; jobId := id job; error := None;
              retryable := None; correlationId := correlation_id job |},
           db')
      | (inl e, _) =>
          ({| success := false; jobId := ""; error := Some (errorText e);
              retryable := Some false; correlationId := None |},
           db)
      end
  end.

(** The two UPDATE statements; an error is logged and swallowed. *)
Definition updateJobStatus (jobId : string) (st : Status)
    (errorMessage : option string) (now : time) (db : Database) : Database :=
  snd (execute true
         (fun rows =>
            Some (ElectronQueue.updateJobStatus jobId st errorMessage now rows,
                  length (List.filter (fun r => String.eqb (id r) jobId) rows)))
         db).

Definition updateJobForRetry (jobId : string) (nAttempts : nat)
    (nextRunAt : time) (errorMessage : option string) (now : time)
    (db : Database) : Database :=
  snd (execute true
         (fun rows =>
            Some (ElectronQueue.updateJobForRetry jobId nAttempts nextRunAt
                    errorMessage now rows,
                  length (List.filter (fun r => String.eqb (id r) jobId) rows)))
         db).

Definition retryJob (jobId : string) (now : time) (db : Database)
    : RetryResult * Database :=
  match getJobById jobId db with
  | None => ({| r_success := false; r_error := Some "Job not found" |}, db)
  | Some job =>
      if status_eqb (status job) dead then
        ({| r_success := true; r_error := None |},
         updateJobForRetry jobId 0 now None now db)
      else
        ({| r_success := false;
            r_error := Some "Job is not in a retryable state" |}, db)
  end.

Definition clearDeadJobs (db : Database) : (bool * nat) * Database :=
  match execute false
          (fun rows =>
             let kept :=
               List.filter (fun r => negb (status_eqb (status r) dead)) rows in
             Some (kept, (length rows - length kept)%nat)) db
  with
  | (inr changes, db') => ((true, changes), db')
  | (inl _, _) => ((false, 0%nat), db)
  end.

Definition getStats (db : Database) : QueueStats :=
  match query groupByStatus db with
  | inl _ => emptyStats
  | inr groups => fold_left addStatsRow groups emptyStats
  end.

Definition getJobs (st : option string) (limit : option Limit) (db : Database)
    : list OutboxJob :=
  match query (ElectronQueue.getJobs st limit) db with
  | inl _ => []
  | inr rows => rows
  end.

(** The store calls of one whole [processNextJob]. *)
Definition processNextJob (now : time) (outcome : option Thrown)
    (later : time) (db : Database) : Database :=
  match getNextJobToProcess now db with
  | None => db
  | Some nextJob =>
      let db1 := updateJobStatus (id nextJob) running None now db in
      let result := processJob nextJob outcome in
      if p_success result then
        updateJobStatus (id nextJob) succeeded None later db1
      else if p_retryable result
              && (attempts nextJob <? length backoffSchedule)%nat then
        let nextAttempt := (attempts nextJob + 1)%nat in
        let backoffSeconds := nth (nextAttempt - 1) backoffSchedule 0 in
        let nextRunAt := later + backoffSeconds * 1000 in
        updateJobForRetry (id nextJob) nextAttempt nextRunAt (p_error result)
          later db1
      else
        updateJobStatus (id nextJob) dead (p_error result) later db1
  end.

End ElectronStore.

(** ** The hook [useJobQueue] and the view [JobQueueView]

    [src/hooks/useJobQueue.ts] keeps a copy of the job list and of the
    statistics of the renderer queue in React state; the component
    [JobQueueView] draws that copy. *)

Module JobQueueView.
Import LibQueue.

(** The two pieces of state of the hook. *)
Record HookState := {
  h_jobs : list Job;
  h_stats : JobStats
}.

(** The initial values given to [useState]. *)
Definition initialState : HookState :=
  {| h_jobs := [];
     h_stats := {| total := 0; n_queued := 0; n_running := 0;
                   n_succeeded := 0; n_failed := 0; n_dead := 0 |} |}.

(** [refresh]: [setJobs(jobQueue.getJobs())] and
    [setStats(jobQueue.getStats())]; the limit of [getJobs] is left at its
    default. *)
Definition refresh (q : Queue) : HookState :=
  {| h_jobs := getJobs None 100 (jobs q);
     h_stats := getStats (jobs q) |}.

(** [getJobsByStatus(status)] *)
Definition getJobsByStatus (s : Status) (q : Queue) : list Job :=
  getJobs (Some s) 100 (jobs q).

(** The counter the statistics hold for a status. *)
Definition statOf (s : Status) (stats : JobStats) : nat :=
  match s with
  | queued => n_queued stats
  | running => n_running stats
  | succeeded => n_succeeded stats
  | failed => n_failed stats
  | dead => n_dead stats
  end.

(** The state [selectedStatus : Job['status'] | 'all']. *)
Inductive Selection :=
| SelAll
| SelStatus (s : Status).

(** [filteredJobs] *)
Definition filteredJobs (selectedStatus : Selection) (jobs : list Job)
    : list Job :=
  match selectedStatus with
  | SelAll => jobs
  | SelStatus s => List.filter (fun job => status_eqb (status job) s) jobs
  end.

(** The text of a whole number in a template literal. *)
Definition showZ (n : Z) : string := NilZero.string_of_int (Z.to_int n).

(** [formatDuration(startDate, endDate)]; the two dates are valid, and
    [%] is the remainder that takes the sign of the dividend. *)
Definition formatDuration (startDate endDate : time) : string :=
  let diff := endDate - startDate in
  let seconds := diff / 1000 in
  let minutes := seconds / 60 in
  let hours := minutes / 60 in
  if 0 <? hours then
    showZ hours ++ "h " ++ showZ (Z.rem minutes 60) ++ "m"
  else if 0 <? minutes then
    showZ minutes ++ "m " ++ showZ (Z.rem seconds 60) ++ "s"
  else showZ seconds ++ "s".

End JobQueueView.

(** ** The pick-and-pack screen [BenchView]

    The component of [src/components/OnboardingWizard.tsx] that reaches the
    main-process queue through the channels [queue:get-stats] and
    [queue:add-job]. *)

Module BenchView.
Import ElectronQueue.

(** The template literals of [handleComplete]; [now] is [Date.now()]. *)
Definition labelKey (orderId : string) (now : time) : string :=
  ("label_" ++ orderId ++ "_" ++ JobQueueView.showZ now)%string.

Definition fulfillmentKey (orderId : string) (now : time) : string :=
  ("fulfillment_" ++ orderId ++ "_" ++ JobQueueView.showZ now)%string.

(** The two objects [handleComplete] passes to [queue:add-job]: [tKey] is
    the [Date.now()] of the key and [tRun] the [new Date()] of
    [next_run_at]; the payload is the order data. *)
Definition labelJobData (orderId payload : string) (tKey tRun : time)
    : JobData :=
  {| jd_type := create_label;
     jd_payload_json := payload;
     jd_idempotency_key := labelKey orderId tKey;
     jd_status := queued;
     jd_attempts := 0;
     jd_next_run_at := tRun;
     jd_correlation_id := Some orderId |}.

Definition fulfillmentJobData (orderId payload : string) (tKey tRun : time)
    : JobData :=
  {| jd_type := create_fulfillment;
     jd_payload_json := payload;
     jd_idempotency_key := fulfillmentKey orderId tKey;
     jd_status := queued;
     jd_attempts := 0;
     jd_next_run_at := tRun;
     jd_correlation_id := Some orderId |}.

End BenchView.

(** ** Example runs *)

Module Scenarios.

(** Renderer queue: one key is enqueued twice before the first job has run;
    the first job then fails and the second succeeds. *)
Definition oneKeyTwice : list LibQueue.Event :=
  [ LibQueue.EvAddJob create_label "{}" "label_O1" None "job_1" 0;
    LibQueue.EvAddJob create_label "{}" "label_O1" None "job_2" 1;
    LibQueue.EvProcessQueue 100;
    LibQueue.EvLoop 100;
    LibQueue.EvSettled (LibQueue.Threw (ThrownError "503 Service Unavailable"))
      300 0;
    LibQueue.EvLoop 300;
    LibQueue.EvSettled (LibQueue.Returned "{}") 500 0;
    LibQueue.EvLoop 500 ].

Definition afterOneKeyTwice : LibQueue.Queue :=
  LibQueue.run oneKeyTwice (LibQueue.create LibQueue.defaultConfig).

(** The two jobs stored after [oneKeyTwice]. *)
Definition failedFirst : LibQueue.Job :=
  {| LibQueue.id := "job_1"; LibQueue.type := create_label;
     LibQueue.payload := "{}"; LibQueue.idempotencyKey := "label_O1";
     LibQueue.status := failed; LibQueue.attempts := 1;
     LibQueue.maxAttempts := 6; LibQueue.nextRunAt := 2300;
     LibQueue.correlationId := None; LibQueue.createdAt := 0;
     LibQueue.updatedAt := 300;
     LibQueue.error := Some "503 Service Unavailable";
     LibQueue.result := None |}.

Definition succeededSecond : LibQueue.Job :=
  {| LibQueue.id := "job_2"; LibQueue.type := create_label;
     LibQueue.payload := "{}"; LibQueue.idempotencyKey := "label_O1";
     LibQueue.status := succeeded; LibQueue.attempts := 0;
     LibQueue.maxAttempts := 6; LibQueue.nextRunAt := 1;
     LibQueue.correlationId := None; LibQueue.createdAt := 1;
     LibQueue.updatedAt := 500;
     LibQueue.error := None;
     LibQueue.result := Some "{}" |}.

(** Renderer queue: a job is enqueued and has not run yet. *)
Definition oneQueued : LibQueue.Queue :=
  LibQueue.run
    [ LibQueue.EvAddJob create_label "{}" "label_O1" None "job_1" 0 ]
    (LibQueue.create LibQueue.defaultConfig).

(** Renderer queue: a job is enqueued and is running. *)
Definition oneRunning : LibQueue.Queue :=
  LibQueue.run
    [ LibQueue.EvAddJob create_label "{}" "label_O1" None "job_1" 0;
      LibQueue.EvProcessQueue 100;
      LibQueue.EvLoop 100 ]
    (LibQueue.create LibQueue.defaultConfig).

(** Renderer queue: a job is enqueued, runs and succeeds. *)
Definition oneSucceeded : LibQueue.Queue :=
  LibQueue.run
    [ LibQueue.EvAddJob create_label "{}" "label_O1" None "job_1" 0;
      LibQueue.EvProcessQueue 100;
      LibQueue.EvLoop 100;
      LibQueue.EvSettled (LibQueue.Returned "{}") 300 0;
      LibQueue.EvLoop 300 ]
    (LibQueue.create LibQueue.defaultConfig).

(** Main-process queue: what the pick-and-pack screen enqueues. *)
Definition labelJob : ElectronQueue.JobData :=
  {| ElectronQueue.jd_type := create_label;
     ElectronQueue.jd_payload_json := "{}";
     ElectronQueue.jd_idempotency_key := "label_O1";
     ElectronQueue.jd_status := queued;
     ElectronQueue.jd_attempts := 0;
     ElectronQueue.jd_next_run_at := 0;
     ElectronQueue.jd_correlation_id := Some "O1" |}.

(** Main-process queue: job A is created at instant 0 and job B at
    instant 1; both are queued and due from then on. *)
Definition jobA : ElectronQueue.OutboxJob :=
  {| ElectronQueue.id := "job_A"; ElectronQueue.type := create_label;
     ElectronQueue.payload_json := "{}";
     ElectronQueue.idempotency_key := "label_A";
     ElectronQueue.status := queued; ElectronQueue.attempts := 0;
     ElectronQueue.next_run_at := 0; ElectronQueue.correlation_id := None;
     ElectronQueue.created_at := 0; ElectronQueue.updated_at := 0;
     ElectronQueue.error_message := None;
     ElectronQueue.last_attempt_at := None |}.

Definition jobB : ElectronQueue.OutboxJob :=
  {| ElectronQueue.id := "job_B"; ElectronQueue.type := create_fulfillment;
     ElectronQueue.payload_json := "{}";
     ElectronQueue.idempotency_key := "fulfillment_B";
     ElectronQueue.status := queued; ElectronQueue.attempts := 0;
     ElectronQueue.next_run_at := 1; ElectronQueue.correlation_id := None;
     ElectronQueue.created_at := 1; ElectronQueue.updated_at := 1;
     ElectronQueue.error_message := None;
     ElectronQueue.last_attempt_at := None |}.

(** Main-process queue: an enqueue while no other call is in flight; the
    lookup of the key and then the INSERT are answered at the instant
    [now]. *)
Definition enqueued (jobData : ElectronQueue.JobData) (newId : string)
    (now : time) : list ElectronQueue.Event :=
  [ ElectronQueue.EvAddJob jobData;
    ElectronQueue.EvAnswer 0 now newId None;
    ElectronQueue.EvAnswer 0 now newId None ].

(** Main-process queue: the timer fires at the instant [now] while no call
    is in flight; the selection and then the move to [running] are
    answered. *)
Definition dispatched (now : time) : list ElectronQueue.Event :=
  [ ElectronQueue.EvTick now;
    ElectronQueue.EvAnswer 0 now "" None;
    ElectronQueue.EvAnswer 0 now "" None ].

(** Main-process queue: the handler of the one call in flight settles at
    the instant [later], and the update of the row is answered. *)
Definition settled (outcome : option Thrown) (later : time)
    : list ElectronQueue.Event :=
  [ ElectronQueue.EvAnswer 0 later "" outcome;
    ElectronQueue.EvAnswer 0 later "" None ].

(** Main-process queue: a job is enqueued and has not run yet. *)
Definition tableOneQueued : ElectronQueue.Queue :=
  ElectronQueue.run (enqueued labelJob "job_1" 0) ElectronQueue.init.

(** Main-process queue: a job is enqueued, runs and succeeds. *)
Definition tableOneSucceeded : ElectronQueue.Queue :=
  ElectronQueue.run
    (enqueued labelJob "job_1" 0 ++ dispatched 10000 ++ settled None 11500)
    ElectronQueue.init.

(** Main-process queue: a job is enqueued and is running. *)
Definition systemOneRunning : ElectronQueue.System :=
  ElectronQueue.runSystem (enqueued labelJob "job_1" 0 ++ dispatched 10000)
    (ElectronQueue.atRest ElectronQueue.init).

Definition tableOneRunning : ElectronQueue.Queue :=
  ElectronQueue.queue systemOneRunning.

(** Main-process queue: the handler of the one job answers
    ["503 Service Unavailable"] each time the job runs; the ticks come once
    the job is due again. *)
Definition unavailable : option Thrown :=
  Some (ThrownError "503 Service Unavailable").

Definition sixFailures : list ElectronQueue.Event :=
  enqueued labelJob "job_1" 0
  ++ dispatched 10000 ++ settled unavailable 11000
  ++ dispatched 80000 ++ settled unavailable 81000
  ++ dispatched 390000 ++ settled unavailable 391000
  ++ dispatched 1300000 ++ settled unavailable 1301000
  ++ dispatched 3110000 ++ settled unavailable 3111000
  ++ dispatched 6720000 ++ settled unavailable 6721000.

Definition tableAfterSixFailures : ElectronQueue.Queue :=
  ElectronQueue.run sixFailures ElectronQueue.init.

Definition seventhFailure : list ElectronQueue.Event :=
  dispatched 13930000 ++ settled unavailable 13931000.

(** Main-process queue: the job is dead after the seventh failure. *)
Definition tableOneDead : ElectronQueue.Queue :=
  ElectronQueue.run seventhFailure tableAfterSixFailures.

(** Renderer queue: the one job throws ["404 Not Found"] when it runs. *)
Definition notFoundOnce : LibQueue.Queue :=
  LibQueue.run
    [ LibQueue.EvAddJob create_label "{}" "label_O1" None "job_1" 0;
      LibQueue.EvProcessQueue 100;
      LibQueue.EvLoop 100;
      LibQueue.EvSettled (LibQueue.Threw (ThrownError "404 Not Found")) 300 0;
      LibQueue.EvLoop 300 ]
    (LibQueue.create LibQueue.defaultConfig).

(** Renderer queue: the one job fails whenever it runs and the operator
    retries it each time, until it is dead. *)
Definition failure : LibQueue.Outcome :=
  LibQueue.Threw (ThrownError "503 Service Unavailable").

Definition retriedToDeath : list LibQueue.Event :=
  [ LibQueue.EvAddJob create_label "{}" "label_O1" None "job_1" 0;
    LibQueue.EvProcessQueue 100; LibQueue.EvLoop 100;
    LibQueue.EvSettled failure 300 0; LibQueue.EvLoop 300;
    LibQueue.EvRetryJob "job_1" 400 0;
    LibQueue.EvProcessQueue 5000; LibQueue.EvLoop 5000;
    LibQueue.EvSettled failure 5100 0; LibQueue.EvLoop 5100;
    LibQueue.EvRetryJob "job_1" 5200 0;
    LibQueue.EvProcessQueue 30000; LibQueue.EvLoop 30000;
    LibQueue.EvSettled failure 30100 0; LibQueue.EvLoop 30100;
    LibQueue.EvRetryJob "job_1" 30200 0;
    LibQueue.EvProcessQueue 100000; LibQueue.EvLoop 100000;
    LibQueue.EvSettled failure 100100 0; LibQueue.EvLoop 100100 ].

Definition afterRetriedToDeath : LibQueue.Queue :=
  LibQueue.run retriedToDeath (LibQueue.create LibQueue.defaultConfig).


(** Main-process queue: the second job the pick-and-pack screen enqueues. *)
Definition fulfillmentJob : ElectronQueue.JobData :=
  {| ElectronQueue.jd_type := create_fulfillment;
     ElectronQueue.jd_payload_json := "{}";
     ElectronQueue.jd_idempotency_key := "fulfillment_O1";
     ElectronQueue.jd_status := queued;
     ElectronQueue.jd_attempts := 0;
     ElectronQueue.jd_next_run_at := 1;
     ElectronQueue.jd_correlation_id := Some "O1" |}.

(** Main-process queue: a third job, for another order. *)
Definition voidJob : ElectronQueue.JobData :=
  {| ElectronQueue.jd_type := void_label;
     ElectronQueue.jd_payload_json := "{}";
     ElectronQueue.jd_idempotency_key := "void_O2";
     ElectronQueue.jd_status := queued;
     ElectronQueue.jd_attempts := 0;
     ElectronQueue.jd_next_run_at := 2;
     ElectronQueue.jd_correlation_id := Some "O2" |}.

(** Main-process queue: one job is due and the public [processQueue] is
    called twice in a row.  Both calls pass the test of line 660, both get
    an answer to the selection of line 661 and call [processNextJob], and
    both get the same row from the selection of line 211, the second one
    before the first has moved the row to [running].  Every statement is
    answered in the order the statements were issued.  At the end the
    handler of the first call runs and the second call awaits its own move
    of the row to [running]. *)
Definition twoCallsOneJob : list ElectronQueue.Event :=
  enqueued labelJob "job_1" 0
  ++ [ ElectronQueue.EvProcessQueue 10000;
       ElectronQueue.EvProcessQueue 10000;
       ElectronQueue.EvAnswer 0 10001 "" None;
       ElectronQueue.EvAnswer 1 10001 "" None;
       ElectronQueue.EvAnswer 0 10002 "" None;
       ElectronQueue.EvAnswer 1 10002 "" None;
       ElectronQueue.EvAnswer 0 10003 "" None ].

Definition oneJobHandedOver : ElectronQueue.System :=
  ElectronQueue.runSystem twoCallsOneJob
    (ElectronQueue.atRest ElectronQueue.init).

(** The second call is answered and calls the handler as well. *)
Definition sameJobHandedOverAgain : ElectronQueue.System :=
  ElectronQueue.apply (ElectronQueue.EvAnswer 1 10003 "" None)
    oneJobHandedOver.

(** The handler of the first call returns and the row is stored as
    succeeded. *)
Definition firstCallSucceeded : ElectronQueue.System :=
  ElectronQueue.runSystem
    [ ElectronQueue.EvAnswer 0 11510 "" None;
      ElectronQueue.EvAnswer 0 11511 "" None ]
    sameJobHandedOverAgain.

(** The first call is back at the head of its loop, finds no job due and
    returns.  The handler of the second call, which is now the one call in
    flight, throws ["503 Service Unavailable"], and its update of the row
    is answered. *)
Definition secondCallFailed : ElectronQueue.System :=
  ElectronQueue.runSystem
    [ ElectronQueue.EvAnswer 0 11512 "" None;
      ElectronQueue.EvAnswer 0 11520 "" unavailable;
      ElectronQueue.EvAnswer 0 11521 "" None ]
    firstCallSucceeded.

(** Main-process queue: three jobs are due and the public [processQueue]
    is called three times, each call a moment after the one before: after
    that one has passed the test of line 660, and before it has added its
    job to [activeJobs].  Every statement is answered in the order the
    statements were issued. *)
Definition threeCalls : list ElectronQueue.Event :=
  enqueued labelJob "job_1" 0
  ++ enqueued fulfillmentJob "job_2" 1
  ++ enqueued voidJob "job_3" 2
  ++ [ ElectronQueue.EvProcessQueue 10000;
       ElectronQueue.EvAnswer 0 10001 "" None;
       ElectronQueue.EvProcessQueue 10002;
       ElectronQueue.EvAnswer 0 10003 "" None;
       ElectronQueue.EvAnswer 1 10004 "" None;
       ElectronQueue.EvAnswer 0 10005 "" None;
       ElectronQueue.EvProcessQueue 10006;
       ElectronQueue.EvAnswer 1 10007 "" None;
       ElectronQueue.EvAnswer 2 10008 "" None;
       ElectronQueue.EvAnswer 1 10009 "" None;
       ElectronQueue.EvAnswer 2 10010 "" None;
       ElectronQueue.EvAnswer 2 10011 "" None ].

Definition threeJobsRunning : ElectronQueue.System :=
  ElectronQueue.runSystem threeCalls
    (ElectronQueue.atRest ElectronQueue.init).

(** Renderer queue: job B is enqueued when the clock reads 10 and job A
    after the clock was set back, when it reads 5. *)
Definition clockSetBack : LibQueue.Queue :=
  LibQueue.run
    [ LibQueue.EvAddJob create_fulfillment "{}" "fulfillment_B" None "job_B" 10;
      LibQueue.EvAddJob create_label "{}" "label_A" None "job_A" 5 ]
    (LibQueue.create LibQueue.defaultConfig).

End Scenarios.

(** * Proofs *)

Lemma status_eqb_true a b : status_eqb a b = true <-> a = b.
Proof. unfold status_eqb. apply bool_decide_eq_true. Qed.

Lemma status_eqb_false a b : status_eqb a b = false <-> a <> b.
Proof. unfold status_eqb. apply bool_decide_eq_false. Qed.

Lemma status_eqb_refl a : status_eqb a a = true.
Proof. now apply status_eqb_true. Qed.

(** ** Lists keyed by a string *)

Section Keyed.
Context {A : Type} (key : A -> string).

Lemma head_filter_key l x :
  List.NoDup (map key l) -> In x l ->
  head (List.filter (fun r => String.eqb (key r) (key x)) l) = Some x.
Proof.
  induction l as [|a l IH]; simpl; intros Hnd Hin; [contradiction|].
  inversion Hnd as [|? ? Hnotin Hnd']; subst.
  destruct Hin as [->|Hin].
  - now rewrite String.eqb_refl.
  - destruct (String.eqb_spec (key a) (key x)) as [Heq|Hne].
    + exfalso. apply Hnotin. rewrite Heq. now apply in_map.
    + now apply IH.
Qed.

Lemma head_filter_key_Some l k x :
  head (List.filter (fun r => String.eqb (key r) k) l) = Some x ->
  In x l /\ key x = k.
Proof.
  induction l as [|a l IH]; simpl; [discriminate|].
  destruct (String.eqb_spec (key a) k) as [Heq|Hne]; simpl.
  - intros [= ->]. auto.
  - intros H. destruct (IH H). auto.
Qed.

Lemma head_filter_key_None l k :
  head (List.filter (fun r => String.eqb (key r) k) l) = None ->
  forall x, In x l -> key x <> k.
Proof.
  induction l as [|a l IH]; simpl; [tauto|].
  destruct (String.eqb_spec (key a) k) as [Heq|Hne]; simpl; [discriminate|].
  intros H x [<-|Hin]; auto.
Qed.

Lemma find_key l x :
  List.NoDup (map key l) -> In x l ->
  find (fun r => String.eqb (key r) (key x)) l = Some x.
Proof.
  induction l as [|a l IH]; simpl; intros Hnd Hin; [contradiction|].
  inversion Hnd as [|? ? Hnotin Hnd']; subst.
  destruct Hin as [->|Hin].
  - now rewrite String.eqb_refl.
  - destruct (String.eqb_spec (key a) (key x)) as [Heq|Hne].
    + exfalso. apply Hnotin. rewrite Heq. now apply in_map.
    + now apply IH.
Qed.

Lemma find_key_Some l k x :
  find (fun r => String.eqb (key r) k) l = Some x -> In x l /\ key x = k.
Proof.
  intros H. apply find_some in H as [Hin Heq].
  split; [assumption|]. now apply String.eqb_eq.
Qed.

Lemma find_key_None l k :
  find (fun r => String.eqb (key r) k) l = None ->
  forall x, In x l -> key x <> k.
Proof.
  intros H x Hin Heq.
  pose proof (find_none _ _ H x Hin) as Hf. simpl in Hf.
  rewrite Heq, String.eqb_refl in Hf. discriminate.
Qed.

(** Two entries of a duplicate-free list with one key are one entry. *)
Lemma key_inj l x y :
  List.NoDup (map key l) -> In x l -> In y l -> key x = key y -> x = y.
Proof.
  induction l as [|a l IH]; simpl; intros Hnd Hx Hy Heq; [contradiction|].
  inversion Hnd as [|? ? Hnotin Hnd']; subst.
  destruct Hx as [->|Hx], Hy as [->|Hy]; auto.
  - exfalso. apply Hnotin. rewrite Heq. now apply in_map.
  - exfalso. apply Hnotin. rewrite <- Heq. now apply in_map.
Qed.

(** An update in place that keeps the keys. *)
Lemma map_key_update (g : A -> A) (test : A -> bool) l :
  (forall r, key (g r) = key r) ->
  map key (map (fun r => if test r then g r else r) l) = map key l.
Proof.
  intros Hg. induction l as [|a l IH]; simpl; [reflexivity|].
  rewrite IH. destruct (test a); now rewrite ?Hg.
Qed.

Lemma NoDup_filter_key (test : A -> bool) l :
  List.NoDup (map key l) -> List.NoDup (map key (List.filter test l)).
Proof.
  induction l as [|a l IH]; simpl; intros Hnd; [constructor|].
  inversion Hnd as [|? ? Hnotin Hnd']; subst.
  destruct (test a); simpl; auto.
  constructor; auto.
  intros Hin. apply Hnotin.
  apply in_map_iff in Hin as (y & Hy & Hin).
  apply filter_In in Hin as [Hin _].
  rewrite <- Hy. now apply in_map.
Qed.

Lemma NoDup_snoc_key l x :
  List.NoDup (map key l) -> ~ In (key x) (map key l) ->
  List.NoDup (map key (l ++ [x])).
Proof.
  intros Hnd Hnotin. rewrite map_app. simpl.
  apply NoDup_ListNoDup. apply NoDup_app. repeat split.
  - now apply NoDup_ListNoDup.
  - intros k Hk Hk'. apply list_elem_of_In in Hk, Hk'.
    destruct Hk' as [<-|[]]. contradiction.
  - apply NoDup_ListNoDup. constructor; [simpl; tauto|constructor].
Qed.
End Keyed.

(** ** Sorted lists *)

Section SortedLists.
Context {A : Type} (R : A -> A -> Prop).

Lemma StronglySorted_filter (f : A -> bool) l :
  StronglySorted R l -> StronglySorted R (List.filter f l).
Proof.
  induction 1 as [|a l Hs IH Hall]; simpl; [constructor|].
  destruct (f a); [|assumption].
  constructor; [assumption|].
  apply List.Forall_forall. intros x Hx. apply filter_In in Hx as [Hx _].
  rewrite List.Forall_forall in Hall. now apply Hall.
Qed.

Lemma StronglySorted_firstn n l :
  StronglySorted R l -> StronglySorted R (firstn n l).
Proof.
  intros Hs. revert n. induction Hs as [|a l Hs IH Hall]; intros [|n]; simpl;
    try constructor; auto.
  apply List.Forall_forall. intros x Hx.
  rewrite List.Forall_forall in Hall. apply Hall.
  rewrite <- (firstn_skipn n l). apply in_app_iff. now left.
Qed.

(** In a sorted list whatever is cut off lies after whatever is kept. *)
Lemma StronglySorted_cut n l a b :
  StronglySorted R l -> In a (firstn n l) -> In b (skipn n l) -> R a b.
Proof.
  intros Hs. revert n. induction Hs as [|x l Hs IH Hall]; intros [|n] Ha Hb;
    simpl in *; try contradiction.
  destruct Ha as [<-|Ha]; [|now apply (IH n)].
  rewrite List.Forall_forall in Hall. apply Hall.
  rewrite <- (firstn_skipn n l). apply in_app_iff. now right.
Qed.
End SortedLists.


(** ** The text of a whole number *)

Lemma to_int_proper z :
  Z.to_int z <> Decimal.Pos Decimal.Nil
  /\ Z.to_int z <> Decimal.Neg Decimal.Nil.
Proof.
  destruct z as [|p|p]; simpl; split; try discriminate;
    intros H; injection H as H;
    now apply (DecimalPos.Unsigned.to_uint_nonnil p).
Qed.

Lemma showZ_inj a b : JobQueueView.showZ a = JobQueueView.showZ b -> a = b.
Proof.
  unfold JobQueueView.showZ. intros H.
  apply DecimalZ.to_int_inj.
  destruct (to_int_proper a) as [Ha1 Ha2], (to_int_proper b) as [Hb1 Hb2].
  pose proof (NilZero.isi _ Ha1 Ha2) as Ea.
  pose proof (NilZero.isi _ Hb1 Hb2) as Eb.
  rewrite H in Ea. congruence.
Qed.

(** ** The main-process queue *)

Module ElectronFacts.
Import ElectronQueue.

(** *** The table *)

Lemma insertByCreatedAt_perm j l : Permutation (insertByCreatedAt j l) (j :: l).
Proof.
  induction l as [|x l IH]; simpl; [reflexivity|].
  destruct (created_at j <=? created_at x); [reflexivity|].
  rewrite IH. apply perm_swap.
Qed.

Lemma orderByCreatedAt_perm l : Permutation (orderByCreatedAt l) l.
Proof.
  induction l as [|x l IH]; simpl; [reflexivity|].
  rewrite insertByCreatedAt_perm. now constructor.
Qed.

Lemma insertByCreatedAt_sorted j l :
  StronglySorted olderEq l -> StronglySorted olderEq (insertByCreatedAt j l).
Proof.
  induction l as [|x l IH]; simpl; intros Hs.
  - repeat constructor.
  - inversion Hs as [|? ? Hs' Hall]; subst.
    destruct (Z.leb_spec (created_at j) (created_at x)) as [Hle|Hgt].
    + constructor; [assumption|]. constructor; [assumption|].
      eapply Forall_impl; [exact Hall|]. unfold olderEq. intros; lia.
    + constructor; [now apply IH|].
      apply List.Forall_forall. intros y Hy.
      apply (Permutation_in _ (insertByCreatedAt_perm j l)) in Hy.
      destruct Hy as [<-|Hy]; [unfold olderEq; lia|].
      rewrite List.Forall_forall in Hall. now apply Hall.
Qed.

Lemma orderByCreatedAt_sorted l : StronglySorted olderEq (orderByCreatedAt l).
Proof.
  induction l as [|x l IH]; simpl; [constructor|].
  now apply insertByCreatedAt_sorted.
Qed.

Lemma orderByCreatedAt_In l j : In j (orderByCreatedAt l) <-> In j l.
Proof.
  split; apply Permutation_in;
    [apply orderByCreatedAt_perm | symmetry; apply orderByCreatedAt_perm].
Qed.

Lemma head_firstn_1 {A} (l : list A) : head (firstn 1 l) = head l.
Proof. destruct l; reflexivity. Qed.

Lemma isDue_spec now j :
  isDue now j = true <-> status j = queued /\ next_run_at j <= now.
Proof.
  unfold isDue. rewrite andb_true_iff, status_eqb_true, Z.leb_le. tauto.
Qed.

(** The selected job is due and no due job is older. *)
Lemma getNextJobToProcess_Some now rows j :
  getNextJobToProcess now rows = Some j ->
  In j rows /\ status j = queued /\ next_run_at j <= now
  /\ forall j', In j' rows -> isDue now j' = true ->
       created_at j <= created_at j'.
Proof.
  unfold getNextJobToProcess, selectDue. rewrite head_firstn_1.
  intros H.
  pose proof (orderByCreatedAt_sorted (List.filter (isDue now) rows)) as Hs.
  pose proof (orderByCreatedAt_In (List.filter (isDue now) rows)) as Hin.
  destruct (orderByCreatedAt (List.filter (isDue now) rows)) as [|x l];
    simpl in H; [discriminate|].
  injection H as ->.
  assert (Hj : In j (List.filter (isDue now) rows)) by (apply Hin; now left).
  apply filter_In in Hj as [Hj Hdue]. apply isDue_spec in Hdue as [? ?].
  repeat split; try assumption.
  intros j' Hj' Hdue'.
  assert (Hj'' : In j' (j :: l)) by (apply Hin, filter_In; auto).
  inversion Hs as [|? ? _ Hall]; subst.
  destruct Hj'' as [<-|Hj'']; [lia|].
  rewrite List.Forall_forall in Hall. now apply Hall.
Qed.

Lemma getNextJobToProcess_None now rows :
  getNextJobToProcess now rows = None ->
  forall j, In j rows -> isDue now j = false.
Proof.
  unfold getNextJobToProcess, selectDue. rewrite head_firstn_1.
  intros H j Hj.
  destruct (isDue now j) eqn:Hdue; [|reflexivity].
  assert (Hin : In j (orderByCreatedAt (List.filter (isDue now) rows)))
    by (apply orderByCreatedAt_In, filter_In; auto).
  destruct (orderByCreatedAt (List.filter (isDue now) rows));
    [contradiction|discriminate].
Qed.

Lemma getJobById_In rows j :
  wfTable rows -> In j rows -> getJobById (id j) rows = Some j.
Proof. intros [Hid _] Hin. now apply (head_filter_key id). Qed.

Lemma getJobByIdempotencyKey_In rows j :
  wfTable rows -> In j rows ->
  getJobByIdempotencyKey (idempotency_key j) rows = Some j.
Proof. intros [_ Hkey] Hin. now apply (head_filter_key idempotency_key). Qed.

(** *** Updates keep the constraints *)

Lemma updateWhereId_wf jobId f rows :
  keepsKeys f -> wfTable rows -> wfTable (updateWhereId jobId f rows).
Proof.
  intros Hf [Hid Hkey]. unfold wfTable, updateWhereId.
  rewrite (map_key_update id), (map_key_update idempotency_key);
    auto; intros r; apply Hf.
Qed.

Lemma updateWhereId_ids jobId f rows :
  keepsKeys f -> map id (updateWhereId jobId f rows) = map id rows.
Proof. intros Hf. apply (map_key_update id). intros r; apply Hf. Qed.

Lemma updateWhereId_In jobId f rows r :
  In r (updateWhereId jobId f rows) <->
  exists r0, In r0 rows /\ r = if String.eqb (id r0) jobId then f r0 else r0.
Proof.
  unfold updateWhereId. rewrite in_map_iff.
  split; intros (r0 & H1 & H2); exists r0; auto.
Qed.

(** A row with another id is not touched. *)
Lemma updateWhereId_other jobId f rows r :
  In r rows -> id r <> jobId -> In r (updateWhereId jobId f rows).
Proof.
  intros Hin Hne. apply updateWhereId_In. exists r. split; [assumption|].
  destruct (String.eqb_spec (id r) jobId); [contradiction|reflexivity].
Qed.

Lemma updateWhereId_length jobId f rows :
  length (updateWhereId jobId f rows) = length rows.
Proof. unfold updateWhereId. apply length_map. Qed.

Lemma updateJobStatus_keeps st msg now :
  keepsKeys (fun r =>
    {| id := id r; type := type r; payload_json := payload_json r;
       idempotency_key := idempotency_key r; status := st;
       attempts := attempts r; next_run_at := next_run_at r;
       correlation_id := correlation_id r; created_at := created_at r;
       updated_at := now; error_message := orNull msg;
       last_attempt_at := Some now |}).
Proof. intros r; simpl; auto. Qed.

Lemma updateJobForRetry_keeps n nextRunAt msg now :
  keepsKeys (fun r =>
    {| id := id r; type := type r; payload_json := payload_json r;
       idempotency_key := idempotency_key r; status := queued;
       attempts := n; next_run_at := nextRunAt;
       correlation_id := correlation_id r; created_at := created_at r;
       updated_at := now; error_message := orNull msg;
       last_attempt_at := Some now |}).
Proof. intros r; simpl; auto. Qed.

Lemma updateJobStatus_wf jobId st msg now rows :
  wfTable rows -> wfTable (updateJobStatus jobId st msg now rows).
Proof. apply updateWhereId_wf, updateJobStatus_keeps. Qed.

Lemma updateJobForRetry_wf jobId n t msg now rows :
  wfTable rows -> wfTable (updateJobForRetry jobId n t msg now rows).
Proof. apply updateWhereId_wf, updateJobForRetry_keeps. Qed.

Lemma settle_wf nextJob result now rows :
  wfTable rows -> wfTable (settle nextJob result now rows).
Proof.
  intros Hwf. unfold settle.
  destruct (p_success result); [now apply updateJobStatus_wf|].
  destruct (_ && _); [now apply updateJobForRetry_wf|now apply updateJobStatus_wf].
Qed.

Lemma filter_wf test rows : wfTable rows -> wfTable (List.filter test rows).
Proof. intros [? ?]. split; now apply NoDup_filter_key. Qed.

(** *** Enqueue *)

Lemma constraintFailed_false job rows :
  constraintFailed job rows = false ->
  ~ In (id job) (map id rows)
  /\ ~ In (idempotency_key job) (map idempotency_key rows).
Proof.
  unfold constraintFailed. intros H.
  split; intros Hin; apply in_map_iff in Hin as (r & Heq & Hin);
    assert (Hex : existsb (fun r => String.eqb (id r) (id job)
               || String.eqb (idempotency_key r) (idempotency_key job)) rows
             = true)
      by (apply existsb_exists; exists r; split; [assumption|];
          rewrite Heq, String.eqb_refl; auto using orb_true_r);
    congruence.
Qed.

Lemma constraintFailed_fresh job rows :
  ~ In (id job) (map id rows) ->
  ~ In (idempotency_key job) (map idempotency_key rows) ->
  constraintFailed job rows = false.
Proof.
  intros Hid Hkey. unfold constraintFailed.
  destruct (existsb _ rows) eqn:Hex; [exfalso|reflexivity].
  apply existsb_exists in Hex as (r & Hin & Hor).
  apply orb_true_iff in Hor as [H|H]; apply String.eqb_eq in H.
  - apply Hid. rewrite <- H. now apply in_map.
  - apply Hkey. rewrite <- H. now apply in_map.
Qed.

(** A job with the key is stored: [addJob] answers with its id and the table
    stays as it is. *)
Lemma addJob_existing jobData newId now rows J :
  wfTable rows -> In J rows ->
  idempotency_key J = jd_idempotency_key jobData ->
  addJob jobData newId now rows =
    ({| success := true; jobId := id J; error := None; retryable := None;
        correlationId := correlation_id J |}, rows).
Proof.
  intros Hwf Hin Hkey. unfold addJob, addJobInterleaved.
  now rewrite <- Hkey, (getJobByIdempotencyKey_In rows J).
Qed.

(** No job with the key is stored and the id is new: the job is appended. *)
Lemma addJob_new jobData newId now rows :
  getJobByIdempotencyKey (jd_idempotency_key jobData) rows = None ->
  ~ In newId (map id rows) ->
  addJob jobData newId now rows =
    ({| success := true; jobId := newId; error := None; retryable := None;
        correlationId := jd_correlation_id jobData |},
     rows ++ [makeJob jobData newId now]).
Proof.
  intros Hnone Hfresh. unfold addJob, addJobInterleaved, insertRow. rewrite Hnone.
  rewrite constraintFailed_fresh; [reflexivity|assumption|].
  simpl. intros Hin. apply in_map_iff in Hin as (r & Heq & Hin).
  now apply (head_filter_key_None idempotency_key _ _ Hnone r).
Qed.

Lemma addJob_rows jobData newId now rows :
  snd (addJob jobData newId now rows) = rows
  \/ (constraintFailed (makeJob jobData newId now) rows = false
      /\ snd (addJob jobData newId now rows)
         = rows ++ [makeJob jobData newId now]).
Proof.
  unfold addJob, addJobInterleaved, insertRow.
  destruct (getJobByIdempotencyKey _ rows); [now left|].
  destruct (constraintFailed _ rows) eqn:Hc; [now left|now right].
Qed.

Lemma addJob_wf jobData newId now rows :
  wfTable rows -> wfTable (snd (addJob jobData newId now rows)).
Proof.
  intros Hwf.
  destruct (addJob_rows jobData newId now rows) as [->|(Hc & ->)];
    [assumption|].
  apply constraintFailed_false in Hc as [Hid Hkey]. destruct Hwf.
  split; now apply NoDup_snoc_key.
Qed.

(** *** The invariant *)

Lemma settle_update nextJob result now rows :
  exists f,
    keepsKeys f
    /\ settle nextJob result now rows = updateWhereId (id nextJob) f rows
    /\ (forall r, status (f r) <> running)
    /\ (forall r, attempts (f r) = attempts r
                  \/ (attempts (f r) = S (attempts nextJob)
                      /\ (attempts nextJob < length backoffSchedule)%nat)).
Proof.
  unfold settle. destruct (p_success result).
  - eexists. split; [|split; [reflexivity|]].
    + apply updateJobStatus_keeps.
    + simpl. split; [discriminate|auto].
  - destruct (p_retryable result); cbn [andb].
    + destruct (Nat.ltb_spec (attempts nextJob) (length backoffSchedule)).
      * eexists. split; [|split; [reflexivity|]].
        -- apply updateJobForRetry_keeps.
        -- simpl. split; [discriminate|]. intros r. right.
           split; [lia|assumption].
      * eexists. split; [|split; [reflexivity|]].
        -- apply updateJobStatus_keeps.
        -- simpl. split; [discriminate|auto].
    + eexists. split; [|split; [reflexivity|]].
      * apply updateJobStatus_keeps.
      * simpl. split; [discriminate|auto].
Qed.

Lemma retryJob_rows jobId now rows :
  snd (retryJob jobId now rows) = rows
  \/ exists job, getJobById jobId rows = Some job /\ status job = dead
       /\ snd (retryJob jobId now rows)
          = updateJobForRetry jobId 0 now None now rows.
Proof.
  unfold retryJob. destruct (getJobById jobId rows) as [job|] eqn:Hget;
    [|now left].
  destruct (status_eqb (status job) dead) eqn:Hst; [|now left].
  right. exists job. apply status_eqb_true in Hst. auto.
Qed.

Lemma clearDeadJobs_rows rows :
  snd (clearDeadJobs rows)
  = List.filter (fun r => negb (status_eqb (status r) dead)) rows.
Proof. reflexivity. Qed.

(** The list of the calls in flight. *)
Lemma In_insert {A} (k : nat) (x y : A) l :
  In x (<[k := y]> l) -> x = y \/ In x l.
Proof.
  revert k. induction l as [|a l IH]; intros [|k]; simpl; try tauto.
  - intros [<-|H]; auto.
  - intros [<-|H]; auto. destruct (IH k H); auto.
Qed.

Lemma In_delete {A} (k : nat) (x : A) l : In x (delete k l) -> In x l.
Proof.
  revert k. induction l as [|a l IH]; intros [|k]; simpl; auto.
  intros [<-|H]; eauto.
Qed.

Lemma lookup_In {A} (k : nat) (x : A) l : l !! k = Some x -> In x l.
Proof.
  revert k. induction l as [|a l IH]; intros [|k]; simpl; try discriminate.
  - intros [= <-]. now left.
  - intros H. right. exact (IH k H).
Qed.

(** What the statements of the queue do to a stored job. *)
Lemma rowInvariant_update jobId f rows :
  (forall r0, rowInvariant r0 -> rowInvariant (f r0)) ->
  (forall r, In r rows -> rowInvariant r) ->
  forall r, In r (updateWhereId jobId f rows) -> rowInvariant r.
Proof.
  intros Hf Hall r Hr. apply updateWhereId_In in Hr as (r0 & Hr0 & ->).
  destruct (String.eqb (id r0) jobId); auto.
Qed.

Lemma rowInvariant_settle nextJob result now rows :
  (forall r, In r rows -> rowInvariant r) ->
  forall r, In r (settle nextJob result now rows) -> rowInvariant r.
Proof.
  intros Hall. unfold settle.
  destruct (p_success result).
  - apply rowInvariant_update; [|exact Hall].
    intros r0 (Ha & _ & _). repeat split; simpl; auto; discriminate.
  - destruct (p_retryable result
              && (attempts nextJob <? length backoffSchedule)%nat) eqn:Hretry.
    + apply andb_true_iff in Hretry as [_ Hlt]. apply Nat.ltb_lt in Hlt.
      apply rowInvariant_update; [|exact Hall].
      intros r0 _. split; [simpl in *; lia|].
      split; simpl; [discriminate|intros [|]; discriminate].
    + apply rowInvariant_update; [|exact Hall].
      intros r0 (Ha & _ & _). split; [exact Ha|].
      split; simpl; [discriminate|intros [|]; discriminate].
Qed.

Lemma system_inv_init : Invariant (atRest init).
Proof.
  constructor; simpl.
  - split; constructor.
  - intros r [].
  - intros c [].
Qed.

Lemma system_inv_spawn c s :
  Invariant s -> callInvariant c -> Invariant (spawn c s).
Proof.
  intros [Hwf Hrows Hcalls] Hc. constructor; simpl; auto.
  intros c' Hin. apply in_app_iff in Hin as [Hin|[<-|[]]]; auto.
Qed.

Lemma system_inv_proceed k next q s :
  Invariant s -> wfTable (rows q) ->
  (forall r, In r (rows q) -> rowInvariant r) ->
  (forall c, next = Some c -> callInvariant c) ->
  Invariant (proceed k next q s).
Proof.
  intros [_ _ Hcalls] Hwf Hrows Hnext. constructor; simpl; auto.
  intros c Hin. destruct next as [c'|].
  - apply In_insert in Hin as [->|Hin]; auto.
  - apply In_delete in Hin. auto.
Qed.

Lemma system_inv_answer k now newId outcome s :
  Invariant s -> Invariant (answer k now newId outcome s).
Proof.
  intros Hinv. unfold answer.
  destruct (calls s !! k) as [c|] eqn:Hk; [|exact Hinv].
  pose proof (inv_calls _ Hinv c (lookup_In _ _ _ Hk)) as Hc.
  pose proof (inv_wf _ Hinv) as Hwf.
  pose proof (inv_rows _ Hinv) as Hrows.
  assert (Hloop : forall loop t q c0,
            afterProcessNextJob loop t q = Some c0 -> callInvariant c0).
  { intros loop t q c0. unfold afterProcessNextJob, loopHead.
    destruct loop; [|discriminate].
    destruct (_ <? _)%nat; [|discriminate]. now intros [= <-]. }
  destruct c as [jobData|job|jobId|jobId t| |t|t loop|nextJob t loop
                |nextJob loop|nextJob result t loop]; simpl in Hc.
  - destruct (getJobByIdempotencyKey _ _);
      apply (system_inv_proceed _ _ _ _ Hinv); auto; try discriminate.
    intros c [= <-]. exact Hc.
  - destruct (insertRow job (rows (queue s))) as [rows'|] eqn:Hins;
      [|apply (system_inv_proceed _ _ _ _ Hinv); auto; discriminate].
    unfold insertRow in Hins.
    destruct (constraintFailed job (rows (queue s))) eqn:Hcf;
      [discriminate|]. injection Hins as <-.
    apply constraintFailed_false in Hcf as [Hid Hkey].
    apply (system_inv_proceed _ _ _ _ Hinv); simpl; try discriminate.
    + destruct Hwf. split; now apply NoDup_snoc_key.
    + intros r Hr. apply in_app_iff in Hr as [Hr|[<-|[]]]; [auto|].
      destruct Hc as [Hst Hatt]. repeat split.
      * rewrite Hatt. lia.
      * rewrite Hst. discriminate.
      * rewrite Hst. intros [|]; discriminate.
  - destruct (getJobById jobId (rows (queue s))) as [job|];
      [destruct (status_eqb (status job) dead)|];
      apply (system_inv_proceed _ _ _ _ Hinv); auto; try discriminate.
    now intros c [= <-].
  - apply (system_inv_proceed _ _ _ _ Hinv); simpl; try discriminate.
    + now apply updateJobForRetry_wf.
    + apply rowInvariant_update; [|exact Hrows].
      intros r0 _. split; [simpl; lia|].
      split; simpl; [discriminate|intros [|]; discriminate].
  - apply (system_inv_proceed _ _ _ _ Hinv); simpl; try discriminate.
    + now apply filter_wf.
    + intros r Hr. apply filter_In in Hr as [Hr _]. auto.
  - destruct (getNextJobToProcess t (rows (queue s)));
      apply (system_inv_proceed _ _ _ _ Hinv); auto; try discriminate.
    now intros c [= <-].
  - destruct (getNextJobToProcess t (rows (queue s))) as [nextJob|] eqn:Hnext.
    + apply getNextJobToProcess_Some in Hnext as (Hin & _).
      apply (system_inv_proceed _ _ _ _ Hinv); simpl; auto.
      intros c [= <-]. simpl. now apply Hrows.
    + apply (system_inv_proceed _ _ _ _ Hinv); auto. apply Hloop.
  - apply (system_inv_proceed _ _ _ _ Hinv); simpl.
    + now apply updateJobStatus_wf.
    + apply rowInvariant_update; [|exact Hrows].
      intros r0 (Ha & _ & _). repeat split; simpl; auto; discriminate.
    + intros c [= <-]. exact Hc.
  - apply (system_inv_proceed _ _ _ _ Hinv); auto.
    intros c [= <-]. exact Hc.
  - apply (system_inv_proceed _ _ _ _ Hinv); simpl.
    + now apply settle_wf.
    + now apply rowInvariant_settle.
    + apply Hloop.
Qed.

Lemma system_inv_apply e s :
  Invariant s -> admissible e -> Invariant (apply e s).
Proof.
  intros Hinv Hadm.
  destruct e as [jobData|jobId| |now|now|k now newId outcome|]; simpl.
  - now apply system_inv_spawn.
  - now apply system_inv_spawn.
  - now apply system_inv_spawn.
  - destruct (_ && _); [now apply system_inv_spawn|assumption].
  - unfold loopHead. destruct (_ <? _)%nat; [now apply system_inv_spawn|
                                              assumption].
  - now apply system_inv_answer.
  - constructor; simpl; [apply Hinv|apply Hinv|intros c []].
Qed.

Lemma system_reachable_Invariant s : reachableSystem s -> Invariant s.
Proof.
  induction 1 as [|s e _ IH Hadm];
    [apply system_inv_init|now apply system_inv_apply].
Qed.

Lemma table_reachable_wf q : reachable q -> wfTable (rows q).
Proof.
  intros (s & Hs & <-). apply (inv_wf s), system_reachable_Invariant, Hs.
Qed.

Lemma table_reachable_rows q :
  reachable q -> forall r, In r (rows q) -> rowInvariant r.
Proof.
  intros (s & Hs & <-). apply (inv_rows s), system_reachable_Invariant, Hs.
Qed.

Lemma system_reachable_run events s :
  reachableSystem s -> List.Forall admissible events ->
  reachableSystem (runSystem events s).
Proof.
  revert s. induction events as [|e rest IH]; intros s Hs Hadm; [assumption|].
  inversion Hadm; subst. apply IH; [|assumption].
  now apply reachable_apply.
Qed.

(** A run from a queue that was reached with no call left in flight. *)
Lemma table_reachable_run events s :
  reachableSystem s -> calls s = [] -> List.Forall admissible events ->
  reachable (run events (queue s)).
Proof.
  intros Hs Hcalls Hadm. exists (runSystem events s). split.
  - now apply system_reachable_run.
  - unfold run, atRest. rewrite <- Hcalls. now destruct s.
Qed.

(** *** One whole call of [processNextJob] *)

Lemma processJob_handlerResult job outcome :
  processJob job outcome = handlerResult outcome.
Proof. unfold processJob. now destruct (type job). Qed.

Lemma getJobById_update jobId f rows r :
  wfTable rows -> keepsKeys f -> In r rows -> id r = jobId ->
  getJobById jobId (updateWhereId jobId f rows) = Some (f r).
Proof.
  intros Hwf Hf Hin Hid.
  assert (Hid' : id (f r) = jobId) by (now rewrite (proj1 (Hf r))).
  rewrite <- Hid' at 1. apply getJobById_In; [now apply updateWhereId_wf|].
  apply updateWhereId_In. exists r. split; [assumption|].
  now rewrite Hid, String.eqb_refl.
Qed.

Lemma processNextJob_rows now outcome later q nextJob :
  getNextJobToProcess now (rows q) = Some nextJob ->
  rows (processNextJob now outcome later q)
  = settle nextJob (processJob nextJob outcome) later
      (updateJobStatus (id nextJob) running None now (rows q)).
Proof.
  intros Hnext. unfold processNextJob, beginPass. now rewrite Hnext.
Qed.

(** The stored job after the call, by what the handler did. *)
Lemma processNextJob_job now outcome later q nextJob :
  wfTable (rows q) -> getNextJobToProcess now (rows q) = Some nextJob ->
  exists r',
    getJobById (id nextJob) (rows (processNextJob now outcome later q))
    = Some r'
    /\ idempotency_key r' = idempotency_key nextJob
    /\ created_at r' = created_at nextJob
    /\ let result := processJob nextJob outcome in
       if p_success result then
         status r' = succeeded /\ attempts r' = attempts nextJob
         /\ next_run_at r' = next_run_at nextJob /\ error_message r' = None
       else if p_retryable result
               && (attempts nextJob <? length backoffSchedule)%nat then
         status r' = queued /\ attempts r' = S (attempts nextJob)
         /\ next_run_at r'
            = later + nth (attempts nextJob) backoffSchedule 0 * 1000
         /\ error_message r' = orNull (p_error result)
       else
         status r' = dead /\ attempts r' = attempts nextJob
         /\ next_run_at r' = next_run_at nextJob
         /\ error_message r' = orNull (p_error result).
Proof.
  intros Hwf Hnext. rewrite (processNextJob_rows _ _ _ _ _ Hnext).
  apply getNextJobToProcess_Some in Hnext as (Hin & _).
  pose proof (updateJobStatus_wf (id nextJob) running None now _ Hwf) as Hwf1.
  pose proof (getJobById_update (id nextJob) _ (rows q) nextJob Hwf
                (updateJobStatus_keeps running None now) Hin eq_refl) as Hrow.
  apply (head_filter_key_Some id) in Hrow as [Hin1 Hid1].
  unfold settle.
  destruct (p_success (processJob nextJob outcome)).
  - eexists. split.
    + unfold updateJobStatus at 1.
      apply getJobById_update;
        [exact Hwf1|apply updateJobStatus_keeps|exact Hin1|exact Hid1].
    + simpl. repeat split.
  - destruct (p_retryable (processJob nextJob outcome)
              && (attempts nextJob <? length backoffSchedule)%nat).
    + eexists. split.
      * unfold updateJobForRetry.
        apply getJobById_update;
          [exact Hwf1|apply updateJobForRetry_keeps|exact Hin1|exact Hid1].
      * simpl. rewrite Nat.add_sub, Nat.add_1_r. repeat split.
    + eexists. split.
      * unfold updateJobStatus at 1.
        apply getJobById_update;
          [exact Hwf1|apply updateJobStatus_keeps|exact Hin1|exact Hid1].
      * simpl. repeat split.
Qed.

(** *** Statistics *)

Lemma countStatus_partition rows :
  length rows
  = (countStatus queued rows + countStatus running rows
     + countStatus succeeded rows + countStatus failed rows
     + countStatus dead rows)%nat.
Proof.
  unfold countStatus. induction rows as [|r rows IH]; [reflexivity|].
  simpl. destruct (status r); simpl; lia.
Qed.

Lemma getStats_counts rows :
  n_queued (getStats rows) = countStatus queued rows
  /\ n_running (getStats rows) = countStatus running rows
  /\ n_succeeded (getStats rows) = countStatus succeeded rows
  /\ n_failed (getStats rows) = countStatus failed rows
  /\ n_dead (getStats rows) = countStatus dead rows
  /\ total (getStats rows)
     = (countStatus queued rows + countStatus running rows
        + countStatus succeeded rows + countStatus failed rows
        + countStatus dead rows)%nat.
Proof.
  unfold getStats, groupByStatus, groupOf, countStatus. simpl flat_map.
  destruct (List.filter (fun r => status_eqb (status r) dead) rows);
    destruct (List.filter (fun r => status_eqb (status r) failed) rows);
    destruct (List.filter (fun r => status_eqb (status r) queued) rows);
    destruct (List.filter (fun r => status_eqb (status r) running) rows);
    destruct (List.filter (fun r => status_eqb (status r) succeeded) rows);
    simpl; repeat split; lia.
Qed.

(** *** The selection of due jobs *)

Lemma selectDue_spec now limit rows :
  let sel := selectDue now limit rows in
  length sel = Nat.min limit (length (List.filter (isDue now) rows))
  /\ (forall j, In j sel ->
        In j rows /\ status j = queued /\ next_run_at j <= now)
  /\ StronglySorted olderEq sel
  /\ (forall j j', In j sel -> In j' rows -> isDue now j' = true ->
        ~ In j' sel -> created_at j <= created_at j').
Proof.
  unfold selectDue.
  set (due := List.filter (isDue now) rows).
  pose proof (orderByCreatedAt_sorted due) as Hs.
  pose proof (orderByCreatedAt_In due) as Hin.
  cbv zeta. split; [|split; [|split]].
  - rewrite length_firstn.
    now rewrite (Permutation_length (orderByCreatedAt_perm due)).
  - intros j Hj.
    assert (Hj' : In j due).
    { apply Hin. rewrite <- (firstn_skipn limit (orderByCreatedAt due)).
      apply in_app_iff. now left. }
    apply filter_In in Hj' as [Hrows Hdue].
    apply isDue_spec in Hdue. tauto.
  - now apply StronglySorted_firstn.
  - intros j j' Hj Hj' Hdue Hnot.
    apply (StronglySorted_cut olderEq limit (orderByCreatedAt due)); auto.
    assert (Hall : In j' (orderByCreatedAt due))
      by (apply Hin, filter_In; auto).
    rewrite <- (firstn_skipn limit (orderByCreatedAt due)) in Hall.
    apply in_app_iff in Hall as [Hall|Hall]; [contradiction|assumption].
Qed.

(** The oldest due job is the one selected. *)
Lemma getNextJobToProcess_oldest now rows A :
  In A rows -> isDue now A = true ->
  (forall j, In j rows -> isDue now j = true ->
     j = A \/ created_at A < created_at j) ->
  getNextJobToProcess now rows = Some A.
Proof.
  intros HA Hdue Holdest.
  destruct (getNextJobToProcess now rows) as [j|] eqn:Hnext.
  - apply getNextJobToProcess_Some in Hnext as (Hj & Hq & Hd & Hmin).
    assert (Hjdue : isDue now j = true) by (apply isDue_spec; auto).
    destruct (Holdest j Hj Hjdue) as [->|Hlt]; [reflexivity|].
    pose proof (Hmin A HA Hdue). lia.
  - pose proof (getNextJobToProcess_None now rows Hnext A HA). congruence.
Qed.

Lemma dead_count rows :
  (length rows
   - length (List.filter (fun r => negb (status_eqb (status r) dead)) rows))%nat
  = countStatus dead rows.
Proof.
  unfold countStatus. induction rows as [|r rows IH]; [reflexivity|].
  simpl. pose proof (filter_length_le
    (fun r => negb (status_eqb (status r) dead)) rows).
  destruct (status_eqb (status r) dead); simpl; lia.
Qed.


(** *** Listing *)

Lemma statusText_eqb a b :
  String.eqb (statusText a) (statusText b) = status_eqb a b.
Proof. destruct a, b; reflexivity. Qed.

Lemma statusText_nonempty a : statusText a <> EmptyString.
Proof. destruct a; discriminate. Qed.

Lemma insertByCreatedAtDesc_perm j l :
  Permutation (insertByCreatedAtDesc j l) (j :: l).
Proof.
  induction l as [|x l IH]; simpl; [reflexivity|].
  destruct (created_at x <=? created_at j); [reflexivity|].
  rewrite IH. apply perm_swap.
Qed.

Lemma orderByCreatedAtDesc_perm l : Permutation (orderByCreatedAtDesc l) l.
Proof.
  induction l as [|x l IH]; simpl; [reflexivity|].
  rewrite insertByCreatedAtDesc_perm. now constructor.
Qed.

Lemma insertByCreatedAtDesc_sorted j l :
  StronglySorted newerEq l -> StronglySorted newerEq (insertByCreatedAtDesc j l).
Proof.
  induction l as [|x l IH]; simpl; intros Hs.
  - repeat constructor.
  - inversion Hs as [|? ? Hs' Hall]; subst.
    destruct (Z.leb_spec (created_at x) (created_at j)) as [Hle|Hgt].
    + constructor; [assumption|]. constructor; [assumption|].
      eapply Forall_impl; [exact Hall|]. unfold newerEq. intros; lia.
    + constructor; [now apply IH|].
      apply List.Forall_forall. intros y Hy.
      apply (Permutation_in _ (insertByCreatedAtDesc_perm j l)) in Hy.
      destruct Hy as [<-|Hy]; [unfold newerEq; lia|].
      rewrite List.Forall_forall in Hall. now apply Hall.
Qed.

Lemma orderByCreatedAtDesc_sorted l :
  StronglySorted newerEq (orderByCreatedAtDesc l).
Proof.
  induction l as [|x l IH]; simpl; [constructor|].
  now apply insertByCreatedAtDesc_sorted.
Qed.

Lemma orderByCreatedAtDesc_In l j : In j (orderByCreatedAtDesc l) <-> In j l.
Proof.
  split; apply Permutation_in;
    [apply orderByCreatedAtDesc_perm | symmetry; apply orderByCreatedAtDesc_perm].
Qed.

(** A listing with a status that is one of the five. *)
Lemma getJobs_status st limit rows :
  getJobs (Some (statusText st)) limit rows
  = match limitRows (match limit with Some n => n | None => Whole 100 end)
            (orderByCreatedAtDesc
               (List.filter (fun r => status_eqb (status r) st) rows)) with
    | Some listed => listed
    | None => []
    end.
Proof.
  unfold getJobs.
  replace (List.filter (fun r => String.eqb (statusText (status r))
                                   (statusText st)) rows)
    with (List.filter (fun r => status_eqb (status r) st) rows)
    by (apply filter_ext; intros r; now rewrite statusText_eqb).
  now destruct st.
Qed.

(** The first [n] rows of a listing in descending order. *)
Lemma newest_first n selected :
  let l := firstn n (orderByCreatedAtDesc selected) in
  length l = Nat.min n (length selected)
  /\ (forall j, In j l -> In j selected)
  /\ StronglySorted newerEq l
  /\ (forall j j', In j l -> In j' selected -> ~ In j' l ->
        created_at j' <= created_at j).
Proof.
  pose proof (orderByCreatedAtDesc_sorted selected) as Hs.
  pose proof (orderByCreatedAtDesc_In selected) as Hin.
  cbv zeta. split; [|split; [|split]].
  - rewrite length_firstn.
    now rewrite (Permutation_length (orderByCreatedAtDesc_perm selected)).
  - intros j Hj. apply Hin.
    rewrite <- (firstn_skipn n (orderByCreatedAtDesc selected)).
    apply in_app_iff. now left.
  - now apply StronglySorted_firstn.
  - intros j j' Hj Hj' Hnot.
    apply (StronglySorted_cut newerEq n (orderByCreatedAtDesc selected)); auto.
    assert (Hall : In j' (orderByCreatedAtDesc selected)) by now apply Hin.
    rewrite <- (firstn_skipn n (orderByCreatedAtDesc selected)) in Hall.
    apply in_app_iff in Hall as [Hall|Hall]; [contradiction|assumption].
Qed.


(** *** The oldest queued job *)

Lemma oldestJob_getStats rows :
  oldestJob (getStats rows)
  = match List.filter (fun r => status_eqb (status r) queued) rows with
    | [] => None
    | r :: rs => Some (fold_right Z.min (created_at r) (map created_at rs))
    end.
Proof.
  unfold getStats, groupByStatus, groupOf. simpl flat_map.
  destruct (List.filter (fun r => status_eqb (status r) dead) rows);
    destruct (List.filter (fun r => status_eqb (status r) failed) rows);
    destruct (List.filter (fun r => status_eqb (status r) queued) rows);
    destruct (List.filter (fun r => status_eqb (status r) running) rows);
    destruct (List.filter (fun r => status_eqb (status r) succeeded) rows);
    reflexivity.
Qed.

Lemma fold_min_le a l :
  fold_right Z.min a l <= a
  /\ forall x, In x l -> fold_right Z.min a l <= x.
Proof.
  induction l as [|y l [IHa IHl]]; simpl; [split; [lia|contradiction]|].
  split; [lia|]. intros x [->|Hx]; [lia|]. specialize (IHl x Hx). lia.
Qed.

Lemma fold_min_In a l : In (fold_right Z.min a l) (a :: l).
Proof.
  induction l as [|y l IH]; simpl; [now left|].
  destruct (Z.min_spec y (fold_right Z.min a l)) as [[_ ->]|[_ ->]].
  - right. now left.
  - destruct IH as [IH|IH]; [now left|right; now right].
Qed.


(** *** Enqueue, then look up *)

Lemma head_filter_snoc {A} (test : A -> bool) l x :
  head (List.filter test l) = None -> test x = true ->
  head (List.filter test (l ++ [x])) = Some x.
Proof.
  intros Hnone Hx. rewrite List.filter_app. simpl. rewrite Hx.
  destruct (List.filter test l); [reflexivity|discriminate].
Qed.

Lemma head_filter_absent {A} (key : A -> string) l k :
  ~ In k (map key l) ->
  head (List.filter (fun r => String.eqb (key r) k) l) = None.
Proof.
  intros Hnot.
  destruct (head (List.filter (fun r => String.eqb (key r) k) l))
    as [x|] eqn:Hhead; [|reflexivity].
  apply (head_filter_key_Some key) in Hhead as [Hin <-].
  exfalso. apply Hnot. now apply in_map.
Qed.

Lemma constraintFailed_true job rows :
  constraintFailed job rows = true ->
  In (id job) (map id rows)
  \/ In (idempotency_key job) (map idempotency_key rows).
Proof.
  unfold constraintFailed. intros H.
  apply existsb_exists in H as (r & Hr & Hor).
  apply orb_true_iff in Hor as [Heq|Heq]; apply String.eqb_eq in Heq;
    rewrite <- Heq; [left|right]; now apply in_map.
Qed.

(** The enqueue either answers with a stored job that has the key, or is
    refused because the generated id is taken. *)
Lemma addJob_lookup jobData newId now rows :
  wfTable rows ->
  let r := addJob jobData newId now rows in
  (success (fst r) = true
   /\ exists j,
        getJobHistory (jobId (fst r)) (snd r) = Some j
        /\ getJobByIdempotencyKey (jd_idempotency_key jobData) (snd r) = Some j
        /\ id j = jobId (fst r)
        /\ idempotency_key j = jd_idempotency_key jobData)
  \/ (success (fst r) = false
      /\ getJobByIdempotencyKey (jd_idempotency_key jobData) rows = None
      /\ In newId (map id rows)
      /\ r = ({| success := false; jobId := ""; error := Some constraintMessage;
                 retryable := Some false; correlationId := None |}, rows)).
Proof.
  intros Hwf. cbv zeta. unfold addJob, addJobInterleaved.
  destruct (getJobByIdempotencyKey (jd_idempotency_key jobData) rows)
    as [ex|] eqn:Hkey.
  - left. split; [reflexivity|]. exists ex. simpl.
    pose proof Hkey as Hex.
    apply (head_filter_key_Some idempotency_key) in Hex as [Hin Hk].
    repeat split; auto. now apply getJobById_In.
  - unfold insertRow.
    destruct (constraintFailed (makeJob jobData newId now) rows) eqn:Hc.
    + right. split; [reflexivity|]. split; [reflexivity|]. split; [|reflexivity].
      apply constraintFailed_true in Hc as [Hid|Hk]; [exact Hid|].
      exfalso. simpl in Hk. apply in_map_iff in Hk as (x & Hx & Hin).
      exact (head_filter_key_None idempotency_key _ _ Hkey x Hin Hx).
    + left. split; [reflexivity|].
      apply constraintFailed_false in Hc as [Hid Hk].
      exists (makeJob jobData newId now). simpl.
      repeat split.
      * apply head_filter_snoc; [|simpl; apply String.eqb_refl].
        now apply (head_filter_absent id).
      * apply head_filter_snoc; [exact Hkey|simpl; apply String.eqb_refl].
Qed.


(** *** The public [processQueue] *)

Lemma getNextJobToProcess_later now now' rows j :
  now <= now' -> getNextJobToProcess now rows = Some j ->
  exists j', getNextJobToProcess now' rows = Some j'.
Proof.
  intros Hle Hnext.
  destruct (getNextJobToProcess now' rows) as [j'|] eqn:Hnext';
    [now exists j'|].
  apply getNextJobToProcess_Some in Hnext as (Hin & Hq & Hdue & _).
  pose proof (getNextJobToProcess_None now' rows Hnext' j Hin) as Hnot.
  assert (Hd : isDue now' j = true) by (apply isDue_spec; split; [auto|lia]).
  congruence.
Qed.

Lemma updateWhereId_absent jobId f rows :
  ~ In jobId (map id rows) -> updateWhereId jobId f rows = rows.
Proof.
  unfold updateWhereId. induction rows as [|a rows IH]; simpl; intros Hnot;
    [reflexivity|].
  destruct (String.eqb_spec (id a) jobId) as [Heq|_]; [tauto|].
  rewrite IH; tauto.
Qed.

(** An update of one row changes the work left by what it does to that
    row. *)
Lemma workLeft_update f rows j :
  List.NoDup (map id rows) -> In j rows ->
  (workLeft (updateWhereId (id j) f rows) + executionsLeft j
   = workLeft rows + executionsLeft (f j))%nat.
Proof.
  unfold workLeft.
  induction rows as [|a rows IH]; simpl; intros Hnd Hin; [contradiction|].
  inversion Hnd as [|? ? Hnotin Hnd']; subst.
  destruct Hin as [->|Hin].
  - rewrite String.eqb_refl.
    fold (updateWhereId (id j) f rows).
    rewrite (updateWhereId_absent _ _ _ Hnotin). lia.
  - destruct (String.eqb_spec (id a) (id j)) as [Heq|_].
    + exfalso. apply Hnotin. rewrite Heq. now apply in_map.
    + fold (updateWhereId (id j) f rows).
      specialize (IH Hnd' Hin). lia.
Qed.

Lemma executionsLeft_bound r :
  (executionsLeft r <= S (length backoffSchedule))%nat.
Proof. unfold executionsLeft. destruct (status_eqb _ _); lia. Qed.

Lemma workLeft_bound rows :
  (workLeft rows <= S (length backoffSchedule) * countStatus queued rows)%nat.
Proof.
  unfold workLeft, countStatus.
  induction rows as [|r rows IH]; simpl list_sum; [lia|].
  cbn [map list_sum List.filter].
  unfold executionsLeft at 1.
  destruct (status_eqb (status r) queued); cbn [length]; lia.
Qed.

(** A call of [processNextJob] that finds a job uses up one execution. *)
Lemma processNextJob_work now outcome later q nextJob :
  wfTable (rows q) -> getNextJobToProcess now (rows q) = Some nextJob ->
  (workLeft (rows (processNextJob now outcome later q)) < workLeft (rows q))%nat.
Proof.
  intros Hwf Hnext. rewrite (processNextJob_rows _ _ _ _ _ Hnext).
  apply getNextJobToProcess_Some in Hnext as (Hin & Hq & _).
  pose proof (updateJobStatus_wf (id nextJob) running None now _ Hwf) as Hwf1.
  pose proof (getJobById_update (id nextJob) _ (rows q) nextJob Hwf
                (updateJobStatus_keeps running None now) Hin eq_refl) as Hrow.
  apply (head_filter_key_Some id) in Hrow as [Hin1 Hid1].
  fold (updateJobStatus (id nextJob) running None now (rows q)) in Hin1.
  pose proof (workLeft_update
    (fun r =>
       {| id := id r; type := type r; payload_json := payload_json r;
          idempotency_key := idempotency_key r; status := running;
          attempts := attempts r; next_run_at := next_run_at r;
          correlation_id := correlation_id r; created_at := created_at r;
          updated_at := now; error_message := orNull None;
          last_attempt_at := Some now |})
    (rows q) nextJob (proj1 Hwf) Hin) as Hw1.
  fold (updateJobStatus (id nextJob) running None now (rows q)) in Hw1.
  set (rows1 := updateJobStatus (id nextJob) running None now (rows q)) in *.
  set (j1 := {| id := id nextJob; type := type nextJob;
                payload_json := payload_json nextJob;
                idempotency_key := idempotency_key nextJob; status := running;
                attempts := attempts nextJob;
                next_run_at := next_run_at nextJob;
                correlation_id := correlation_id nextJob;
                created_at := created_at nextJob;
                updated_at := now; error_message := orNull None;
                last_attempt_at := Some now |}) in *.
  assert (Hleft : executionsLeft nextJob
                  = S (length backoffSchedule - attempts nextJob)).
  { unfold executionsLeft. now rewrite Hq. }
  change (executionsLeft j1) with 0%nat in Hw1.
  unfold settle.
  destruct (p_success (processJob nextJob outcome)).
  - set (F := fun r : OutboxJob =>
         {| id := id r; type := type r; payload_json := payload_json r;
            idempotency_key := idempotency_key r; status := succeeded;
            attempts := attempts r; next_run_at := next_run_at r;
            correlation_id := correlation_id r; created_at := created_at r;
            updated_at := later; error_message := orNull None;
            last_attempt_at := Some later |}).
    pose proof (workLeft_update F rows1 j1 (proj1 Hwf1) Hin1) as Hw2.
    assert (E1 : executionsLeft j1 = 0%nat) by reflexivity.
    assert (E2 : executionsLeft (F j1) = 0%nat) by reflexivity.
    change (updateJobStatus (id nextJob) succeeded None later rows1)
      with (updateWhereId (id j1) F rows1).
    lia.
  - destruct (p_retryable (processJob nextJob outcome)) eqn:Hretry;
      [destruct (Nat.ltb_spec (attempts nextJob) (length backoffSchedule))
         as [Hlt|Hge]|]; cbn [andb].
    + set (F := fun r : OutboxJob =>
           {| id := id r; type := type r; payload_json := payload_json r;
              idempotency_key := idempotency_key r; status := queued;
              attempts := (attempts nextJob + 1)%nat;
              next_run_at :=
                later + nth (attempts nextJob + 1 - 1) backoffSchedule 0 * 1000;
              correlation_id := correlation_id r; created_at := created_at r;
              updated_at := later;
              error_message := orNull (p_error (processJob nextJob outcome));
              last_attempt_at := Some later |}).
      pose proof (workLeft_update F rows1 j1 (proj1 Hwf1) Hin1) as Hw2.
      assert (E1 : executionsLeft j1 = 0%nat) by reflexivity.
      assert (E2 : executionsLeft (F j1)
                   = S (length backoffSchedule - (attempts nextJob + 1)))
        by reflexivity.
      cbv zeta.
      change (updateJobForRetry (id nextJob) (attempts nextJob + 1)
                (later + nth (attempts nextJob + 1 - 1) backoffSchedule 0 * 1000)
                (p_error (processJob nextJob outcome)) later rows1)
        with (updateWhereId (id j1) F rows1).
      lia.
    + set (F := fun r : OutboxJob =>
           {| id := id r; type := type r; payload_json := payload_json r;
              idempotency_key := idempotency_key r; status := dead;
              attempts := attempts r; next_run_at := next_run_at r;
              correlation_id := correlation_id r; created_at := created_at r;
              updated_at := later;
              error_message := orNull (p_error (processJob nextJob outcome));
              last_attempt_at := Some later |}).
      pose proof (workLeft_update F rows1 j1 (proj1 Hwf1) Hin1) as Hw2.
      assert (E1 : executionsLeft j1 = 0%nat) by reflexivity.
      assert (E2 : executionsLeft (F j1) = 0%nat) by reflexivity.
      change (updateJobStatus (id nextJob) dead
                (p_error (processJob nextJob outcome)) later rows1)
        with (updateWhereId (id j1) F rows1).
      lia.
    + set (F := fun r : OutboxJob =>
           {| id := id r; type := type r; payload_json := payload_json r;
              idempotency_key := idempotency_key r; status := dead;
              attempts := attempts r; next_run_at := next_run_at r;
              correlation_id := correlation_id r; created_at := created_at r;
              updated_at := later;
              error_message := orNull (p_error (processJob nextJob outcome));
              last_attempt_at := Some later |}).
      pose proof (workLeft_update F rows1 j1 (proj1 Hwf1) Hin1) as Hw2.
      assert (E1 : executionsLeft j1 = 0%nat) by reflexivity.
      assert (E2 : executionsLeft (F j1) = 0%nat) by reflexivity.
      change (updateJobStatus (id nextJob) dead
                (p_error (processJob nextJob outcome)) later rows1)
        with (updateWhereId (id j1) F rows1).
      lia.
Qed.


Lemma processNextJob_ids now outcome later q :
  map id (rows (processNextJob now outcome later q)) = map id (rows q).
Proof.
  unfold processNextJob.
  destruct (getNextJobToProcess now (rows q)) as [nextJob|] eqn:Hnext;
    [|reflexivity].
  pose proof (processNextJob_rows now outcome later q nextJob Hnext) as Hrows.
  unfold processNextJob in Hrows. rewrite Hnext in Hrows. rewrite Hrows.
  destruct (settle_update nextJob (processJob nextJob outcome) later
              (updateJobStatus (id nextJob) running None now (rows q)))
    as (f & Hf & -> & _).
  rewrite (updateWhereId_ids _ _ _ Hf).
  unfold updateJobStatus. apply updateWhereId_ids, updateJobStatus_keeps.
Qed.

Lemma processNextJob_wf now outcome later q :
  wfTable (rows q) -> wfTable (rows (processNextJob now outcome later q)).
Proof.
  intros Hwf. unfold processNextJob.
  destruct (getNextJobToProcess now (rows q)) as [nextJob|] eqn:Hnext;
    [|exact Hwf].
  pose proof (processNextJob_rows now outcome later q nextJob Hnext) as Hrows.
  unfold processNextJob in Hrows. rewrite Hnext in Hrows. rewrite Hrows.
  now apply settle_wf, updateJobStatus_wf.
Qed.

Lemma processNextJob_active now outcome later q :
  (size (activeJobs (processNextJob now outcome later q))
   <= size (activeJobs q))%nat.
Proof.
  unfold processNextJob.
  destruct (getNextJobToProcess now (rows q)) as [nextJob|] eqn:Hnext;
    [|lia].
  unfold beginPass. rewrite Hnext. simpl.
  apply subseteq_size. intros y Hy.
  apply elem_of_difference in Hy as [Hy Hne].
  apply elem_of_union in Hy as [Hy|Hy]; [contradiction|exact Hy].
Qed.

(** With fuel beyond the work left the loop ends, after no more turns than
    there was work. *)
Lemma processQueue_ends turns :
  (forall k, t_select (turns k) <= t_start (turns k)) ->
  forall fuel q k,
    wfTable (rows q) -> (workLeft (rows q) < fuel)%nat ->
    exists q' k',
      processQueue fuel turns k q = Some (q', k')
      /\ (k <= k')%nat /\ (k' - k <= workLeft (rows q))%nat
      /\ map id (rows q') = map id (rows q)
      /\ ((size (activeJobs q) < maxConcurrency)%nat ->
          getNextJobToProcess (t_select (turns k')) (rows q') = None)
      /\ ((maxConcurrency <= size (activeJobs q))%nat -> q' = q /\ k' = k).
Proof.
  intros Hclock. induction fuel as [|fuel IH]; intros q k Hwf Hfuel; [lia|].
  simpl.
  destruct (Nat.ltb_spec (size (activeJobs q)) maxConcurrency) as [Hfree|Hfull].
  - destruct (getNextJobToProcess (t_select (turns k)) (rows q))
      as [j|] eqn:Hnext.
    + destruct (getNextJobToProcess_later _ (t_start (turns k)) _ _
                  (Hclock k) Hnext) as (nextJob & Hnext').
      pose proof (processNextJob_work _ (t_outcome (turns k))
                    (t_settle (turns k)) q nextJob Hwf Hnext') as Hwork.
      set (q1 := processNextJob (t_start (turns k)) (t_outcome (turns k))
                   (t_settle (turns k)) q) in *.
      destruct (IH q1 (S k)) as (q' & k' & Hrun & Hk & Hturns & Hids & Hdone & _).
      { now apply processNextJob_wf. }
      { lia. }
      exists q', k'. split; [exact Hrun|].
      split; [lia|]. split; [lia|].
      split; [rewrite Hids; apply processNextJob_ids|].
      split; [|lia].
      intros _. apply Hdone.
      pose proof (processNextJob_active (t_start (turns k))
                    (t_outcome (turns k)) (t_settle (turns k)) q).
      fold q1 in H. lia.
    + exists q, k. repeat split; auto; lia.
  - exists q, k. repeat split; auto; lia.
Qed.


(** *** What an update keeps *)

Lemma updateWhereId_maps jobId f rows r :
  In r rows ->
  In (if String.eqb (id r) jobId then f r else r) (updateWhereId jobId f rows).
Proof.
  intros Hr. unfold updateWhereId.
  exact (in_map (fun r => if String.eqb (id r) jobId then f r else r) rows r Hr).
Qed.

(** Every event but the answer to the DELETE of [clearDeadJobs] keeps each
    stored job, with the columns that the enqueue wrote and no update
    touches. *)
Lemma table_durable e s r :
  In r (rows (queue s)) ->
  (exists r',
     In r' (rows (queue (apply e s)))
     /\ id r' = id r /\ type r' = type r
     /\ payload_json r' = payload_json r
     /\ idempotency_key r' = idempotency_key r
     /\ correlation_id r' = correlation_id r
     /\ created_at r' = created_at r)
  \/ (status r = dead
      /\ exists k now newId outcome,
           e = EvAnswer k now newId outcome
           /\ calls s !! k = Some AwaitDelete).
Proof.
  intros Hr.
  assert (Hsame : exists r',
            In r' (rows (queue s))
            /\ id r' = id r /\ type r' = type r
            /\ payload_json r' = payload_json r
            /\ idempotency_key r' = idempotency_key r
            /\ correlation_id r' = correlation_id r
            /\ created_at r' = created_at r)
    by (exists r; repeat split; auto).
  assert (Hupd : forall jobId f,
            (forall r0, id (f r0) = id r0 /\ type (f r0) = type r0
                        /\ payload_json (f r0) = payload_json r0
                        /\ idempotency_key (f r0) = idempotency_key r0
                        /\ correlation_id (f r0) = correlation_id r0
                        /\ created_at (f r0) = created_at r0) ->
            exists r',
              In r' (updateWhereId jobId f (rows (queue s)))
              /\ id r' = id r /\ type r' = type r
              /\ payload_json r' = payload_json r
              /\ idempotency_key r' = idempotency_key r
              /\ correlation_id r' = correlation_id r
              /\ created_at r' = created_at r).
  { intros jobId f Hf.
    exists (if String.eqb (id r) jobId then f r else r).
    split; [now apply updateWhereId_maps|].
    destruct (String.eqb (id r) jobId); [apply Hf|repeat split]. }
  destruct e as [jobData|jobId| |now|now|k now newId outcome|]; simpl;
    try (left; exact Hsame).
  - left. destruct (_ && _); exact Hsame.
  - left. unfold loopHead. destruct (_ <? _)%nat; exact Hsame.
  - unfold answer.
    destruct (calls s !! k) as [c|] eqn:Hk; [|left; exact Hsame].
    destruct c as [jobData|job|jobId|jobId t| |t|t loop|nextJob t loop
                  |nextJob loop|nextJob result t loop].
    + left. destruct (getJobByIdempotencyKey _ _); exact Hsame.
    + left. destruct (insertRow job (rows (queue s))) as [rows'|] eqn:Hins;
        [|exact Hsame].
      unfold insertRow in Hins.
      destruct (constraintFailed _ _); [discriminate|]. injection Hins as <-.
      simpl. exists r. split; [apply in_app_iff; now left|repeat split].
    + left. destruct (getJobById jobId (rows (queue s))) as [job|];
        [destruct (status_eqb (status job) dead)|]; exact Hsame.
    + left. simpl. apply Hupd. intros r0. simpl. repeat split.
    + destruct (status_eqb (status r) dead) eqn:Hst.
      * right. split; [now apply status_eqb_true|].
        exists k, now, newId, outcome. split; [reflexivity|exact Hk].
      * left. simpl. exists r. split; [|repeat split].
        apply filter_In. split; [exact Hr|]. now rewrite Hst.
    + left. destruct (getNextJobToProcess t (rows (queue s))); exact Hsame.
    + left. destruct (getNextJobToProcess t (rows (queue s))); exact Hsame.
    + left. simpl. apply Hupd. intros r0. simpl. repeat split.
    + left. exact Hsame.
    + left. simpl. unfold settle.
      destruct (p_success result);
        [|destruct (p_retryable result
                    && (attempts nextJob <? length backoffSchedule)%nat)];
        apply Hupd; intros r0; simpl; repeat split.
Qed.


(** *** The bound of a listing *)

Lemma limitRows_nil limit :
  match limitRows limit [] with
  | Some listed => listed
  | None => []
  end = [].
Proof.
  destruct limit as [n|]; [|reflexivity]. unfold limitRows.
  destruct (_ && _); [|reflexivity].
  destruct (n <? 0); [reflexivity|]. now rewrite firstn_nil.
Qed.

Lemma limitRows_whole n l :
  - 2 ^ 63 < n < 2 ^ 63 ->
  limitRows (Whole n) l = Some (if n <? 0 then l else firstn (Z.to_nat n) l).
Proof.
  intros [Hlo Hhi]. unfold limitRows.
  apply Z.ltb_lt in Hlo, Hhi. now rewrite Hlo, Hhi.
Qed.

(** *** An enqueue with other calls in between *)

Lemma addJobInterleaved_same jobData newId now rows :
  addJobInterleaved jobData newId now rows rows
  = addJob jobData newId now rows.
Proof. reflexivity. Qed.

Lemma addJobInterleaved_lookup jobData newId now seen rows :
  wfTable seen -> wfTable rows ->
  let r := addJobInterleaved jobData newId now seen rows in
  (success (fst r) = true
   /\ wfTable (snd r)
   /\ exists j,
        getJobHistory (jobId (fst r)) (snd r) = Some j
        /\ getJobByIdempotencyKey (jd_idempotency_key jobData) (snd r) = Some j
        /\ id j = jobId (fst r)
        /\ idempotency_key j = jd_idempotency_key jobData)
  \/ (success (fst r) = false
      /\ getJobByIdempotencyKey (jd_idempotency_key jobData) seen = None
      /\ (In newId (map id rows)
          \/ In (jd_idempotency_key jobData) (map idempotency_key rows))
      /\ r = ({| success := false; jobId := ""; error := Some constraintMessage;
                 retryable := Some false; correlationId := None |}, rows)).
Proof.
  intros Hseen Hwf. cbv zeta. unfold addJobInterleaved.
  destruct (getJobByIdempotencyKey (jd_idempotency_key jobData) seen)
    as [ex|] eqn:Hkey.
  - left. split; [reflexivity|]. split; [exact Hseen|]. exists ex. simpl.
    pose proof Hkey as Hex.
    apply (head_filter_key_Some idempotency_key) in Hex as [Hin Hk].
    repeat split; auto. now apply getJobById_In.
  - unfold insertRow.
    destruct (constraintFailed (makeJob jobData newId now) rows) eqn:Hc.
    + right. split; [reflexivity|]. split; [reflexivity|].
      split; [|reflexivity].
      exact (constraintFailed_true _ _ Hc).
    + left. split; [reflexivity|].
      apply constraintFailed_false in Hc as [Hid Hk].
      split; [destruct Hwf; split; now apply NoDup_snoc_key|].
      exists (makeJob jobData newId now). simpl.
      repeat split.
      * apply head_filter_snoc; [|simpl; apply String.eqb_refl].
        now apply (head_filter_absent id).
      * apply head_filter_snoc; [|simpl; apply String.eqb_refl].
        now apply (head_filter_absent idempotency_key).
Qed.

End ElectronFacts.

(** ** The renderer queue *)

Module LibFacts.
Import LibQueue.

(** *** The map *)

Lemma mapGet_In jobs j : wfMap jobs -> In j jobs -> mapGet (id j) jobs = Some j.
Proof. intros Hwf Hin. now apply (find_key id). Qed.

Lemma mapGet_Some jobId jobs j :
  mapGet jobId jobs = Some j -> In j jobs /\ id j = jobId.
Proof. apply (find_key_Some id). Qed.

Lemma mapGet_None jobId jobs :
  mapGet jobId jobs = None -> forall j, In j jobs -> id j <> jobId.
Proof. apply (find_key_None id). Qed.

Lemma mapSet_fresh job jobs :
  ~ In (id job) (map id jobs) -> mapSet job jobs = jobs ++ [job].
Proof.
  intros Hfresh. unfold mapSet.
  destruct (existsb (hasId (id job)) jobs) eqn:Hex; [exfalso|reflexivity].
  apply existsb_exists in Hex as (j & Hin & Heq).
  apply String.eqb_eq in Heq. apply Hfresh. rewrite <- Heq. now apply in_map.
Qed.

Lemma mutate_ids jobId f jobs :
  keepsId f -> map id (mutate jobId f jobs) = map id jobs.
Proof. intros Hf. now apply (map_key_update id). Qed.

Lemma mutate_wf jobId f jobs :
  keepsId f -> wfMap jobs -> wfMap (mutate jobId f jobs).
Proof. intros Hf Hwf. unfold wfMap. now rewrite mutate_ids. Qed.

Lemma mutate_In jobId f jobs j :
  In j (mutate jobId f jobs) <->
  exists j0, In j0 jobs /\ j = if hasId jobId j0 then f j0 else j0.
Proof.
  unfold mutate. rewrite in_map_iff.
  split; intros (j0 & H1 & H2); exists j0; auto.
Qed.

Lemma mutate_other jobId f jobs j :
  In j jobs -> id j <> jobId -> In j (mutate jobId f jobs).
Proof.
  intros Hin Hne. apply mutate_In. exists j. split; [assumption|].
  unfold hasId. destruct (String.eqb_spec (id j) jobId); [contradiction|reflexivity].
Qed.

Lemma hasId_spec jobId j : hasId jobId j = true <-> id j = jobId.
Proof. apply String.eqb_eq. Qed.

Lemma mapDelete_filter jobId jobs :
  mapDelete jobId jobs = List.filter (fun j => negb (hasId jobId j)) jobs.
Proof. reflexivity. Qed.

Lemma filter_filter {A} (f g : A -> bool) l :
  List.filter f (List.filter g l) = List.filter (fun x => g x && f x) l.
Proof.
  induction l as [|a l IH]; simpl; [reflexivity|].
  destruct (g a); simpl; [destruct (f a)|]; now rewrite IH.
Qed.

Lemma clear_fold l n acc :
  fold_left clearStep l (n, acc)
  = ((n + countStatus dead l)%nat,
     List.filter (fun j => negb (struck l j)) acc).
Proof.
  revert n acc. induction l as [|a l IH]; intros n acc; simpl.
  - unfold countStatus. simpl. f_equal; [lia|].
    induction acc as [|x acc IHacc]; simpl; [reflexivity|]. now f_equal.
  - unfold clearStep at 2. unfold countStatus. simpl.
    destruct (status_eqb (status a) dead) eqn:Hdead; simpl.
    + rewrite IH. unfold mapDelete. rewrite filter_filter.
      f_equal; [unfold countStatus; lia|].
      apply filter_ext. intros j. now rewrite negb_orb.
    + rewrite IH. reflexivity.
Qed.

Lemma clearDeadJobs_spec q :
  wfMap (jobs q) ->
  clearDeadJobs q
  = (countStatus dead (jobs q),
     withJobs q (List.filter (fun j => negb (status_eqb (status j) dead))
                             (jobs q))).
Proof.
  intros Hwf. unfold clearDeadJobs. rewrite clear_fold. simpl.
  f_equal. f_equal. apply filter_ext_in. intros j Hj. f_equal.
  unfold struck. destruct (status_eqb (status j) dead) eqn:Hdead.
  - apply existsb_exists. exists j. split; [assumption|].
    rewrite Hdead. simpl. now apply hasId_spec.
  - destruct (existsb _ (jobs q)) eqn:Hex; [|reflexivity].
    apply existsb_exists in Hex as (d & Hd & Hand).
    apply andb_true_iff in Hand as [Hdd Hid]. apply hasId_spec in Hid.
    assert (j = d) as -> by (apply (key_inj id (jobs q)); auto).
    congruence.
Qed.

(** *** Enqueue *)

(** The first stored job with the key has succeeded: [addJob] answers with
    its id and changes nothing. *)
Lemma addJob_replay ty pl key corr jobId now q J :
  findJobByIdempotencyKey key (jobs q) = Some J -> status J = succeeded ->
  addJob ty pl key corr jobId now q = (id J, q).
Proof.
  intros Hfind Hst. unfold addJob. rewrite Hfind, Hst. reflexivity.
Qed.

(** Otherwise a new job is stored under the generated id. *)
Lemma addJob_create ty pl key corr jobId now q :
  (forall J, findJobByIdempotencyKey key (jobs q) = Some J ->
             status J <> succeeded) ->
  addJob ty pl key corr jobId now q
  = (jobId,
     withJobs q (mapSet (newJob (config q) ty pl key corr jobId now) (jobs q))).
Proof.
  intros Hnot. unfold addJob.
  destruct (findJobByIdempotencyKey key (jobs q)) as [J|]; [|reflexivity].
  destruct (status_eqb (status J) succeeded) eqn:Hst; [|reflexivity].
  apply status_eqb_true in Hst. now destruct (Hnot J).
Qed.

Lemma addJob_jobs ty pl key corr jobId now q :
  snd (addJob ty pl key corr jobId now q) = q
  \/ snd (addJob ty pl key corr jobId now q)
     = withJobs q (mapSet (newJob (config q) ty pl key corr jobId now) (jobs q)).
Proof.
  unfold addJob.
  destruct (findJobByIdempotencyKey key (jobs q)) as [J|]; [|now right].
  destruct (status_eqb (status J) succeeded); [now left|now right].
Qed.

(** *** Retry *)

Lemma retryJob_cases jobId now jitter q :
  (retryJob jobId now jitter q = (false, q)
   /\ forall job, mapGet jobId (jobs q) = Some job -> status job <> failed)
  \/ (exists job, mapGet jobId (jobs q) = Some job /\ status job = failed
        /\ (maxAttempts job <= attempts job)%nat
        /\ retryJob jobId now jitter q
           = (false, withJobs q (mutate jobId (retryExhausted now) (jobs q))))
  \/ (exists job, mapGet jobId (jobs q) = Some job /\ status job = failed
        /\ (attempts job < maxAttempts job)%nat
        /\ retryJob jobId now jitter q
           = (true, withJobs q (mutate jobId
                                  (retryRequeued (config q) now jitter)
                                  (jobs q)))).
Proof.
  unfold retryJob. destruct (mapGet jobId (jobs q)) as [job|] eqn:Hget.
  - destruct (status_eqb (status job) failed) eqn:Hst; simpl.
    + apply status_eqb_true in Hst. right.
      destruct (Nat.leb_spec (maxAttempts job) (attempts job)).
      * left. exists job. auto.
      * right. exists job. auto.
    + apply status_eqb_false in Hst. left. split; [reflexivity|].
      now intros job' [= <-].
  - left. split; [reflexivity|discriminate].
Qed.

(** *** Execution *)

Lemma settleJob_id cfg o now jitter : keepsId (settleJob cfg o now jitter).
Proof. intros j. now destruct o. Qed.

Lemma settleJob_not_running cfg o now jitter j :
  status (settleJob cfg o now jitter j) <> running.
Proof.
  destruct o; simpl; [discriminate|].
  destruct (_ <=? _)%nat; discriminate.
Qed.

(** *** The invariant *)

Lemma map_inv_create cfg : Invariant cfg (create cfg).
Proof.
  constructor; try (simpl; intros; discriminate).
  - reflexivity.
  - constructor.
  - intros j [].
  - change (runningSet (create cfg)) with (∅ : gset string).
    rewrite size_empty. lia.
  - reflexivity.
Qed.

Lemma NoDup_firstn {A} n (l : list A) : List.NoDup l -> List.NoDup (firstn n l).
Proof.
  intros H. rewrite <- (firstn_skipn n l) in H.
  now apply NoDup_app_remove_r in H.
Qed.

Lemma In_firstn_In {A} n (l : list A) x : In x (firstn n l) -> In x l.
Proof.
  intros H. rewrite <- (firstn_skipn n l). apply in_app_iff. now left.
Qed.

(** With a pass in flight [isProcessing] is set. *)
Lemma map_inv_busy cfg q p :
  Invariant cfg q -> pass q = Some p -> isProcessing q = true.
Proof.
  intros Hinv Hp. destruct (isProcessing q) eqn:Hb; [reflexivity|].
  rewrite (inv_flag _ _ Hinv Hb) in Hp. discriminate.
Qed.

Lemma map_inv_addJob cfg ty pl key corr jobId now q :
  Invariant cfg q -> ~ In jobId (map id (jobs q)) ->
  Invariant cfg (snd (addJob ty pl key corr jobId now q)).
Proof.
  intros Hinv Hfresh.
  destruct (addJob_jobs ty pl key corr jobId now q) as [->| ->];
    [assumption|].
  rewrite mapSet_fresh by exact Hfresh.
  destruct Hinv as [Hcfg Hwf Hrun Hcap Hflag Htodo Hnd Hawait].
  constructor; simpl; auto.
  - now apply NoDup_snoc_key.
  - intros j Hj Hst. apply in_app_iff in Hj as [Hj|[<-|[]]]; [auto|].
    discriminate.
  - intros p i j Hp Hi Hj Hid.
    apply in_app_iff in Hj as [Hj|[<-|[]]]; [eauto|reflexivity].
  - intros p a Hp Ha. destruct (Hawait p a Hp Ha) as (j & Hj & Hid & Hst).
    exists j. split; [apply in_app_iff; now left|auto].
Qed.

(** A change of one failed job into a job that does not run. *)
Lemma map_inv_mutate_failed cfg q jobId f job :
  Invariant cfg q -> keepsId f -> (forall j, status (f j) <> running) ->
  mapGet jobId (jobs q) = Some job -> status job = failed ->
  Invariant cfg (withJobs q (mutate jobId f (jobs q))).
Proof.
  intros Hinv Hf Hnr Hget Hfailed.
  apply mapGet_Some in Hget as [Hjob Hjid].
  pose proof (inv_wf _ _ Hinv) as Hwf.
  assert (Hsame : forall j0, In j0 (jobs q) -> id j0 = jobId -> j0 = job)
    by (intros j0 Hj0 Hid0; apply (key_inj id (jobs q)); auto; congruence).
  constructor; simpl; try apply Hinv.
  - now apply mutate_wf.
  - intros j Hj Hst. apply mutate_In in Hj as (j0 & Hj0 & ->).
    destruct (hasId jobId j0); [now apply Hnr in Hst|].
    now apply (inv_running _ _ Hinv).
  - intros p i j Hp Hi Hj Hid. apply mutate_In in Hj as (j0 & Hj0 & ->).
    destruct (hasId jobId j0) eqn:Hh.
    + apply hasId_spec in Hh. rewrite Hf in Hid.
      pose proof (inv_todo _ _ Hinv p i j0 Hp Hi Hj0 Hid) as Hq.
      rewrite (Hsame j0 Hj0 Hh) in Hq. congruence.
    + eapply (inv_todo _ _ Hinv); eauto.
  - intros p a Hp Ha.
    destruct (inv_awaiting _ _ Hinv p a Hp Ha) as (j & Hj & Hid & Hst).
    exists j. split; [|auto]. apply mutate_other; [assumption|].
    intros Heq. rewrite (Hsame j Hj Heq) in Hst. congruence.
Qed.

Lemma map_inv_retryJob cfg jobId now jitter q :
  Invariant cfg q -> Invariant cfg (snd (retryJob jobId now jitter q)).
Proof.
  intros Hinv.
  destruct (retryJob_cases jobId now jitter q)
    as [[-> _]|[(job & Hget & Hst & _ & ->)|(job & Hget & Hst & _ & ->)]];
    simpl; [assumption|..];
    eapply map_inv_mutate_failed; eauto; intros j; simpl; auto; discriminate.
Qed.

Lemma map_inv_clearDeadJobs cfg q :
  Invariant cfg q -> Invariant cfg (snd (clearDeadJobs q)).
Proof.
  intros Hinv. rewrite clearDeadJobs_spec by apply Hinv. simpl.
  destruct Hinv as [Hcfg Hwf Hrun Hcap Hflag Htodo Hnd Hawait].
  constructor; simpl; auto.
  - now apply NoDup_filter_key.
  - intros j Hj. apply filter_In in Hj as [Hj _]. auto.
  - intros p i j Hp Hi Hj. apply filter_In in Hj as [Hj _]. eauto.
  - intros p a Hp Ha. destruct (Hawait p a Hp Ha) as (j & Hj & Hid & Hst).
    exists j. split; [|auto]. apply filter_In. split; [assumption|].
    now rewrite Hst.
Qed.

Lemma map_inv_beginQueuePass cfg now q :
  Invariant cfg q -> Invariant cfg (beginQueuePass now q).
Proof.
  intros Hinv. unfold beginQueuePass.
  destruct (isProcessing q || atCapacity q); [assumption|].
  pose proof (inv_wf _ _ Hinv) as Hwf.
  constructor; simpl; try apply Hinv; try discriminate.
  - intros p i j [= <-] Hi Hj Hid. simpl in Hi.
    apply in_map_iff in Hi as (j0 & Hid0 & Hj0).
    apply In_firstn_In, filter_In in Hj0 as [Hj0 Hst].
    apply status_eqb_true in Hst.
    assert (j = j0) as -> by (apply (key_inj id (jobs q)); auto; congruence).
    assumption.
  - intros p [= <-]. simpl. rewrite <- firstn_map.
    apply NoDup_firstn. now apply NoDup_filter_key.
  - intros p a [= <-]. discriminate.
Qed.

Lemma map_inv_endPass cfg q : Invariant cfg q -> Invariant cfg (endPass q).
Proof.
  intros Hinv. constructor; simpl; try apply Hinv; try discriminate.
  reflexivity.
Qed.

(** The loop moves on to the rest of [queuedJobs] without starting a job. *)
Lemma map_inv_skip cfg q p jobId rest :
  Invariant cfg q -> pass q = Some p -> p_todo p = jobId :: rest ->
  Invariant cfg (withPass q (Some {| p_now := p_now p; p_todo := rest;
                                     p_awaiting := None |})).
Proof.
  intros Hinv Hp Htodo.
  constructor; simpl; try apply Hinv.
  - intros Hb. rewrite (map_inv_busy _ _ _ Hinv Hp) in Hb. discriminate.
  - intros p' i j [= <-] Hi Hj Hid. simpl in Hi.
    apply (inv_todo _ _ Hinv p i j Hp); auto. rewrite Htodo. now right.
  - intros p' [= <-]. simpl.
    pose proof (inv_todo_nodup _ _ Hinv p Hp) as Hnd. rewrite Htodo in Hnd.
    now inversion Hnd.
  - intros p' a [= <-]. discriminate.
Qed.

Lemma size_add_le (x : string) (X : gset string) :
  (size ({[x]} ∪ X) <= S (size X))%nat.
Proof.
  rewrite size_union_alt, size_singleton.
  assert (size (X ∖ {[x]}) <= size X)%nat; [|lia].
  apply subseteq_size. intros y Hy. now apply elem_of_difference in Hy as [Hy _].
Qed.

Lemma map_inv_loopTurn cfg tnow q :
  Invariant cfg q -> Invariant cfg (fst (loopTurn tnow q)).
Proof.
  intros Hinv. unfold loopTurn.
  destruct (pass q) as [p|] eqn:Hp; [|assumption].
  destruct (p_awaiting p) as [a|] eqn:Ha; [assumption|].
  destruct (p_todo p) as [|jobId rest] eqn:Htodo; [now apply map_inv_endPass|].
  destruct (atCapacity q) eqn:Hcap; [now apply map_inv_endPass|].
  destruct (mapGet jobId (jobs q)) as [job|] eqn:Hget;
    [|now apply (map_inv_skip cfg q p jobId)].
  destruct (p_now p <? nextRunAt job); [now apply (map_inv_skip cfg q p jobId)|].
  destruct (bool_decide (jobId ∈ runningSet q));
    [now apply (map_inv_skip cfg q p jobId)|].
  simpl. apply mapGet_Some in Hget as [Hjob Hjid].
  pose proof (inv_todo_nodup _ _ Hinv p Hp) as Hnd. rewrite Htodo in Hnd.
  inversion Hnd as [|? ? Hnotin Hnd']; subst.
  constructor; simpl; try apply Hinv.
  - apply mutate_wf; [now intros j|apply Hinv].
  - intros j Hj Hst. apply mutate_In in Hj as (j0 & Hj0 & ->).
    destruct (hasId (id job) j0) eqn:Hh.
    + apply hasId_spec in Hh. simpl. rewrite Hh. set_solver.
    + apply elem_of_union_r. now apply (inv_running _ _ Hinv).
  - unfold atCapacity in Hcap. apply Nat.leb_gt in Hcap.
    rewrite (inv_config _ _ Hinv) in Hcap.
    pose proof (size_add_le (id job) (runningSet q)). lia.
  - intros Hb. rewrite (map_inv_busy _ _ _ Hinv Hp) in Hb. discriminate.
  - intros p' i j [= <-] Hi Hj Hid. simpl in Hi.
    apply mutate_In in Hj as (j0 & Hj0 & ->).
    destruct (hasId (id job) j0) eqn:Hh.
    + apply hasId_spec in Hh. simpl in Hid. congruence.
    + apply (inv_todo _ _ Hinv p i j0 Hp); auto. rewrite Htodo. now right.
  - intros p' [= <-]. assumption.
  - intros p' a [= <-] [= <-]. exists (markRunning tnow job).
    split; [|auto]. apply mutate_In. exists job. split; [assumption|].
    unfold hasId. now rewrite String.eqb_refl.
Qed.

Lemma map_inv_resume cfg o now jitter q :
  Invariant cfg q -> Invariant cfg (resume o now jitter q).
Proof.
  intros Hinv. unfold resume.
  destruct (pass q) as [p|] eqn:Hp; [|assumption].
  destruct (p_awaiting p) as [a|] eqn:Ha; [|assumption].
  destruct (inv_awaiting _ _ Hinv p a Hp Ha) as (ja & Hja & Hida & Hsta).
  assert (Hsame : forall j0, In j0 (jobs q) -> id j0 = a -> j0 = ja)
    by (intros j0 Hj0 Hid0; apply (key_inj id (jobs q));
        auto; [apply Hinv|congruence]).
  constructor; simpl; try apply Hinv.
  - apply mutate_wf; [apply settleJob_id|apply Hinv].
  - intros j Hj Hst. apply mutate_In in Hj as (j0 & Hj0 & ->).
    destruct (hasId a j0) eqn:Hh; [now apply settleJob_not_running in Hst|].
    apply elem_of_difference. split; [now apply (inv_running _ _ Hinv)|].
    intros Hin. apply elem_of_singleton in Hin.
    apply hasId_spec in Hin. congruence.
  - etransitivity; [|apply (inv_capacity _ _ Hinv)].
    apply subseteq_size. intros x Hx.
    now apply elem_of_difference in Hx as [Hx _].
  - intros Hb. rewrite (map_inv_busy _ _ _ Hinv Hp) in Hb. discriminate.
  - intros p' i j [= <-] Hi Hj Hid. simpl in Hi.
    apply mutate_In in Hj as (j0 & Hj0 & ->).
    destruct (hasId a j0) eqn:Hh.
    + apply hasId_spec in Hh. rewrite settleJob_id in Hid.
      pose proof (inv_todo _ _ Hinv p i j0 Hp Hi Hj0 Hid) as Hq.
      rewrite (Hsame j0 Hj0 Hh) in Hq. congruence.
    + apply (inv_todo _ _ Hinv p i j0 Hp); auto.
  - intros p' [= <-]. simpl. now apply (inv_todo_nodup _ _ Hinv).
  - intros p' a' [= <-]. discriminate.
Qed.

Lemma map_inv_apply cfg e q :
  Invariant cfg q -> admissible e q -> importFree e ->
  Invariant cfg (apply e q).
Proof.
  intros Hinv Hadm Hfree. destruct e; simpl.
  - now apply map_inv_addJob.
  - now apply map_inv_retryJob.
  - now apply map_inv_clearDeadJobs.
  - now apply map_inv_beginQueuePass.
  - now apply map_inv_loopTurn.
  - now apply map_inv_resume.
  - destruct Hfree.
Qed.

Lemma map_reachable_Invariant cfg q : reachableImportFree cfg q -> Invariant cfg q.
Proof.
  induction 1 as [|q e _ IH Hadm Hfree]; [apply map_inv_create|now apply map_inv_apply].
Qed.

(** No more jobs are [running] than ids are in the set [running]. *)
Lemma running_le_set cfg q :
  Invariant cfg q -> (countStatus running (jobs q) <= size (runningSet q))%nat.
Proof.
  intros Hinv. unfold countStatus.
  rewrite <- (length_map id).
  assert (Hnd : List.NoDup
            (map id (List.filter (fun j => status_eqb (status j) running)
                                 (jobs q))))
    by (apply NoDup_filter_key, Hinv).
  rewrite <- (size_list_to_set (C := gset string))
    by now apply NoDup_ListNoDup.
  apply subseteq_size. intros x Hx.
  apply elem_of_list_to_set, list_elem_of_In, in_map_iff in Hx
    as (j & <- & Hj).
  apply filter_In in Hj as [Hj Hst]. apply status_eqb_true in Hst.
  now apply (inv_running _ _ Hinv).
Qed.

Lemma map_reachable_run cfg events q :
  reachable cfg q -> admissibleRun events q -> reachable cfg (run events q).
Proof.
  revert q. induction events as [|e rest IH]; intros q Hq Hadm; [assumption|].
  destruct Hadm as [He Hrest]. apply IH; [|assumption].
  now apply reachable_apply.
Qed.

(** *** Lookup by key after the job objects changed *)

Lemma findJob_mutate key jobId f jobs :
  keepsKey f ->
  findJobByIdempotencyKey key (mutate jobId f jobs)
  = option_map (fun j => if hasId jobId j then f j else j)
      (findJobByIdempotencyKey key jobs).
Proof.
  intros Hf. unfold findJobByIdempotencyKey, mutate.
  induction jobs as [|a jobs IH]; simpl; [reflexivity|].
  assert (Hk : idempotencyKey (if hasId jobId a then f a else a)
               = idempotencyKey a) by (destruct (hasId jobId a); auto).
  rewrite Hk. destruct (String.eqb (idempotencyKey a) key); [reflexivity|].
  apply IH.
Qed.

Lemma findJob_snoc key jobs nj :
  findJobByIdempotencyKey key jobs = None -> idempotencyKey nj = key ->
  findJobByIdempotencyKey key (jobs ++ [nj]) = Some nj.
Proof.
  unfold findJobByIdempotencyKey. intros Hnone Hkey.
  induction jobs as [|a jobs IH]; simpl in *.
  - now rewrite Hkey, String.eqb_refl.
  - destruct (String.eqb (idempotencyKey a) key); [discriminate|auto].
Qed.

Lemma markRunning_key now : keepsKey (markRunning now).
Proof. now intros j. Qed.

Lemma settleJob_key cfg o now jitter : keepsKey (settleJob cfg o now jitter).
Proof. intros j. now destruct o. Qed.

(** A key is enqueued for the first time, the job runs and succeeds, and the
    key is enqueued again. *)
Lemma enqueue_run_enqueue q ty pl key corr jobId now tnow r later jitter
    ty' pl' corr' jobId' now' :
  findJobByIdempotencyKey key (jobs q) = None ->
  ~ In jobId (map id (jobs q)) ->
  let first := addJob ty pl key corr jobId now q in
  let done :=
    finishJob jobId (Returned r) later jitter (startJob jobId tnow (snd first))
  in
  fst first = jobId
  /\ addJob ty' pl' key corr' jobId' now' done = (jobId, done).
Proof.
  intros Hnone Hfresh first done.
  assert (Hfirst : first
            = (jobId, withJobs q (jobs q
                  ++ [newJob (config q) ty pl key corr jobId now]))).
  { unfold first. rewrite addJob_create by (rewrite Hnone; discriminate).
    now rewrite mapSet_fresh. }
  split; [now rewrite Hfirst|].
  set (nj := newJob (config q) ty pl key corr jobId now) in *.
  set (J := settleJob (config q) (Returned r) later jitter (markRunning tnow nj)).
  change jobId with (id J) at 1.
  apply addJob_replay; [|reflexivity].
  unfold done. rewrite Hfirst. simpl.
  rewrite findJob_mutate by apply settleJob_key.
  rewrite findJob_mutate by apply markRunning_key.
  rewrite (findJob_snoc key (jobs q) nj Hnone eq_refl). simpl.
  unfold hasId. simpl. rewrite String.eqb_refl.
  change (id (markRunning tnow nj)) with jobId.
  now rewrite String.eqb_refl.
Qed.

(** *** What a turn of the loop and a resumption do to the jobs *)

Lemma beginQueuePass_jobs now q : jobs (beginQueuePass now q) = jobs q.
Proof. unfold beginQueuePass. now destruct (_ || _). Qed.

Lemma loopTurn_cases tnow q :
  (jobs (fst (loopTurn tnow q)) = jobs q /\ snd (loopTurn tnow q) = None)
  \/ exists p jobId rest job,
       pass q = Some p /\ p_awaiting p = None /\ p_todo p = jobId :: rest
       /\ atCapacity q = false
       /\ mapGet jobId (jobs q) = Some job
       /\ nextRunAt job <= p_now p
       /\ (jobId ∉ runningSet q)
       /\ loopTurn tnow q
          = (startJob jobId tnow
               (withPass q (Some {| p_now := p_now p; p_todo := rest;
                                    p_awaiting := Some jobId |})),
             Some jobId).
Proof.
  unfold loopTurn.
  destruct (pass q) as [p|] eqn:Hp; [|now left].
  destruct (p_awaiting p) as [a|] eqn:Ha; [now left|].
  destruct (p_todo p) as [|jobId rest] eqn:Htodo; [now left|].
  destruct (atCapacity q) eqn:Hcap; [now left|].
  destruct (mapGet jobId (jobs q)) as [job|] eqn:Hget; [|now left].
  destruct (Z.ltb_spec (p_now p) (nextRunAt job)) as [Hlt|Hge]; [now left|].
  destruct (bool_decide (jobId ∈ runningSet q)) eqn:Hin; [now left|].
  apply bool_decide_eq_false in Hin.
  right. exists p, jobId, rest, job. repeat split; auto.
Qed.

Lemma resume_cases o now jitter q :
  resume o now jitter q = q
  \/ exists p a,
       pass q = Some p /\ p_awaiting p = Some a
       /\ resume o now jitter q
          = finishJob a o now jitter
              (withPass q (Some {| p_now := p_now p; p_todo := p_todo p;
                                   p_awaiting := None |})).
Proof.
  unfold resume.
  destruct (pass q) as [p|] eqn:Hp; [|now left].
  destruct (p_awaiting p) as [a|] eqn:Ha; [|now left].
  right. now exists p, a.
Qed.

(** *** A succeeded job is left alone *)

Lemma map_succeeded_kept cfg e q J :
  Invariant cfg q -> admissible e q -> importFree e ->
  In J (jobs q) -> status J = succeeded ->
  In J (jobs (apply e q)).
Proof.
  intros Hinv Hadm Hfree HJ Hst. pose proof (inv_wf _ _ Hinv) as Hwf.
  assert (Hother : forall j, In j (jobs q) -> status j <> succeeded ->
                     id J <> id j).
  { intros j Hj Hne Heq. apply Hne.
    now rewrite <- (key_inj id (jobs q) J j Hwf HJ Hj Heq). }
  destruct e as [ty pl key corr jobId now|jobId now jitter| |now|tnow
                |o now jitter|l]; cbn [apply].
  - destruct (addJob_jobs ty pl key corr jobId now q) as [->| ->];
      [assumption|].
    simpl. rewrite mapSet_fresh by exact Hadm. apply in_app_iff. now left.
  - destruct (retryJob_cases jobId now jitter q)
      as [[-> _]|[(job & Hget & Hf & _ & ->)|(job & Hget & Hf & _ & ->)]];
      simpl; [assumption|..];
      apply mapGet_Some in Hget as [Hjob Hid];
      (apply mutate_other; [assumption|]); rewrite <- Hid;
      (apply Hother; [assumption|congruence]).
  - rewrite clearDeadJobs_spec by assumption. simpl.
    apply filter_In. split; [assumption|]. now rewrite Hst.
  - now rewrite beginQueuePass_jobs.
  - destruct (loopTurn_cases tnow q)
      as [[-> _]|(p & jobId & rest & job & Hp & _ & Htodo & _ & Hget & _ & _
                  & ->)]; [assumption|].
    simpl. apply mapGet_Some in Hget as [Hjob Hid].
    apply mutate_other; [assumption|]. rewrite <- Hid.
    apply Hother; [assumption|].
    assert (Hq : status job = queued)
      by (apply (inv_todo _ _ Hinv p jobId job Hp); auto;
          rewrite Htodo; now left).
    rewrite Hq. discriminate.
  - destruct (resume_cases o now jitter q) as [->|(p & a & Hp & Ha & ->)];
      [assumption|].
    simpl. destruct (inv_awaiting _ _ Hinv p a Hp Ha) as (j & Hj & Hid & Hrun).
    apply mutate_other; [assumption|]. rewrite <- Hid.
    apply Hother; [assumption|congruence].
  - destruct Hfree.
Qed.

(** *** Statistics *)

Lemma map_countStatus_partition jobs :
  length jobs
  = (countStatus queued jobs + countStatus running jobs
     + countStatus succeeded jobs + countStatus failed jobs
     + countStatus dead jobs)%nat.
Proof.
  unfold countStatus. induction jobs as [|j jobs IH]; [reflexivity|].
  simpl. destruct (status j); simpl; lia.
Qed.

Lemma bump_fold l acc :
  total (fold_left bump l acc) = total acc
  /\ n_queued (fold_left bump l acc)
     = (n_queued acc + countStatus queued l)%nat
  /\ n_running (fold_left bump l acc)
     = (n_running acc + countStatus running l)%nat
  /\ n_succeeded (fold_left bump l acc)
     = (n_succeeded acc + countStatus succeeded l)%nat
  /\ n_failed (fold_left bump l acc)
     = (n_failed acc + countStatus failed l)%nat
  /\ n_dead (fold_left bump l acc) = (n_dead acc + countStatus dead l)%nat.
Proof.
  revert acc. unfold countStatus.
  induction l as [|j l IH]; intros acc; simpl.
  - repeat split; lia.
  - destruct (IH (bump acc j)) as (Ht & Hq & Hr & Hs & Hf & Hd).
    rewrite Ht, Hq, Hr, Hs, Hf, Hd. unfold bump.
    destruct (status j); simpl; repeat split; lia.
Qed.

(** *** A whole pass *)

Lemma runLoop_idle n env tnow jitter q :
  pass q = None -> runLoop n env tnow jitter q = (q, []).
Proof.
  intros Hp. induction n as [|n IH]; simpl; [reflexivity|].
  unfold loopTurn. now rewrite Hp.
Qed.

Lemma mapGet_mutate_other i i' f jobs :
  keepsId f -> i' <> i -> mapGet i' (mutate i f jobs) = mapGet i' jobs.
Proof.
  intros Hf Hne. unfold mapGet, mutate.
  induction jobs as [|a jobs IH]; simpl; [reflexivity|].
  destruct (hasId i a) eqn:Hia.
  - apply hasId_spec in Hia.
    assert (Hf' : hasId i' (f a) = false)
      by (unfold hasId; rewrite Hf; apply String.eqb_neq; congruence).
    assert (Ha : hasId i' a = false)
      by (unfold hasId; apply String.eqb_neq; congruence).
    now rewrite Hf', Ha.
  - now rewrite IH.
Qed.

Lemma dueIds_ext now jobs jobs' todo :
  (forall i, In i todo -> mapGet i jobs' = mapGet i jobs) ->
  dueIds now jobs' todo = dueIds now jobs todo.
Proof.
  intros H. unfold dueIds. apply filter_ext_in. intros i Hi. now rewrite H.
Qed.

Lemma snd_let {X Y} (p : X * list Y) (y : Y) :
  snd (let '(q, l) := p in (q, y :: l)) = y :: snd p.
Proof. now destruct p. Qed.

(** With nothing running and room for one job, the loop hands over the due
    jobs of [queuedJobs], one after the other, in their order. *)
Lemma runLoop_log env tnow jitter now todo :
  forall n q,
    pass q = Some {| p_now := now; p_todo := todo; p_awaiting := None |} ->
    runningSet q = ∅ ->
    (1 <= concurrency (config q))%nat ->
    List.NoDup todo ->
    (length todo < n)%nat ->
    snd (runLoop n env tnow jitter q) = dueIds now (jobs q) todo.
Proof.
  induction todo as [|i rest IH]; intros n q Hp Hrun Hconc Hnd Hn;
    (destruct n as [|n]; [simpl in Hn; lia|]).
  - simpl. unfold loopTurn. rewrite Hp. simpl.
    now rewrite runLoop_idle.
  - assert (Hcap : atCapacity q = false).
    { unfold atCapacity. rewrite Hrun, size_empty. apply Nat.leb_gt. lia. }
    inversion Hnd as [|? ? Hnotin Hnd']; subst.
    simpl in Hn.
    cbn [runLoop]. unfold loopTurn. rewrite Hp. cbn [p_awaiting p_todo p_now].
    rewrite Hcap.
    unfold dueIds. cbn [List.filter]. fold (dueIds now (jobs q) rest).
    set (q' := withPass q (Some {| p_now := now; p_todo := rest;
                                   p_awaiting := None |})).
    assert (Hskip : snd (runLoop n env tnow jitter q')
                    = dueIds now (jobs q) rest)
      by (change (jobs q) with (jobs q'); apply IH; auto; lia).
    destruct (mapGet i (jobs q)) as [job|] eqn:Hget.
    + destruct (now <? nextRunAt job) eqn:Hdue; cbn [negb].
      * exact Hskip.
      * assert (Hfree : bool_decide (i ∈ runningSet q) = false)
          by (apply bool_decide_eq_false; rewrite Hrun; apply not_elem_of_empty).
        rewrite Hfree. rewrite snd_let. f_equal.
        unfold resume. cbn [pass startJob withPass p_awaiting p_now p_todo].
        rewrite IH; auto; cbn [pass finishJob runningSet startJob withPass
                                 config jobs]; try lia.
        -- apply dueIds_ext. intros i' Hi'.
           assert (i' <> i) by (intros ->; contradiction).
           rewrite !mapGet_mutate_other; auto.
           ++ now intros j.
           ++ apply settleJob_id.
        -- rewrite Hrun, union_empty_r_L. apply difference_diag_L.
    + exact Hskip.
Qed.

Lemma dueIds_of_jobs now jobs L :
  wfMap jobs -> (forall j, In j L -> In j jobs) ->
  dueIds now jobs (map id L)
  = map id (List.filter (fun j => nextRunAt j <=? now) L).
Proof.
  intros Hwf Hsub. unfold dueIds.
  induction L as [|j L IH]; simpl; [reflexivity|].
  rewrite (mapGet_In jobs j Hwf) by (apply Hsub; now left).
  rewrite <- Z.leb_antisym.
  destruct (nextRunAt j <=? now); simpl; rewrite IH; auto;
    intros j' Hj'; apply Hsub; now right.
Qed.

Lemma processQueue_log now env tnow jitter q :
  wfMap (jobs q) -> isProcessing q = false -> runningSet q = ∅ ->
  (1 <= concurrency (config q))%nat ->
  snd (processQueue now env tnow jitter q)
  = map id (List.filter (fun j => nextRunAt j <=? now)
                        (getJobs (Some queued) 100 (jobs q))).
Proof.
  intros Hwf Hidle Hrun Hconc. unfold processQueue.
  assert (Hcap : atCapacity q = false).
  { unfold atCapacity. rewrite Hrun, size_empty. apply Nat.leb_gt. lia. }
  rewrite Hidle, Hcap. cbn [orb].
  rewrite (runLoop_log env tnow jitter now
             (map id (getJobs (Some queued) 100 (jobs q)))).
  - unfold beginQueuePass. rewrite Hidle, Hcap. cbn [orb jobs].
    apply dueIds_of_jobs; [assumption|].
    intros j Hj. simpl in Hj. now apply In_firstn_In, filter_In in Hj as [Hj _].
  - unfold beginQueuePass. now rewrite Hidle, Hcap.
  - unfold beginQueuePass. now rewrite Hidle, Hcap.
  - unfold beginQueuePass. now rewrite Hidle, Hcap.
  - simpl. rewrite <- firstn_map. apply NoDup_firstn.
    now apply NoDup_filter_key.
  - rewrite length_map. lia.
Qed.


(** *** Enqueue, then look up *)

Lemma mapGet_mapSet job jobs : mapGet (id job) (mapSet job jobs) = Some job.
Proof.
  unfold mapSet, mapGet.
  destruct (existsb (hasId (id job)) jobs) eqn:Hex.
  - induction jobs as [|a jobs IH]; simpl in *; [discriminate|].
    destruct (hasId (id job) a) eqn:Ha; simpl.
    + unfold hasId. now rewrite String.eqb_refl.
    + rewrite Ha. now apply IH.
  - induction jobs as [|a jobs IH]; simpl in *.
    + unfold hasId. now rewrite String.eqb_refl.
    + apply orb_false_iff in Hex as [Ha Hex]. rewrite Ha. now apply IH.
Qed.

Lemma mapSet_wf job jobs : wfMap jobs -> wfMap (mapSet job jobs).
Proof.
  unfold wfMap, mapSet. intros Hwf.
  destruct (existsb (hasId (id job)) jobs) eqn:Hex.
  - replace (map id (map (fun j => if hasId (id job) j then job else j) jobs))
      with (map id jobs); [exact Hwf|].
    clear. induction jobs as [|a jobs IH]; simpl; [reflexivity|].
    rewrite <- IH. destruct (hasId (id job) a) eqn:Ha; [|reflexivity].
    apply hasId_spec in Ha. now rewrite Ha.
  - apply NoDup_snoc_key; [exact Hwf|].
    intros Hin. apply in_map_iff in Hin as (x & Hx & Hin).
    assert (Htrue : existsb (hasId (id job)) jobs = true).
    { apply existsb_exists. exists x. split; [exact Hin|].
      now apply hasId_spec. }
    congruence.
Qed.


(** *** One job at a time *)

(** The set [running] holds the job the pass awaits and nothing else. *)
Lemma map_running_is_awaited cfg q :
  reachableImportFree cfg q ->
  runningSet q
  = match pass q with
    | Some {| p_awaiting := Some a |} => {[a]}
    | _ => ∅
    end.
Proof.
  induction 1 as [|q e Hreach IH Hadm Hfree]; [reflexivity|].
  pose proof (map_reachable_Invariant _ _ Hreach) as Hinv.
  destruct e as [ty pl key corr jobId now|jobId now jitter| |now|tnow
                |o now jitter|l]; simpl.
  - destruct (addJob_jobs ty pl key corr jobId now q) as [->| ->]; exact IH.
  - destruct (retryJob_cases jobId now jitter q)
      as [[-> _]|[(job & _ & _ & _ & ->)|(job & _ & _ & _ & ->)]]; exact IH.
  - exact IH.
  - unfold beginQueuePass.
    destruct (isProcessing q) eqn:Hflag; [exact IH|].
    destruct (atCapacity q); [exact IH|]. simpl.
    rewrite IH, (inv_flag _ _ Hinv Hflag). reflexivity.
  - unfold loopTurn.
    destruct (pass q) as [[pnow todo [a|]]|] eqn:Hpass; simpl;
      rewrite ?Hpass; try exact IH.
    destruct todo as [|jobId rest]; [exact IH|].
    destruct (atCapacity q); [exact IH|].
    destruct (mapGet jobId (jobs q)) as [job|]; [|exact IH].
    destruct (pnow <? nextRunAt job); [exact IH|].
    destruct (bool_decide (jobId ∈ runningSet q)); [exact IH|].
    simpl. rewrite IH. apply union_empty_r_L.
  - unfold resume.
    destruct (pass q) as [[pnow todo [a|]]|] eqn:Hpass; simpl;
      rewrite ?Hpass; try exact IH.
    rewrite IH. apply difference_diag_L.
  - destruct Hfree.
Qed.

(** With [concurrency] 0 no pass ever starts and every job stays queued. *)
Lemma map_concurrency_zero cfg q :
  concurrency cfg = 0%nat -> reachableImportFree cfg q ->
  pass q = None /\ forall j, In j (jobs q) -> status j = queued.
Proof.
  intros Hzero. induction 1 as [|q e Hreach [IHp IHj] Hadm Hfree];
    [split; [reflexivity|intros j []]|].
  pose proof (map_reachable_Invariant _ _ Hreach) as Hinv.
  destruct e as [ty pl key corr jobId now|jobId now jitter| |now|tnow
                |o now jitter|l]; cbn [apply].
  - destruct (addJob_jobs ty pl key corr jobId now q) as [->| ->];
      [now split|]. split; [exact IHp|]. simpl.
    rewrite mapSet_fresh by exact Hadm.
    intros j Hj. apply in_app_iff in Hj as [Hj|[<-|[]]]; [now apply IHj|].
    reflexivity.
  - destruct (retryJob_cases jobId now jitter q)
      as [[-> _]|[(job & Hget & Hst & _)|(job & Hget & Hst & _)]];
      [now split| |];
      apply mapGet_Some in Hget as [Hin _];
      rewrite (IHj job Hin) in Hst; discriminate.
  - split; [exact IHp|]. rewrite clearDeadJobs_spec by apply Hinv. simpl.
    intros j Hj. apply filter_In in Hj as [Hj _]. now apply IHj.
  - unfold beginQueuePass, atCapacity.
    rewrite (inv_config _ _ Hinv), Hzero. simpl.
    rewrite orb_true_r. now split.
  - unfold loopTurn. rewrite IHp. now split.
  - unfold resume. rewrite IHp. now split.
  - destruct Hfree.
Qed.


(** *** The attempt count *)

(** Every stored job has the cap of the configuration; its attempts stay
    within the cap unless it is dead, below the cap when it is failed, and
    never pass the cap by more than one. *)
Lemma map_attempts cfg q :
  reachableImportFree cfg q ->
  forall j, In j (jobs q) ->
    maxAttempts j = cfg_maxAttempts cfg
    /\ (attempts j <= S (maxAttempts j))%nat
    /\ (status j <> dead -> (attempts j <= maxAttempts j)%nat)
    /\ (status j = failed -> (attempts j < maxAttempts j)%nat).
Proof.
  induction 1 as [|q e Hreach IH Hadm Hfree]; [intros j []|].
  pose proof (map_reachable_Invariant _ _ Hreach) as Hinv.
  pose proof (inv_wf _ _ Hinv) as Hwf.
  destruct e as [ty pl key corr jobId now|jobId now jitter| |now|tnow
                |o now jitter|l]; cbn [apply].
  - destruct (addJob_jobs ty pl key corr jobId now q) as [->| ->];
      [exact IH|]. simpl. rewrite mapSet_fresh by exact Hadm.
    intros j Hj. apply in_app_iff in Hj as [Hj|[<-|[]]]; [now apply IH|].
    simpl. rewrite (inv_config _ _ Hinv).
    repeat split; try lia; discriminate.
  - destruct (retryJob_cases jobId now jitter q)
      as [[-> _]|[(job & Hget & Hst & Hmax & _)|(job & Hget & Hst & Hlt & ->)]];
      [exact IH| |].
    + apply mapGet_Some in Hget as [Hin _].
      destruct (IH job Hin) as (_ & _ & _ & Hfailed).
      specialize (Hfailed Hst). lia.
    + apply mapGet_Some in Hget as [Hin Hid]. simpl.
      intros j Hj. apply mutate_In in Hj as (j0 & Hj0 & ->).
      destruct (hasId jobId j0) eqn:Hhas; [|now apply IH].
      apply hasId_spec in Hhas.
      assert (j0 = job) as -> by (apply (key_inj id (jobs q));
          [exact Hwf|assumption|assumption|congruence]).
      destruct (IH job Hin) as (Hcap & _ & _ & _). simpl.
      repeat split; try lia; discriminate.
  - rewrite clearDeadJobs_spec by exact Hwf. simpl.
    intros j Hj. apply filter_In in Hj as [Hj _]. now apply IH.
  - rewrite beginQueuePass_jobs. exact IH.
  - destruct (loopTurn_cases tnow q)
      as [[-> _]|(p & jobId & rest & job & Hpass & _ & Htodo & _ & Hget & _
                  & _ & ->)]; [exact IH|].
    apply mapGet_Some in Hget as [Hin Hid]. simpl.
    intros j Hj. apply mutate_In in Hj as (j0 & Hj0 & ->).
    destruct (hasId jobId j0) eqn:Hhas; [|now apply IH].
    apply hasId_spec in Hhas.
    assert (j0 = job) as -> by (apply (key_inj id (jobs q));
          [exact Hwf|assumption|assumption|congruence]).
    assert (Hq : status job = queued).
    { apply (inv_todo _ _ Hinv p jobId job Hpass); auto.
      rewrite Htodo. now left. }
    destruct (IH job Hin) as (Hcap & _ & Hlive & _). simpl.
    repeat split; try lia; try discriminate.
    + apply Nat.le_le_succ_r, Hlive. congruence.
    + intros _. apply Hlive. congruence.
  - destruct (resume_cases o now jitter q)
      as [->|(p & a & Hpass & Hawait & ->)]; [exact IH|].
    destruct (inv_awaiting _ _ Hinv p a Hpass Hawait) as (job & Hin & Hid & Hrun).
    simpl. intros j Hj. apply mutate_In in Hj as (j0 & Hj0 & ->).
    destruct (hasId a j0) eqn:Hhas; [|now apply IH].
    apply hasId_spec in Hhas.
    assert (j0 = job) as -> by (apply (key_inj id (jobs q));
          [exact Hwf|assumption|assumption|congruence]).
    destruct (IH job Hin) as (Hcap & _ & Hlive & _).
    assert (Hle : (attempts job <= maxAttempts job)%nat)
      by (apply Hlive; congruence).
    destruct o as [r|e]; simpl.
    + repeat split; try lia; discriminate.
    + destruct (Nat.leb_spec (maxAttempts job) (S (attempts job)));
        repeat split; try lia; try discriminate; congruence.
  - destruct Hfree.
Qed.


(** *** A job that is neither queued nor running is left alone *)

Lemma map_parked_kept cfg e q J :
  Invariant cfg q -> admissible e q -> importFree e -> In J (jobs q) ->
  status J <> queued -> status J <> running ->
  (status J = dead -> e <> EvClearDeadJobs) ->
  (forall jobId now jitter,
     e = EvRetryJob jobId now jitter -> jobId <> id J \/ status J <> failed) ->
  In J (jobs (apply e q)).
Proof.
  intros Hinv Hadm Hfree HJ Hnq Hnr Hclear Hretry.
  pose proof (inv_wf _ _ Hinv) as Hwf.
  assert (Hother : forall j, In j (jobs q) ->
                     status j = queued \/ status j = running ->
                     id J <> id j).
  { intros j Hj Hst Heq.
    rewrite <- (key_inj id (jobs q) J j Hwf HJ Hj Heq) in Hst. tauto. }
  destruct e as [ty pl key corr jobId now|jobId now jitter| |now|tnow
                |o now jitter|l]; cbn [apply].
  - destruct (addJob_jobs ty pl key corr jobId now q) as [->| ->];
      [assumption|].
    simpl. rewrite mapSet_fresh by exact Hadm. apply in_app_iff. now left.
  - specialize (Hretry jobId now jitter eq_refl).
    assert (Hne : forall job, mapGet jobId (jobs q) = Some job ->
                    status job = failed -> id J <> jobId).
    { intros job Hget Hf Heq. subst jobId.
      rewrite (mapGet_In _ _ Hwf HJ) in Hget. injection Hget as <-. tauto. }
    destruct (retryJob_cases jobId now jitter q)
      as [[-> _]|[(job & Hget & Hf & _ & ->)|(job & Hget & Hf & _ & ->)]];
      simpl; [assumption|..];
      (apply mutate_other; [assumption|exact (Hne job Hget Hf)]).
  - rewrite clearDeadJobs_spec by assumption. simpl.
    apply filter_In. split; [assumption|].
    destruct (status_eqb (status J) dead) eqn:Hst; [|reflexivity].
    apply status_eqb_true in Hst. now destruct (Hclear Hst).
  - now rewrite beginQueuePass_jobs.
  - destruct (loopTurn_cases tnow q)
      as [[-> _]|(p & jobId & rest & job & Hp & _ & Htodo & _ & Hget & _ & _
                  & ->)]; [assumption|].
    simpl. apply mapGet_Some in Hget as [Hjob Hid].
    apply mutate_other; [assumption|]. rewrite <- Hid.
    apply Hother; [assumption|]. left.
    apply (inv_todo _ _ Hinv p jobId job Hp); auto.
    rewrite Htodo. now left.
  - destruct (resume_cases o now jitter q) as [->|(p & a & Hp & Ha & ->)];
      [assumption|].
    simpl. destruct (inv_awaiting _ _ Hinv p a Hp Ha) as (j & Hj & Hid & Hrun).
    apply mutate_other; [assumption|]. rewrite <- Hid.
    apply Hother; [assumption|now right].
  - destruct Hfree.
Qed.


(** *** Persistence *)

Lemma mapGet_mapSet_other i job jobs :
  id job <> i -> mapGet i (mapSet job jobs) = mapGet i jobs.
Proof.
  intros Hne. unfold mapSet, mapGet.
  assert (Hjob : hasId i job = false).
  { unfold hasId. now apply String.eqb_neq. }
  destruct (existsb (hasId (id job)) jobs).
  - induction jobs as [|a jobs IH]; simpl; [reflexivity|].
    destruct (hasId (id job) a) eqn:Ha.
    + rewrite Hjob. apply hasId_spec in Ha.
      assert (Hai : hasId i a = false).
      { unfold hasId. apply String.eqb_neq. congruence. }
      now rewrite Hai.
    + destruct (hasId i a); [reflexivity|exact IH].
  - induction jobs as [|a jobs IH]; simpl; [now rewrite Hjob|].
    destruct (hasId i a); [reflexivity|exact IH].
Qed.

Lemma find_snoc {A} (test : A -> bool) l x :
  find test (l ++ [x])
  = match find test l with
    | Some y => Some y
    | None => if test x then Some x else None
    end.
Proof.
  induction l as [|a l IH]; simpl; [reflexivity|].
  destruct (test a); [reflexivity|exact IH].
Qed.

Lemma import_wf l acc :
  wfMap acc -> wfMap (fold_left (fun m job => mapSet job m) l acc).
Proof.
  revert acc. induction l as [|a l IH]; simpl; intros acc Hwf; [exact Hwf|].
  apply IH. now apply mapSet_wf.
Qed.

Lemma import_distinct l acc :
  List.NoDup (map id (acc ++ l)) ->
  fold_left (fun m job => mapSet job m) l acc = acc ++ l.
Proof.
  revert acc. induction l as [|a l IH]; simpl; intros acc Hnd.
  - now rewrite app_nil_r.
  - rewrite mapSet_fresh.
    + rewrite IH; rewrite <- app_assoc; [reflexivity|exact Hnd].
    + rewrite map_app in Hnd. simpl in Hnd.
      apply NoDup_remove_2 in Hnd. intros Hin. apply Hnd.
      apply in_app_iff. now left.
Qed.

(** Of the imported jobs with one id the last one is stored. *)
Lemma import_lookup i l acc :
  mapGet i (fold_left (fun m job => mapSet job m) l acc)
  = match find (hasId i) (rev l) with
    | Some j => Some j
    | None => mapGet i acc
    end.
Proof.
  revert acc. induction l as [|a l IH]; simpl; intros acc; [reflexivity|].
  rewrite IH, find_snoc.
  destruct (find (hasId i) (rev l)); [reflexivity|].
  destruct (hasId i a) eqn:Ha.
  - apply hasId_spec in Ha. subst i. apply mapGet_mapSet.
  - apply mapGet_mapSet_other. intros Heq.
    apply hasId_spec in Heq. congruence.
Qed.


(** *** Filtering a window and the window of a filter *)

Lemma filter_firstn_prefix {A} (test : A -> bool) n l :
  exists rest,
    firstn n (List.filter test l) = List.filter test (firstn n l) ++ rest.
Proof.
  exists (firstn (n - length (List.filter test (firstn n l)))
            (List.filter test (skipn n l))).
  rewrite <- (firstn_skipn n l) at 1.
  rewrite List.filter_app, List.firstn_app.
  rewrite List.firstn_all2; [reflexivity|].
  etransitivity; [apply filter_length_le|]. apply List.firstn_le_length.
Qed.

Lemma getStats_fields jobs :
  total (getStats jobs) = length jobs
  /\ n_queued (getStats jobs) = countStatus queued jobs
  /\ n_running (getStats jobs) = countStatus running jobs
  /\ n_succeeded (getStats jobs) = countStatus succeeded jobs
  /\ n_failed (getStats jobs) = countStatus failed jobs
  /\ n_dead (getStats jobs) = countStatus dead jobs.
Proof.
  unfold getStats.
  destruct (bump_fold jobs
              {| total := length jobs; n_queued := 0; n_running := 0;
                 n_succeeded := 0; n_failed := 0; n_dead := 0 |})
    as (-> & -> & -> & -> & -> & ->).
  simpl. repeat split; reflexivity.
Qed.


(** *** The queue after a pass *)

Lemma mapGet_mutate_same i f jobs :
  keepsId f -> mapGet i (mutate i f jobs) = option_map f (mapGet i jobs).
Proof.
  intros Hf. unfold mapGet, mutate.
  induction jobs as [|a jobs IH]; simpl; [reflexivity|].
  destruct (hasId i a) eqn:Hia.
  - assert (Hfa : hasId i (f a) = true)
      by (unfold hasId in *; now rewrite Hf).
    now rewrite Hfa.
  - rewrite Hia. exact IH.
Qed.

Lemma fst_let {X Y} (p : X * list Y) (y : Y) :
  fst (let '(q, l) := p in (q, y :: l)) = fst p.
Proof. now destruct p. Qed.

(** With nothing running and room for one job, the loop runs the due jobs
    of [queuedJobs] to their end, leaves every other job as it was, and
    lowers the flag. *)
Lemma runLoop_state env tnow jitter now todo :
  forall n q,
    pass q = Some {| p_now := now; p_todo := todo; p_awaiting := None |} ->
    runningSet q = ∅ ->
    (1 <= concurrency (config q))%nat ->
    List.NoDup todo ->
    (length todo < n)%nat ->
    let q' := fst (runLoop n env tnow jitter q) in
    pass q' = None /\ isProcessing q' = false /\ runningSet q' = ∅
    /\ config q' = config q
    /\ forall i,
         mapGet i (jobs q')
         = option_map
             (fun j =>
                if existsb (String.eqb i) (dueIds now (jobs q) todo)
                then settleJob (config q) (env i) tnow jitter
                       (markRunning tnow j)
                else j)
             (mapGet i (jobs q)).
Proof.
  induction todo as [|i rest IH]; intros n q Hp Hrun Hconc Hnd Hn;
    (destruct n as [|n]; [simpl in Hn; lia|]); cbv zeta.
  - simpl. unfold loopTurn. rewrite Hp. simpl.
    rewrite runLoop_idle by reflexivity. simpl.
    repeat split; auto. intros i. now destruct (mapGet i (jobs q)).
  - assert (Hcap : atCapacity q = false).
    { unfold atCapacity. rewrite Hrun, size_empty. apply Nat.leb_gt. lia. }
    inversion Hnd as [|? ? Hnotin Hnd']; subst.
    simpl in Hn.
    cbn [runLoop]. unfold loopTurn. rewrite Hp. cbn [p_awaiting p_todo p_now].
    rewrite Hcap.
    unfold dueIds. cbn [List.filter]. fold (dueIds now (jobs q) rest).
    set (q' := withPass q (Some {| p_now := now; p_todo := rest;
                                   p_awaiting := None |})).
    assert (Hskip :
      let q2 := fst (runLoop n env tnow jitter q') in
      pass q2 = None /\ isProcessing q2 = false /\ runningSet q2 = ∅
      /\ config q2 = config q
      /\ forall i0,
           mapGet i0 (jobs q2)
           = option_map
               (fun j =>
                  if existsb (String.eqb i0) (dueIds now (jobs q) rest)
                  then settleJob (config q) (env i0) tnow jitter
                         (markRunning tnow j)
                  else j)
               (mapGet i0 (jobs q))).
    { change (jobs q) with (jobs q'). change (config q) with (config q').
      apply IH; auto; lia. }
    destruct (mapGet i (jobs q)) as [job|] eqn:Hget.
    + destruct (now <? nextRunAt job) eqn:Hdue; cbn [negb].
      * exact Hskip.
      * assert (Hfree : bool_decide (i ∈ runningSet q) = false)
          by (apply bool_decide_eq_false; rewrite Hrun; apply not_elem_of_empty).
        rewrite Hfree. rewrite fst_let.
        unfold resume. cbn [pass startJob withPass p_awaiting p_now p_todo].
        set (q2 := finishJob i (env i) tnow jitter _).
        assert (Hjobs2 : jobs q2
                         = mutate i (settleJob (config q) (env i) tnow jitter)
                             (mutate i (markRunning tnow) (jobs q)))
          by reflexivity.
        assert (Hother : forall i', i' <> i ->
                           mapGet i' (jobs q2) = mapGet i' (jobs q)).
        { intros i' Hne. rewrite Hjobs2.
          rewrite !mapGet_mutate_other; auto;
            [now intros j|apply settleJob_id]. }
        destruct (IH n q2) as (Hpass & Hflag & Hset & Hcfg & Hmap); auto.
        { unfold q2. cbn [runningSet finishJob startJob withPass].
          rewrite Hrun, union_empty_r_L. apply difference_diag_L. }
        { lia. }
        change (config q2) with (config q) in Hcfg, Hmap.
        split; [exact Hpass|]. split; [exact Hflag|]. split; [exact Hset|].
        split; [exact Hcfg|].
        intros i0. rewrite Hmap.
        replace (dueIds now (jobs q2) rest) with (dueIds now (jobs q) rest)
          by (symmetry; apply dueIds_ext; intros i' Hi'; apply Hother;
              intros ->; contradiction).
        cbn [existsb].
        destruct (String.eqb_spec i0 i) as [->|Hne].
        -- cbn [orb].
           assert (Hnot : existsb (String.eqb i) (dueIds now (jobs q) rest)
                          = false).
           { destruct (existsb _ _) eqn:Hex; [|reflexivity].
             apply existsb_exists in Hex as (x & Hx & Heq).
             apply String.eqb_eq in Heq. subst x.
             unfold dueIds in Hx. apply filter_In in Hx as [Hx _].
             contradiction. }
           rewrite Hnot, Hjobs2.
           rewrite mapGet_mutate_same by apply settleJob_id.
           rewrite mapGet_mutate_same by (now intros j).
           rewrite Hget. reflexivity.
        -- cbn [orb]. now rewrite (Hother i0 Hne).
    + exact Hskip.
Qed.

Lemma processQueue_state now env tnow jitter q :
  wfMap (jobs q) -> isProcessing q = false -> runningSet q = ∅ ->
  (1 <= concurrency (config q))%nat ->
  let r := processQueue now env tnow jitter q in
  pass (fst r) = None /\ isProcessing (fst r) = false
  /\ runningSet (fst r) = ∅ /\ config (fst r) = config q
  /\ forall i,
       mapGet i (jobs (fst r))
       = option_map
           (fun j =>
              if existsb (String.eqb i) (snd r)
              then settleJob (config q) (env i) tnow jitter
                     (markRunning tnow j)
              else j)
           (mapGet i (jobs q)).
Proof.
  intros Hwf Hidle Hrun Hconc. cbv zeta.
  pose proof (processQueue_log now env tnow jitter q Hwf Hidle Hrun Hconc)
    as Hlog.
  unfold processQueue in *.
  assert (Hcap : atCapacity q = false).
  { unfold atCapacity. rewrite Hrun, size_empty. apply Nat.leb_gt. lia. }
  rewrite Hidle, Hcap in *. cbn [orb] in *.
  assert (Hbegin : beginQueuePass now q
                   = {| config := config q; jobs := jobs q;
                        runningSet := runningSet q; isProcessing := true;
                        pass := Some {| p_now := now;
                                        p_todo := map id (getJobs (Some queued)
                                                            100 (jobs q));
                                        p_awaiting := None |} |}).
  { unfold beginQueuePass. now rewrite Hidle, Hcap. }
  destruct (runLoop_state env tnow jitter now
              (map id (getJobs (Some queued) 100 (jobs q)))
              (S (length (getJobs (Some queued) 100 (jobs q))))
              (beginQueuePass now q))
    as (Hpass & Hflag & Hset & Hcfg & Hmap).
  - now rewrite Hbegin.
  - now rewrite Hbegin.
  - now rewrite Hbegin.
  - simpl. rewrite <- firstn_map. apply NoDup_firstn.
    now apply NoDup_filter_key.
  - rewrite length_map. lia.
  - rewrite beginQueuePass_jobs in Hmap.
    replace (config (beginQueuePass now q)) with (config q) in Hcfg, Hmap
      by now rewrite Hbegin.
    repeat split; auto.
    intros i. rewrite Hmap. rewrite Hlog.
    rewrite (dueIds_of_jobs now (jobs q) (getJobs (Some queued) 100 (jobs q)));
      [reflexivity|exact Hwf|].
    intros j Hj. simpl in Hj. now apply In_firstn_In, filter_In in Hj as [Hj _].
Qed.


(** *** What an assignment keeps *)

Lemma mutate_maps jobId f jobs j :
  In j jobs -> In (if hasId jobId j then f j else j) (mutate jobId f jobs).
Proof.
  intros Hj. unfold mutate.
  exact (in_map (fun j => if hasId jobId j then f j else j) jobs j Hj).
Qed.

(** Every event but the purge of a dead job keeps each stored job, with the
    fields that [addJob] wrote and no later assignment touches. *)
Lemma map_durable e q j :
  wfMap (jobs q) -> admissible e q -> importFree e -> In j (jobs q) ->
  (exists j',
     In j' (jobs (apply e q))
     /\ id j' = id j /\ type j' = type j /\ payload j' = payload j
     /\ idempotencyKey j' = idempotencyKey j
     /\ correlationId j' = correlationId j
     /\ createdAt j' = createdAt j /\ maxAttempts j' = maxAttempts j)
  \/ (e = EvClearDeadJobs /\ status j = dead).
Proof.
  intros Hwf Hadm Hfree Hj.
  assert (Hsame : exists j',
            In j' (jobs q)
            /\ id j' = id j /\ type j' = type j /\ payload j' = payload j
            /\ idempotencyKey j' = idempotencyKey j
            /\ correlationId j' = correlationId j
            /\ createdAt j' = createdAt j /\ maxAttempts j' = maxAttempts j)
    by (exists j; repeat split; auto).
  assert (Hupd : forall jobId f,
            (forall j0, id (f j0) = id j0 /\ type (f j0) = type j0
                        /\ payload (f j0) = payload j0
                        /\ idempotencyKey (f j0) = idempotencyKey j0
                        /\ correlationId (f j0) = correlationId j0
                        /\ createdAt (f j0) = createdAt j0
                        /\ maxAttempts (f j0) = maxAttempts j0) ->
            exists j',
              In j' (mutate jobId f (jobs q))
              /\ id j' = id j /\ type j' = type j /\ payload j' = payload j
              /\ idempotencyKey j' = idempotencyKey j
              /\ correlationId j' = correlationId j
              /\ createdAt j' = createdAt j /\ maxAttempts j' = maxAttempts j).
  { intros jobId f Hf.
    exists (if hasId jobId j then f j else j).
    split; [now apply mutate_maps|].
    destruct (hasId jobId j); [apply Hf|repeat split]. }
  destruct e as [ty pl key corr jobId now|jobId now jitter| |now|tnow
                |o now jitter|l]; cbn [apply].
  - left. destruct (addJob_jobs ty pl key corr jobId now q) as [->| ->];
      [exact Hsame|].
    simpl. rewrite mapSet_fresh by exact Hadm.
    exists j. split; [apply in_app_iff; now left|repeat split].
  - left. destruct (retryJob_cases jobId now jitter q)
      as [[-> _]|[(job & _ & _ & _ & ->)|(job & _ & _ & _ & ->)]];
      [exact Hsame| |]; simpl; apply Hupd; intros j0; simpl; repeat split.
  - rewrite clearDeadJobs_spec by exact Hwf. simpl.
    destruct (status_eqb (status j) dead) eqn:Hst.
    + right. split; [reflexivity|now apply status_eqb_true].
    + left. exists j. split; [|repeat split].
      apply filter_In. split; [exact Hj|]. now rewrite Hst.
  - left. rewrite beginQueuePass_jobs. exact Hsame.
  - left. destruct (loopTurn_cases tnow q)
      as [[-> _]|(p & jobId & rest & job & _ & _ & _ & _ & _ & _ & _ & ->)];
      [exact Hsame|].
    simpl. apply Hupd. intros j0. simpl. repeat split.
  - left. destruct (resume_cases o now jitter q)
      as [->|(p & a & _ & _ & ->)]; [exact Hsame|].
    simpl. apply Hupd. intros j0. destruct o; simpl; repeat split.
  - destruct Hfree.
Qed.

(** *** Runs *)

Lemma importFree_reachable cfg q : reachableImportFree cfg q -> reachable cfg q.
Proof.
  induction 1 as [|q e _ IH Hadm _]; [constructor|now constructor].
Qed.

Lemma map_importFree_run cfg events q :
  reachableImportFree cfg q -> admissibleRun events q ->
  List.Forall importFree events ->
  reachableImportFree cfg (run events q).
Proof.
  revert q. induction events as [|e rest IH]; intros q Hq Hadm Hfree;
    [assumption|].
  destruct Hadm as [He Hrest]. inversion Hfree; subst.
  apply IH; [|assumption|assumption]. now apply importFree_apply.
Qed.

(** The ids of the map stay distinct, whatever is imported. *)
Lemma map_reachable_wf cfg q : reachable cfg q -> wfMap (jobs q).
Proof.
  induction 1 as [|q e _ IH Hadm]; [constructor|].
  destruct e as [ty pl key corr jobId now|jobId now jitter| |now|tnow
                |o now jitter|l]; cbn [apply].
  - destruct (addJob_jobs ty pl key corr jobId now q) as [->| ->];
      [exact IH|]. simpl. now apply mapSet_wf.
  - destruct (retryJob_cases jobId now jitter q)
      as [[-> _]|[(job & _ & _ & _ & ->)|(job & _ & _ & _ & ->)]];
      [exact IH| |]; simpl; (apply mutate_wf; [now intros j|exact IH]).
  - rewrite clearDeadJobs_spec by exact IH. simpl.
    now apply NoDup_filter_key.
  - now rewrite beginQueuePass_jobs.
  - destruct (loopTurn_cases tnow q)
      as [[-> _]|(p & jobId & rest & job & _ & _ & _ & _ & _ & _ & _ & ->)];
      [exact IH|]. simpl. apply mutate_wf; [now intros j|exact IH].
  - destruct (resume_cases o now jitter q)
      as [->|(p & a & _ & _ & ->)]; [exact IH|].
    simpl. apply mutate_wf; [apply settleJob_id|exact IH].
  - apply import_wf. constructor.
Qed.



(** *** The order of a pass *)

(** Of two queued and due jobs within the first 100 queued ones, the one
    that stands first in the map is handed over first. *)
Lemma pass_follows_the_map now (l1 l2 l3 : jobMap) A B :
  status A = queued -> status B = queued ->
  nextRunAt A <= now -> nextRunAt B <= now ->
  (countStatus queued (l1 ++ A :: l2 ++ [B]) <= 100)%nat ->
  exists h1 h2 h3,
    map id (List.filter (fun j => nextRunAt j <=? now)
              (firstn 100
                 (List.filter (fun j => status_eqb (status j) queued)
                    (l1 ++ A :: l2 ++ B :: l3))))
    = h1 ++ id A :: h2 ++ id B :: h3.
Proof.
  intros HA HB HdA HdB Hcount. unfold countStatus in Hcount.
  assert (Hsplit : l1 ++ A :: l2 ++ B :: l3 = (l1 ++ A :: l2 ++ [B]) ++ l3).
  { rewrite <- app_assoc. simpl. now rewrite <- app_assoc. }
  rewrite Hsplit, List.filter_app, List.firstn_app.
  rewrite List.firstn_all2 by exact Hcount.
  rewrite (List.filter_app _ l1 (A :: l2 ++ [B])). simpl.
  rewrite HA, status_eqb_refl, (List.filter_app _ l2 [B]). simpl.
  rewrite HB, status_eqb_refl.
  rewrite !List.filter_app. simpl.
  apply Z.leb_le in HdA, HdB. rewrite HdA.
  rewrite !List.filter_app. simpl. rewrite HdB.
  rewrite !map_app. simpl. rewrite !map_app. simpl.
  rewrite <- !app_assoc. simpl. rewrite <- !app_assoc. simpl.
  eexists _, _, _. reflexivity.
Qed.

End LibFacts.

(** * The claims *)

(** Concrete runs: every generated id is new when it is used. *)
Ltac not_in_ids :=
  vm_compute;
  let H := fresh "H" in
  intros H; repeat (destruct H as [H|H]; [discriminate H|]); exact H.

Ltac admissible_run :=
  repeat match goal with
  | |- LibQueue.admissibleRun [] _ => exact I
  | |- LibQueue.admissibleRun (_ :: _) _ =>
      split; [first [exact I | not_in_ids]|]
  end.

Ltac reachable_map :=
  apply LibFacts.map_reachable_run;
  [apply LibQueue.reachable_create | admissible_run].

Ltac reachable_import_free :=
  apply LibFacts.map_importFree_run;
  [apply LibQueue.importFree_create | admissible_run | repeat constructor].

Ltac admissible_events :=
  repeat (apply List.Forall_app; split); repeat constructor.

Ltac reachable_system :=
  apply ElectronFacts.system_reachable_run;
  [apply ElectronQueue.reachable_init | admissible_events].

Ltac reachable_table :=
  apply (ElectronFacts.table_reachable_run _
           (ElectronQueue.atRest ElectronQueue.init));
  [apply ElectronQueue.reachable_init | reflexivity | admissible_events].

(** ** C1: enqueue of a key whose job has succeeded *)

(** C1, the renderer queue at the failing input.  The key ["label_O1"] is
    enqueued twice before the first job has run; the first job fails and the
    second succeeds.  The map now holds the succeeded job ["job_2"] for the
    key, and yet a third enqueue of the key stores a third job and answers
    with its new id, where the claim has it answer ["job_2"] and store
    nothing: the lookup stops at the first job with the key, which has not
    succeeded. *)
Lemma C1_renderer_third_job_for_succeeded_key :
  LibQueue.reachable LibQueue.defaultConfig Scenarios.afterOneKeyTwice
  /\ LibQueue.jobs Scenarios.afterOneKeyTwice
     = [Scenarios.failedFirst; Scenarios.succeededSecond]
  /\ LibQueue.idempotencyKey Scenarios.succeededSecond = "label_O1"
  /\ LibQueue.status Scenarios.succeededSecond = succeeded
  /\ LibQueue.id Scenarios.succeededSecond = "job_2"
  /\ fst (LibQueue.addJob create_label "{}" "label_O1" None "job_3" 600
            Scenarios.afterOneKeyTwice) = "job_3"
  /\ length (LibQueue.jobs
       (snd (LibQueue.addJob create_label "{}" "label_O1" None "job_3" 600
               Scenarios.afterOneKeyTwice))) = 3%nat.
Proof.
  split; [unfold Scenarios.afterOneKeyTwice, Scenarios.oneKeyTwice;
          reachable_map|].
  repeat split; vm_compute; reflexivity.
Qed.

(** ** C2: enqueue of a key whose job has not finished *)

(** C2, counterexample.  In the renderer queue a job is enqueued and still
    [queued]; a second enqueue of its key stores a second queued job and
    answers with the new id. *)
Lemma C2_renderer_second_job_for_queued_key :
  LibQueue.reachable LibQueue.defaultConfig Scenarios.oneQueued
  /\ map (fun j => (LibQueue.id j, LibQueue.idempotencyKey j, LibQueue.status j))
       (LibQueue.jobs Scenarios.oneQueued)
     = [("job_1", "label_O1", queued)]
  /\ fst (LibQueue.addJob create_label "{}" "label_O1" None "job_2" 1
            Scenarios.oneQueued) = "job_2"
  /\ map (fun j => (LibQueue.id j, LibQueue.idempotencyKey j, LibQueue.status j))
       (LibQueue.jobs
          (snd (LibQueue.addJob create_label "{}" "label_O1" None "job_2" 1
                  Scenarios.oneQueued)))
     = [("job_1", "label_O1", queued); ("job_2", "label_O1", queued)].
Proof.
  split; [unfold Scenarios.oneQueued; reachable_map|].
  repeat split; vm_compute; reflexivity.
Qed.

(** C2, as amended.  Main-process queue: a stored job [J] that is neither
    succeeded nor dead answers an enqueue of its key with its id, and nothing
    is inserted.  Renderer queue: only a succeeded job answers; when no
    stored job with the key has succeeded, the enqueue stores a new queued
    job under the generated id and answers with that id, which is the id of
    no job stored before. *)
Theorem C2_enqueue_of_unfinished_key :
  (forall (rows : ElectronQueue.table) (J : ElectronQueue.OutboxJob)
          (jobData : ElectronQueue.JobData) newId now,
      ElectronQueue.wfTable rows -> In J rows ->
      ElectronQueue.status J <> succeeded ->
      ElectronQueue.status J <> dead ->
      ElectronQueue.jd_idempotency_key jobData
        = ElectronQueue.idempotency_key J ->
      let r := ElectronQueue.addJob jobData newId now rows in
      ElectronQueue.success (fst r) = true
      /\ ElectronQueue.jobId (fst r) = ElectronQueue.id J
      /\ snd r = rows)
  /\ (forall (q : LibQueue.Queue) ty pl key corr jobId now,
      (forall J, In J (LibQueue.jobs q) -> LibQueue.idempotencyKey J = key ->
                 LibQueue.status J <> succeeded) ->
      ~ In jobId (map LibQueue.id (LibQueue.jobs q)) ->
      LibQueue.addJob ty pl key corr jobId now q
      = (jobId,
         LibQueue.withJobs q
           (LibQueue.jobs q
            ++ [LibQueue.newJob (LibQueue.config q) ty pl key corr jobId now]))
      /\ LibQueue.status
           (LibQueue.newJob (LibQueue.config q) ty pl key corr jobId now)
         = queued
      /\ forall J, In J (LibQueue.jobs q) -> LibQueue.id J <> jobId).
Proof.
  split.
  - intros rows J jobData newId now Hwf HJ _ _ Hkey r. unfold r.
    rewrite (ElectronFacts.addJob_existing jobData newId now rows J); auto.
  - intros q ty pl key corr jobId now Hnot Hfresh.
    rewrite LibFacts.addJob_create.
    2: { intros J Hfind.
         apply (find_key_Some LibQueue.idempotencyKey) in Hfind as [HJ Hkey].
         now apply Hnot. }
    rewrite LibFacts.mapSet_fresh by assumption.
    repeat split. intros J HJ Hid. apply Hfresh. rewrite <- Hid.
    now apply in_map.
Qed.

(** C2, the amended claim at work: the main-process table with a running
    job, and the renderer queue with a queued one. *)
Lemma C2_unfinished_witness :
  ElectronQueue.jobId
    (fst (ElectronQueue.addJob Scenarios.labelJob "job_2" 10500
            (ElectronQueue.rows Scenarios.tableOneRunning)))
  = "job_1"
  /\ fst (LibQueue.addJob create_label "{}" "label_O1" None "job_2" 1
            Scenarios.oneQueued) = "job_2".
Proof.
  split.
  - assert (Hrow : exists J,
        ElectronQueue.rows Scenarios.tableOneRunning = [J]
        /\ ElectronQueue.idempotency_key J = "label_O1"
        /\ ElectronQueue.status J = running
        /\ ElectronQueue.id J = "job_1")
      by (eexists; repeat split; vm_compute; reflexivity).
    destruct Hrow as (J & Hrows & Hkey & Hst & Hid).
    rewrite <- Hid.
    apply (proj1 C2_enqueue_of_unfinished_key
             (ElectronQueue.rows Scenarios.tableOneRunning) J
             Scenarios.labelJob "job_2" 10500).
    + rewrite Hrows. split; repeat constructor; simpl; tauto.
    + rewrite Hrows. now left.
    + rewrite Hst. discriminate.
    + rewrite Hst. discriminate.
    + now rewrite Hkey.
  - assert (Hjob : forall J,
        In J (LibQueue.jobs Scenarios.oneQueued) ->
        LibQueue.idempotencyKey J = "label_O1" ->
        LibQueue.status J <> succeeded)
      by (vm_compute; intros J [<-|[]] _; discriminate).
    assert (Hfresh : ~ In "job_2"
              (map LibQueue.id (LibQueue.jobs Scenarios.oneQueued)))
      by not_in_ids.
    destruct (proj2 C2_enqueue_of_unfinished_key Scenarios.oneQueued
                create_label "{}" "label_O1" None "job_2" 1 Hjob Hfresh)
      as (Hadd & _ & _).
    now rewrite Hadd.
Defined.

(** ** C3: the attempts cap *)

(** C3, counterexample.  Main-process queue: the sixth retryable failure of
    a job brings [attempts] to 6, the length of the backoff schedule, and
    the job is [queued] again, not dead; it is the seventh failure that
    marks it dead.  Renderer queue: the first failure of a job with
    [maxAttempts = 6] leaves it [failed], not [queued]. *)
Lemma C3_cap_reached_and_still_queued :
  ElectronQueue.reachable Scenarios.tableAfterSixFailures
  /\ length ElectronQueue.backoffSchedule = 6%nat
  /\ map (fun r => (ElectronQueue.status r, ElectronQueue.attempts r))
       (ElectronQueue.rows Scenarios.tableAfterSixFailures)
     = [(queued, 6%nat)]
  /\ map (fun r => (ElectronQueue.status r, ElectronQueue.attempts r))
       (ElectronQueue.rows
          (ElectronQueue.run Scenarios.seventhFailure
             Scenarios.tableAfterSixFailures))
     = [(dead, 6%nat)]
  /\ LibQueue.reachable LibQueue.defaultConfig Scenarios.notFoundOnce
  /\ map (fun j => (LibQueue.status j, LibQueue.attempts j,
                    LibQueue.maxAttempts j))
       (LibQueue.jobs Scenarios.notFoundOnce)
     = [(failed, 1%nat, 6%nat)].
Proof.
  split; [unfold Scenarios.tableAfterSixFailures, Scenarios.sixFailures;
          reachable_table|].
  do 3 (split; [vm_compute; reflexivity|]).
  split; [unfold Scenarios.notFoundOnce; reachable_map|].
  vm_compute; reflexivity.
Qed.

(** C3, as amended.  Main-process queue: [attempts] never exceeds 6, the
    length of the backoff schedule; a retryable failure of a job selected
    with fewer than 6 attempts stores one attempt more and queues the job
    again, also when that makes 6; any other failure marks the job dead and
    leaves [attempts] as it was.  Renderer queue: every failure adds one to
    [attempts]; the job is dead exactly when the new count reaches
    [maxAttempts], and below that it is [failed]. *)
Theorem C3_attempts_cap :
  (forall q, ElectronQueue.reachable q ->
     forall r, In r (ElectronQueue.rows q) ->
       (ElectronQueue.attempts r <= length ElectronQueue.backoffSchedule)%nat)
  /\ (forall q now e later nextJob,
      ElectronQueue.wfTable (ElectronQueue.rows q) ->
      ElectronQueue.getNextJobToProcess now (ElectronQueue.rows q)
        = Some nextJob ->
      exists r',
        ElectronQueue.getJobById (ElectronQueue.id nextJob)
          (ElectronQueue.rows
             (ElectronQueue.processNextJob now (Some e) later q))
        = Some r'
        /\ if ElectronQueue.isRetryableError e
              && (ElectronQueue.attempts nextJob
                  <? length ElectronQueue.backoffSchedule)%nat
           then ElectronQueue.status r' = queued
                /\ ElectronQueue.attempts r'
                   = S (ElectronQueue.attempts nextJob)
           else ElectronQueue.status r' = dead
                /\ ElectronQueue.attempts r' = ElectronQueue.attempts nextJob)
  /\ (forall cfg e now jitter j,
      let j' := LibQueue.settleJob cfg (LibQueue.Threw e) now jitter j in
      LibQueue.attempts j' = S (LibQueue.attempts j)
      /\ (LibQueue.status j' = dead
          <-> (LibQueue.maxAttempts j <= S (LibQueue.attempts j))%nat)
      /\ ((S (LibQueue.attempts j) < LibQueue.maxAttempts j)%nat ->
          LibQueue.status j' = failed)).
Proof.
  split; [|split].
  - intros q Hq r Hr.
    exact (proj1 (ElectronFacts.table_reachable_rows q Hq r Hr)).
  - intros q now e later nextJob Hwf Hnext.
    destruct (ElectronFacts.processNextJob_job now (Some e) later q nextJob
                Hwf Hnext) as (r' & Hget & _ & _ & Hcase).
    exists r'. split; [assumption|].
    rewrite ElectronFacts.processJob_handlerResult in Hcase.
    cbn [ElectronQueue.handlerResult ElectronQueue.p_success
         ElectronQueue.p_retryable ElectronQueue.p_error] in Hcase.
    destruct (ElectronQueue.isRetryableError e
              && (ElectronQueue.attempts nextJob
                  <? length ElectronQueue.backoffSchedule)%nat); tauto.
  - intros cfg e now jitter j. simpl.
    destruct (Nat.leb_spec (LibQueue.maxAttempts j) (S (LibQueue.attempts j))).
    + repeat split; auto; lia.
    + repeat split; auto; try lia. discriminate.
Qed.

(** C3, the amended claim at work: the table after six failures. *)
Lemma C3_attempts_cap_witness :
  List.Forall
    (fun r => (ElectronQueue.attempts r
               <= length ElectronQueue.backoffSchedule)%nat)
    (ElectronQueue.rows Scenarios.tableAfterSixFailures).
Proof.
  apply List.Forall_forall.
  apply (proj1 C3_attempts_cap).
  unfold Scenarios.tableAfterSixFailures, Scenarios.sixFailures.
  reachable_table.
Defined.

(** ** C4: errors that are not retried *)

(** C4, counterexample.  Renderer queue: a job whose handler throws
    ["404 Not Found"] is not dead after its one execution; it is [failed]
    with one attempt counted and [nextRunAt] moved by the backoff delay.
    The classifier of the main-process queue does rate this error as not
    retryable. *)
Lemma C4_renderer_404_takes_backoff_path :
  LibQueue.reachable LibQueue.defaultConfig Scenarios.notFoundOnce
  /\ map (fun j => (LibQueue.status j, LibQueue.attempts j,
                    LibQueue.nextRunAt j, LibQueue.error j))
       (LibQueue.jobs Scenarios.notFoundOnce)
     = [(failed, 1%nat,
         300 + LibQueue.baseDelay LibQueue.defaultConfig 1,
         Some "404 Not Found")]
  /\ ElectronQueue.isRetryableError (ThrownError "404 Not Found") = false.
Proof.
  split; [unfold Scenarios.notFoundOnce; reachable_map|].
  split; vm_compute; reflexivity.
Qed.

(** C4, as amended.  Main-process queue: a job whose handler fails with an
    error the classifier rates as not retryable, such as ["404 Not Found"]
    or ["400 Bad Request"], is dead after that one execution; [attempts] and
    [next_run_at] stay as they were and the message is kept.  Renderer
    queue: there is no classification; what was thrown changes the stored
    message only, and a failure below the cap leaves the job [failed] with
    a backoff [nextRunAt]. *)
Theorem C4_non_retryable_failure :
  (forall q now e later nextJob,
      ElectronQueue.wfTable (ElectronQueue.rows q) ->
      ElectronQueue.getNextJobToProcess now (ElectronQueue.rows q)
        = Some nextJob ->
      ElectronQueue.isRetryableError e = false ->
      exists r',
        ElectronQueue.getJobById (ElectronQueue.id nextJob)
          (ElectronQueue.rows
             (ElectronQueue.processNextJob now (Some e) later q))
        = Some r'
        /\ ElectronQueue.status r' = dead
        /\ ElectronQueue.attempts r' = ElectronQueue.attempts nextJob
        /\ ElectronQueue.next_run_at r' = ElectronQueue.next_run_at nextJob
        /\ ElectronQueue.error_message r'
           = ElectronQueue.orNull (Some (errorText e)))
  /\ ElectronQueue.isRetryableError (ThrownError "404 Not Found") = false
  /\ ElectronQueue.isRetryableError (ThrownError "400 Bad Request") = false
  /\ (forall m, m <> EmptyString ->
      (ElectronQueue.isRetryableError (ThrownError m) = false
       <-> (includes m "network" || includes m "timeout") = false
           /\ (includes m "429" || includes m "rate limit") = false
           /\ (includes m "500" || includes m "502" || includes m "503")
              = false
           /\ ((includes m "401" || includes m "403")
               || (includes m "400" || includes m "404")) = true))
  /\ (forall cfg e e' now jitter j,
      let a := LibQueue.settleJob cfg (LibQueue.Threw e) now jitter j in
      let b := LibQueue.settleJob cfg (LibQueue.Threw e') now jitter j in
      LibQueue.status a = LibQueue.status b
      /\ LibQueue.attempts a = LibQueue.attempts b
      /\ LibQueue.nextRunAt a = LibQueue.nextRunAt b)
  /\ (forall cfg e now jitter j,
      (S (LibQueue.attempts j) < LibQueue.maxAttempts j)%nat ->
      let j' := LibQueue.settleJob cfg (LibQueue.Threw e) now jitter j in
      LibQueue.status j' = failed
      /\ LibQueue.nextRunAt j'
         = LibQueue.calculateNextRunTime cfg (S (LibQueue.attempts j))
             now jitter).
Proof.
  split; [|split; [|split; [|split; [|split]]]].
  - intros q now e later nextJob Hwf Hnext Hnr.
    destruct (ElectronFacts.processNextJob_job now (Some e) later q nextJob
                Hwf Hnext) as (r' & Hget & _ & _ & Hcase).
    exists r'. split; [assumption|].
    rewrite ElectronFacts.processJob_handlerResult in Hcase.
    cbn [ElectronQueue.handlerResult ElectronQueue.p_success
         ElectronQueue.p_retryable ElectronQueue.p_error] in Hcase.
    rewrite Hnr in Hcase. exact Hcase.
  - vm_compute; reflexivity.
  - vm_compute; reflexivity.
  - intros m Hm. destruct m as [|c m]; [contradiction|].
    unfold ElectronQueue.isRetryableError.
    destruct (includes (String c m) "network"
              || includes (String c m) "timeout");
      destruct (includes (String c m) "429"
                || includes (String c m) "rate limit");
      destruct (includes (String c m) "500" || includes (String c m) "502"
                || includes (String c m) "503");
      destruct (includes (String c m) "401" || includes (String c m) "403");
      destruct (includes (String c m) "400" || includes (String c m) "404");
      simpl; intuition congruence.
  - intros. simpl. repeat split.
  - intros cfg e now jitter j Hlt. simpl.
    destruct (Nat.leb_spec (LibQueue.maxAttempts j) (S (LibQueue.attempts j)));
      [lia|]. split; reflexivity.
Qed.

(** C4, the amended claim at work: the one queued job of the table is
    selected and its handler throws ["404 Not Found"]. *)
Lemma C4_non_retryable_witness :
  exists nextJob,
    ElectronQueue.getNextJobToProcess 10000
      (ElectronQueue.rows Scenarios.tableOneQueued) = Some nextJob
    /\ exists r',
        ElectronQueue.getJobById (ElectronQueue.id nextJob)
          (ElectronQueue.rows
             (ElectronQueue.processNextJob 10000
                (Some (ThrownError "404 Not Found")) 11000
                Scenarios.tableOneQueued))
        = Some r'
        /\ ElectronQueue.status r' = dead
        /\ ElectronQueue.attempts r' = ElectronQueue.attempts nextJob
        /\ ElectronQueue.next_run_at r' = ElectronQueue.next_run_at nextJob
        /\ ElectronQueue.error_message r'
           = ElectronQueue.orNull
               (Some (errorText (ThrownError "404 Not Found"))).
Proof.
  eexists. split; [vm_compute; reflexivity|].
  apply (proj1 C4_non_retryable_failure).
  - vm_compute. split; repeat constructor; simpl; tauto.
  - vm_compute; reflexivity.
  - vm_compute; reflexivity.
Defined.

(** ** C5: the operator's retry *)




(** ** C6: the concurrency bound *)

(** C6, the main-process queue at the failing input.  The test
    [activeJobs.size < maxConcurrency] is made when [processQueue] is
    called, and the job is added to [activeJobs] and its row moved to
    [running] only after two selections have been awaited; nothing in
    between keeps a second call from passing the test or from selecting the
    same row.

    One job is due and [processQueue] is called twice in a row: the handler
    of the first call runs ["job_1"], the row is [running] and ["job_1"] is
    in [activeJobs], and the second call, which selected the same row while
    it was still [queued], is answered and hands ["job_1"] to its handler a
    second time.

    Three jobs are due and [processQueue] is called three times, each call
    before the one before has added its job to [activeJobs]: three rows are
    [running] and three jobs are active, with [maxConcurrency] 2. *)
Lemma C6_overlapping_calls_pass_the_bound :
  ElectronQueue.reachableSystem Scenarios.oneJobHandedOver
  /\ (exists J,
        ElectronQueue.calls Scenarios.oneJobHandedOver
        = [ElectronQueue.AwaitHandler J true;
           ElectronQueue.AwaitRunning J 10002 true]
        /\ ElectronQueue.id J = "job_1"
        /\ ElectronQueue.calls Scenarios.sameJobHandedOverAgain
           = [ElectronQueue.AwaitHandler J true;
              ElectronQueue.AwaitHandler J true])
  /\ map (fun r => (ElectronQueue.id r, ElectronQueue.status r))
       (ElectronQueue.rows (ElectronQueue.queue Scenarios.oneJobHandedOver))
     = [("job_1", running)]
  /\ elements
       (ElectronQueue.activeJobs
          (ElectronQueue.queue Scenarios.oneJobHandedOver))
     = ["job_1"]
  /\ ElectronQueue.reachableSystem Scenarios.threeJobsRunning
  /\ map (fun r => (ElectronQueue.id r, ElectronQueue.status r))
       (ElectronQueue.rows (ElectronQueue.queue Scenarios.threeJobsRunning))
     = [("job_1", running); ("job_2", running); ("job_3", running)]
  /\ ElectronQueue.countStatus running
       (ElectronQueue.rows (ElectronQueue.queue Scenarios.threeJobsRunning))
     = 3%nat
  /\ size (ElectronQueue.activeJobs
             (ElectronQueue.queue Scenarios.threeJobsRunning)) = 3%nat
  /\ ElectronQueue.maxConcurrency = 2%nat.
Proof.
  split; [unfold Scenarios.oneJobHandedOver, Scenarios.twoCallsOneJob;
          reachable_system|].
  split; [eexists; repeat split; vm_compute; reflexivity|].
  do 2 (split; [vm_compute; reflexivity|]).
  split; [unfold Scenarios.threeJobsRunning, Scenarios.threeCalls;
          reachable_system|].
  repeat split; vm_compute; reflexivity.
Qed.

(** ** C7: the backoff schedule *)

Lemma backoffSchedule_positive i :
  (i < length ElectronQueue.backoffSchedule)%nat ->
  0 < nth i ElectronQueue.backoffSchedule 0.
Proof.
  unfold ElectronQueue.backoffSchedule. simpl. intros Hi.
  do 6 (destruct i as [|i]; [simpl; lia|]). lia.
Qed.

Lemma backoffSchedule_step i :
  (S i < length ElectronQueue.backoffSchedule)%nat ->
  nth i ElectronQueue.backoffSchedule 0
  < nth (S i) ElectronQueue.backoffSchedule 0.
Proof.
  unfold ElectronQueue.backoffSchedule. simpl. intros Hi.
  do 5 (destruct i as [|i]; [simpl; lia|]). lia.
Qed.

Lemma backoffSchedule_increasing i j :
  (i < j)%nat -> (j < length ElectronQueue.backoffSchedule)%nat ->
  nth i ElectronQueue.backoffSchedule 0 < nth j ElectronQueue.backoffSchedule 0.
Proof.
  induction 1 as [|j Hle IH]; intros Hj.
  - now apply backoffSchedule_step.
  - etransitivity; [apply IH; lia|now apply backoffSchedule_step].
Qed.

Lemma baseDelay_default n :
  LibQueue.baseDelay LibQueue.defaultConfig n
  = if (n <=? 10)%nat then 2 ^ Z.of_nat n * 1000 else 1800000.
Proof.
  unfold LibQueue.baseDelay. simpl.
  destruct (Nat.leb_spec n 10) as [Hle|Hgt].
  - assert (2 ^ Z.of_nat n <= 2 ^ 10) by (apply Z.pow_le_mono_r; lia).
    change (2 ^ 10) with 1024 in *. lia.
  - assert (2 ^ 11 <= 2 ^ Z.of_nat n) by (apply Z.pow_le_mono_r; lia).
    change (2 ^ 11) with 2048 in *. lia.
Qed.

(** C7, counterexample.  Renderer queue: with the default configuration the
    delays of [calculateNextRunTime] before jitter are 2 s, 4 s, 8 s, 16 s,
    32 s and 64 s for attempts 1 to 6, not the table 1 m, 5 m, 15 m, 30 m,
    1 h, 2 h; and from attempt 11 on the delay stays at 30 minutes. *)
Lemma C7_renderer_delay_is_not_the_table :
  map (LibQueue.baseDelay LibQueue.defaultConfig) [1; 2; 3; 4; 5; 6]%nat
  = [2000; 4000; 8000; 16000; 32000; 64000]
  /\ map (fun seconds => seconds * 1000) ElectronQueue.backoffSchedule
     = [60000; 300000; 900000; 1800000; 3600000; 7200000]
  /\ LibQueue.baseDelay LibQueue.defaultConfig 11 = 1800000
  /\ LibQueue.baseDelay LibQueue.defaultConfig 12 = 1800000.
Proof. repeat split; vm_compute; reflexivity. Qed.

(** C7, as amended.  Main-process queue: the schedule is 60, 300, 900,
    1800, 3600, 7200 seconds, strictly increasing; a retryable failure of a
    job selected with [attempts] below 6 sets [next_run_at] to the instant of
    the failure plus the entry for that attempt, which is later than the
    time the job was scheduled for; the job is dead exactly when one more
    attempt would exceed the length of the schedule.  Renderer queue: the
    delay before jitter is [min(maxBackoffMs, backoffMultiplier^attempts *
    1000)]; with the defaults it is [2^attempts] seconds, strictly
    increasing up to attempt 10 and 30 minutes from attempt 11 on. *)
Theorem C7_backoff_schedule :
  ElectronQueue.backoffSchedule = [60; 300; 900; 1800; 3600; 7200]
  /\ (forall i j,
      (i < j)%nat -> (j < length ElectronQueue.backoffSchedule)%nat ->
      nth i ElectronQueue.backoffSchedule 0
      < nth j ElectronQueue.backoffSchedule 0)
  /\ (forall q now e later nextJob,
      ElectronQueue.wfTable (ElectronQueue.rows q) ->
      ElectronQueue.getNextJobToProcess now (ElectronQueue.rows q)
        = Some nextJob ->
      ElectronQueue.isRetryableError e = true ->
      now <= later ->
      exists r',
        ElectronQueue.getJobById (ElectronQueue.id nextJob)
          (ElectronQueue.rows
             (ElectronQueue.processNextJob now (Some e) later q))
        = Some r'
        /\ (ElectronQueue.status r' = dead
            <-> (length ElectronQueue.backoffSchedule
                 < S (ElectronQueue.attempts nextJob))%nat)
        /\ ((ElectronQueue.attempts nextJob
             < length ElectronQueue.backoffSchedule)%nat ->
            ElectronQueue.status r' = queued
            /\ ElectronQueue.next_run_at r'
               = later
                 + nth (ElectronQueue.attempts nextJob)
                     ElectronQueue.backoffSchedule 0 * 1000
            /\ ElectronQueue.next_run_at nextJob
               < ElectronQueue.next_run_at r'))
  /\ (forall n m, (n < m)%nat -> (m <= 10)%nat ->
      LibQueue.baseDelay LibQueue.defaultConfig n
      < LibQueue.baseDelay LibQueue.defaultConfig m)
  /\ (forall n, (11 <= n)%nat ->
      LibQueue.baseDelay LibQueue.defaultConfig n = 30 * 60 * 1000)
  /\ (forall cfg n now jitter,
      LibQueue.calculateNextRunTime cfg n now jitter
      = now + Z.min (LibQueue.maxBackoffMs cfg)
                (LibQueue.backoffMultiplier cfg ^ Z.of_nat n * 1000)
        + jitter).
Proof.
  split; [reflexivity|].
  split; [exact backoffSchedule_increasing|].
  split; [|split; [|split]].
  - intros q now e later nextJob Hwf Hnext Hr Hclock.
    destruct (ElectronFacts.processNextJob_job now (Some e) later q nextJob
                Hwf Hnext) as (r' & Hget & _ & _ & Hcase).
    exists r'. split; [assumption|].
    rewrite ElectronFacts.processJob_handlerResult in Hcase.
    cbn [ElectronQueue.handlerResult ElectronQueue.p_success
         ElectronQueue.p_retryable ElectronQueue.p_error] in Hcase.
    rewrite Hr in Hcase. cbn [andb] in Hcase.
    apply ElectronFacts.getNextJobToProcess_Some in Hnext as (_ & _ & Hdue & _).
    destruct (Nat.ltb_spec (ElectronQueue.attempts nextJob)
                (length ElectronQueue.backoffSchedule)) as [Hlt|Hge].
    + destruct Hcase as (Hst & _ & Hnext' & _).
      pose proof (backoffSchedule_positive _ Hlt).
      split; [|intros _; repeat split; auto; lia].
      rewrite Hst. split; [discriminate|lia].
    + destruct Hcase as (Hst & _). split; [|lia].
      split; [lia|auto].
  - intros n m Hnm Hm. rewrite !baseDelay_default.
    destruct (Nat.leb_spec n 10); [|lia].
    destruct (Nat.leb_spec m 10); [|lia].
    assert (2 ^ Z.of_nat n < 2 ^ Z.of_nat m)
      by (apply Z.pow_lt_mono_r; lia).
    lia.
  - intros n Hn. rewrite baseDelay_default.
    destruct (Nat.leb_spec n 10); [lia|reflexivity].
  - intros. unfold LibQueue.calculateNextRunTime, LibQueue.baseDelay. lia.
Qed.

(** C7, the amended claim at work: the first retryable failure of the
    queued job of the main-process table. *)
Lemma C7_backoff_witness :
  exists nextJob,
    ElectronQueue.getNextJobToProcess 10000
      (ElectronQueue.rows Scenarios.tableOneQueued) = Some nextJob
    /\ exists r',
        ElectronQueue.getJobById (ElectronQueue.id nextJob)
          (ElectronQueue.rows
             (ElectronQueue.processNextJob 10000 Scenarios.unavailable 11000
                Scenarios.tableOneQueued))
        = Some r'
        /\ ElectronQueue.next_run_at nextJob < ElectronQueue.next_run_at r'.
Proof.
  eexists. split; [vm_compute; reflexivity|].
  destruct (proj1 (proj2 (proj2 C7_backoff_schedule))
              Scenarios.tableOneQueued 10000
              (ThrownError "503 Service Unavailable") 11000 _
              ltac:(vm_compute; split; repeat constructor; simpl; tauto)
              ltac:(vm_compute; reflexivity)
              ltac:(vm_compute; reflexivity)
              ltac:(lia))
    as (r' & Hget & _ & Hq).
  exists r'. split; [exact Hget|].
  apply Hq. vm_compute. lia.
Defined.

(** ** C8: the selection of due jobs *)

(** C8, counterexample.  Renderer queue: job B is enqueued when the clock
    reads 10 and job A after the clock was set back, when it reads 5.  A is
    the older job by [createdAt], both are [queued] and due, and the pass
    hands B to [executeJob] before A: it goes by the order of the map. *)
Lemma C8_renderer_pass_ignores_creation_time :
  LibQueue.reachable LibQueue.defaultConfig Scenarios.clockSetBack
  /\ map (fun j => (LibQueue.id j, LibQueue.status j, LibQueue.createdAt j,
                    LibQueue.nextRunAt j))
       (LibQueue.jobs Scenarios.clockSetBack)
     = [("job_B", queued, 10, 10); ("job_A", queued, 5, 5)]
  /\ snd (LibQueue.processQueue 100 (fun _ => LibQueue.Returned "{}") 100 0
            Scenarios.clockSetBack)
     = ["job_B"; "job_A"].
Proof.
  split; [unfold Scenarios.clockSetBack; reachable_map|].
  split; vm_compute; reflexivity.
Qed.

(** C8, as amended.  Main-process queue: the selection holds only stored
    jobs that are [queued] with [next_run_at <= now], oldest [created_at]
    first, at most [limit] of them, and no due job left out is older than
    one selected; [getNextJobToProcess] is the selection with limit 1, so
    with A created before B and both due it is A, whatever the order of the
    rows.  Renderer queue: there is no selection by creation time.  A pass
    takes the first 100 queued jobs in the order of the map and hands over,
    in that order, those with [nextRunAt <= now]; of two jobs that are
    queued, due and within the first 100 queued ones, the one that stands
    first in the map is handed over first, whichever was created first. *)
Theorem C8_due_selection :
  (forall now limit rows,
     let sel := ElectronQueue.selectDue now limit rows in
     (length sel <= limit)%nat
     /\ length sel
        = Nat.min limit
            (length (List.filter (ElectronQueue.isDue now) rows))
     /\ (forall j, In j sel ->
           In j rows /\ ElectronQueue.status j = queued
           /\ ElectronQueue.next_run_at j <= now)
     /\ StronglySorted ElectronQueue.olderEq sel
     /\ (forall j j', In j sel -> In j' rows ->
           ElectronQueue.status j' = queued ->
           ElectronQueue.next_run_at j' <= now -> ~ In j' sel ->
           ElectronQueue.created_at j <= ElectronQueue.created_at j'))
  /\ (forall now rows,
     ElectronQueue.getNextJobToProcess now rows
     = head (ElectronQueue.selectDue now 1 rows))
  /\ (forall now rows A,
     In A rows -> ElectronQueue.status A = queued ->
     ElectronQueue.next_run_at A <= now ->
     (forall j, In j rows -> ElectronQueue.status j = queued ->
        ElectronQueue.next_run_at j <= now ->
        j = A \/ ElectronQueue.created_at A < ElectronQueue.created_at j) ->
     ElectronQueue.getNextJobToProcess now rows = Some A)
  /\ (forall now A B,
     ElectronQueue.status A = queued -> ElectronQueue.status B = queued ->
     ElectronQueue.next_run_at A <= now ->
     ElectronQueue.next_run_at B <= now ->
     ElectronQueue.created_at A < ElectronQueue.created_at B ->
     ElectronQueue.getNextJobToProcess now [A; B] = Some A
     /\ ElectronQueue.getNextJobToProcess now [B; A] = Some A)
  /\ (forall q now env tnow jitter,
     LibQueue.wfMap (LibQueue.jobs q) ->
     LibQueue.isProcessing q = false ->
     LibQueue.runningSet q = ∅ ->
     (1 <= LibQueue.concurrency (LibQueue.config q))%nat ->
     snd (LibQueue.processQueue now env tnow jitter q)
     = map LibQueue.id
         (List.filter (fun j => LibQueue.nextRunAt j <=? now)
            (firstn 100
               (List.filter (fun j => status_eqb (LibQueue.status j) queued)
                  (LibQueue.jobs q))))
     /\ (forall i, In i (snd (LibQueue.processQueue now env tnow jitter q)) ->
         exists j, In j (LibQueue.jobs q) /\ LibQueue.id j = i
                   /\ LibQueue.status j = queued
                   /\ LibQueue.nextRunAt j <= now)
     /\ (forall l1 A l2 B l3,
         LibQueue.jobs q = l1 ++ A :: l2 ++ B :: l3 ->
         LibQueue.status A = queued -> LibQueue.status B = queued ->
         LibQueue.nextRunAt A <= now -> LibQueue.nextRunAt B <= now ->
         (LibQueue.countStatus queued (l1 ++ A :: l2 ++ [B]) <= 100)%nat ->
         exists h1 h2 h3,
           snd (LibQueue.processQueue now env tnow jitter q)
           = h1 ++ LibQueue.id A :: h2 ++ LibQueue.id B :: h3)).
Proof.
  assert (Holdest : forall now rows A,
     In A rows -> ElectronQueue.status A = queued ->
     ElectronQueue.next_run_at A <= now ->
     (forall j, In j rows -> ElectronQueue.status j = queued ->
        ElectronQueue.next_run_at j <= now ->
        j = A \/ ElectronQueue.created_at A < ElectronQueue.created_at j) ->
     ElectronQueue.getNextJobToProcess now rows = Some A).
  { intros now rows A HA Hq Hd Hold.
    apply ElectronFacts.getNextJobToProcess_oldest; auto.
    - apply ElectronFacts.isDue_spec; auto.
    - intros j Hj Hdue. apply ElectronFacts.isDue_spec in Hdue as [? ?].
      auto. }
  split; [|split; [|split; [|split]]].
  - intros now limit rows sel.
    destruct (ElectronFacts.selectDue_spec now limit rows)
      as (Hlen & Hin & Hsorted & Hcut).
    fold sel in Hlen, Hin, Hsorted, Hcut.
    split; [rewrite Hlen; lia|]. split; [exact Hlen|].
    split; [exact Hin|]. split; [exact Hsorted|].
    intros j j' Hj Hj' Hq Hd Hnot. apply (Hcut j j'); auto.
    apply ElectronFacts.isDue_spec; auto.
  - reflexivity.
  - exact Holdest.
  - intros now A B HqA HqB HdA HdB Hlt. split.
    + apply Holdest; auto; [now left|].
      intros j [<-|[<-|[]]] _ _; auto.
    + apply Holdest; auto; [right; now left|].
      intros j [<-|[<-|[]]] _ _; auto.
  - intros q now env tnow jitter Hwf Hidle Hrun Hconc.
    rewrite (LibFacts.processQueue_log now env tnow jitter q
               Hwf Hidle Hrun Hconc).
    cbn [LibQueue.getJobs].
    split; [reflexivity|]. split.
    + intros i Hi. apply in_map_iff in Hi as (j & Hid & Hj).
      apply filter_In in Hj as [Hj Hdue]. apply Z.leb_le in Hdue.
      apply LibFacts.In_firstn_In, filter_In in Hj as [Hj Hq].
      apply status_eqb_true in Hq. exists j. auto.
    + intros l1 A l2 B l3 Hjobs HA HB HdA HdB Hcount. rewrite Hjobs.
      now apply LibFacts.pass_follows_the_map.
Qed.

(** C8, the amended claim at work: in the main-process table B is stored
    before A, A was created first, both are due, and A is selected; in the
    renderer queue B stands before A in the map and is handed over first. *)
Lemma C8_due_selection_witness :
  ElectronQueue.getNextJobToProcess 5 [Scenarios.jobB; Scenarios.jobA]
  = Some Scenarios.jobA
  /\ exists h1 h2 h3,
       snd (LibQueue.processQueue 100 (fun _ => LibQueue.Returned "{}") 100 0
              Scenarios.clockSetBack)
       = h1 ++ "job_B" :: h2 ++ "job_A" :: h3.
Proof.
  split.
  - apply (proj1 (proj2 (proj2 (proj2 C8_due_selection))) 5
             Scenarios.jobA Scenarios.jobB);
      simpl; (reflexivity || lia).
  - assert (Hjobs : exists JB JA,
        LibQueue.jobs Scenarios.clockSetBack = [] ++ JB :: [] ++ JA :: []
        /\ LibQueue.id JB = "job_B" /\ LibQueue.id JA = "job_A"
        /\ LibQueue.status JB = queued /\ LibQueue.status JA = queued
        /\ LibQueue.nextRunAt JB <= 100 /\ LibQueue.nextRunAt JA <= 100)
      by (eexists _, _; repeat split; vm_compute; try reflexivity;
          discriminate).
    destruct Hjobs as (JB & JA & Hjobs & HidB & HidA & HsB & HsA & HdB & HdA).
    rewrite <- HidB, <- HidA.
    destruct (proj2 (proj2 (proj2 (proj2 C8_due_selection)))
                Scenarios.clockSetBack 100
                (fun _ => LibQueue.Returned "{}") 100 0
                ltac:(repeat constructor; not_in_ids)
                eq_refl eq_refl ltac:(simpl; lia))
      as (_ & _ & Horder).
    apply (Horder [] JB [] JA [] Hjobs HsB HsA HdB HdA).
    unfold LibQueue.countStatus. simpl. rewrite HsB, HsA. simpl. lia.
Defined.

(** ** C9: a succeeded job is final *)

(** C9, the main-process queue at the failing input.  One job is due and
    [processQueue] is called twice in a row; both calls select the row
    while it is [queued] and both run its handler (the run of C6).  The
    handler of the first call returns, the row is stored as [succeeded],
    and the first call finds nothing more to do and returns.  The handler
    of the second call then throws ["503 Service Unavailable"]: the UPDATE
    of [updateJobForRetry] names the row by its id alone, whatever its
    status, and the succeeded row becomes [queued] again with one attempt
    and the error message.  The second call is back at the head of its
    loop, no call holds the row, and the next selection after the backoff
    returns it: the job will run once more. *)
Lemma C9_succeeded_row_is_queued_again :
  ElectronQueue.reachableSystem Scenarios.firstCallSucceeded
  /\ map (fun r => (ElectronQueue.id r, ElectronQueue.status r,
                    ElectronQueue.attempts r, ElectronQueue.error_message r))
       (ElectronQueue.rows (ElectronQueue.queue Scenarios.firstCallSucceeded))
     = [("job_1", succeeded, 0%nat, None)]
  /\ ElectronQueue.reachableSystem Scenarios.secondCallFailed
  /\ map (fun r => (ElectronQueue.id r, ElectronQueue.status r,
                    ElectronQueue.attempts r, ElectronQueue.error_message r))
       (ElectronQueue.rows (ElectronQueue.queue Scenarios.secondCallFailed))
     = [("job_1", queued, 1%nat, Some "503 Service Unavailable")]
  /\ ElectronQueue.calls Scenarios.secondCallFailed
     = [ElectronQueue.AwaitLoopSelect 11521]
  /\ option_map ElectronQueue.id
       (ElectronQueue.getNextJobToProcess 100000
          (ElectronQueue.rows
             (ElectronQueue.queue Scenarios.secondCallFailed)))
     = Some "job_1".
Proof.
  assert (Hfirst : ElectronQueue.reachableSystem Scenarios.firstCallSucceeded).
  { unfold Scenarios.firstCallSucceeded, Scenarios.sameJobHandedOverAgain.
    apply ElectronFacts.system_reachable_run; [|repeat constructor].
    apply ElectronQueue.reachable_apply; [|exact I].
    unfold Scenarios.oneJobHandedOver, Scenarios.twoCallsOneJob.
    reachable_system. }
  split; [exact Hfirst|].
  split; [vm_compute; reflexivity|].
  split; [unfold Scenarios.secondCallFailed;
          apply ElectronFacts.system_reachable_run;
          [exact Hfirst|repeat constructor]|].
  repeat split; vm_compute; reflexivity.
Qed.

(** ** C10: the statistics add up *)

(** C10.  In either queue the statistics count every stored job in exactly
    one status bucket: each bucket is the number of stored jobs in that
    status, and [total] is both their sum and the number of stored jobs. *)
Theorem C10_stats_add_up :
  (forall rows : ElectronQueue.table,
     let s := ElectronQueue.getStats rows in
     ElectronQueue.total s
     = (ElectronQueue.n_queued s + ElectronQueue.n_running s
        + ElectronQueue.n_succeeded s + ElectronQueue.n_failed s
        + ElectronQueue.n_dead s)%nat
     /\ ElectronQueue.total s = length rows
     /\ ElectronQueue.n_queued s = ElectronQueue.countStatus queued rows
     /\ ElectronQueue.n_running s = ElectronQueue.countStatus running rows
     /\ ElectronQueue.n_succeeded s
        = ElectronQueue.countStatus succeeded rows
     /\ ElectronQueue.n_failed s = ElectronQueue.countStatus failed rows
     /\ ElectronQueue.n_dead s = ElectronQueue.countStatus dead rows)
  /\ (forall jobs : LibQueue.jobMap,
     let s := LibQueue.getStats jobs in
     LibQueue.total s
     = (LibQueue.n_queued s + LibQueue.n_running s + LibQueue.n_succeeded s
        + LibQueue.n_failed s + LibQueue.n_dead s)%nat
     /\ LibQueue.total s = length jobs
     /\ LibQueue.n_queued s = LibQueue.countStatus queued jobs
     /\ LibQueue.n_running s = LibQueue.countStatus running jobs
     /\ LibQueue.n_succeeded s = LibQueue.countStatus succeeded jobs
     /\ LibQueue.n_failed s = LibQueue.countStatus failed jobs
     /\ LibQueue.n_dead s = LibQueue.countStatus dead jobs).
Proof.
  split.
  - intros rows s. unfold s.
    destruct (ElectronFacts.getStats_counts rows)
      as (Hq & Hr & Hs & Hf & Hd & Ht).
    rewrite Hq, Hr, Hs, Hf, Hd, Ht.
    pose proof (ElectronFacts.countStatus_partition rows).
    repeat split; lia.
  - intros jobs s. unfold s, LibQueue.getStats.
    destruct (LibFacts.bump_fold jobs
                {| LibQueue.total := length jobs; LibQueue.n_queued := 0;
                   LibQueue.n_running := 0; LibQueue.n_succeeded := 0;
                   LibQueue.n_failed := 0; LibQueue.n_dead := 0 |})
      as (Ht & Hq & Hr & Hs & Hf & Hd).
    rewrite Ht, Hq, Hr, Hs, Hf, Hd. simpl.
    pose proof (LibFacts.map_countStatus_partition jobs).
    repeat split; lia.
Qed.

(** ** Further properties *)

(** X1.  Purge of dead jobs, either queue: the answer is the number of
    stored jobs that are dead, and what stays stored is the jobs that are
    not dead, in their order. *)
Theorem X1_purge_dead :
  (forall rows,
     ElectronQueue.clearDeadJobs rows
     = ((true, ElectronQueue.countStatus dead rows),
        List.filter (fun r => negb (status_eqb (ElectronQueue.status r) dead))
          rows))
  /\ (forall q, LibQueue.wfMap (LibQueue.jobs q) ->
     LibQueue.clearDeadJobs q
     = (LibQueue.countStatus dead (LibQueue.jobs q),
        LibQueue.withJobs q
          (List.filter (fun j => negb (status_eqb (LibQueue.status j) dead))
             (LibQueue.jobs q)))).
Proof.
  split.
  - intros rows. unfold ElectronQueue.clearDeadJobs.
    now rewrite ElectronFacts.dead_count.
  - exact LibFacts.clearDeadJobs_spec.
Qed.

(** X1 at work: the dead job of the renderer queue is purged. *)
Lemma X1_purge_dead_witness :
  fst (LibQueue.clearDeadJobs Scenarios.afterRetriedToDeath) = 1%nat
  /\ LibQueue.jobs (snd (LibQueue.clearDeadJobs Scenarios.afterRetriedToDeath))
     = [].
Proof.
  rewrite (proj2 X1_purge_dead Scenarios.afterRetriedToDeath)
    by (vm_compute; repeat constructor; simpl; tauto).
  split; vm_compute; reflexivity.
Defined.

(** X4.  Where the enqueue of a key whose job has succeeded is a replay.
    Main-process queue: a stored job [J] that has succeeded answers every
    later enqueue of its key; nothing is inserted, and two enqueues in a row
    give the same id.  Renderer queue: the same holds when [J] is the first
    stored job with the key, so when it is the only one, and so for a key
    enqueued for the first time whose job then ran and succeeded. *)
Theorem X4_replay_of_succeeded_key :
  (forall (rows : ElectronQueue.table) (J : ElectronQueue.OutboxJob)
          (jobData again : ElectronQueue.JobData) newId newId' now now',
      ElectronQueue.wfTable rows -> In J rows ->
      ElectronQueue.status J = succeeded ->
      ElectronQueue.jd_idempotency_key jobData
        = ElectronQueue.idempotency_key J ->
      ElectronQueue.jd_idempotency_key again
        = ElectronQueue.idempotency_key J ->
      let first := ElectronQueue.addJob jobData newId now rows in
      let second := ElectronQueue.addJob again newId' now' (snd first) in
      ElectronQueue.success (fst first) = true
      /\ ElectronQueue.jobId (fst first) = ElectronQueue.id J
      /\ snd first = rows
      /\ ElectronQueue.jobId (fst second) = ElectronQueue.id J
      /\ snd second = rows)
  /\ (forall (q : LibQueue.Queue) (J : LibQueue.Job) ty pl corr jobId now,
      LibQueue.findJobByIdempotencyKey (LibQueue.idempotencyKey J)
        (LibQueue.jobs q) = Some J ->
      LibQueue.status J = succeeded ->
      LibQueue.addJob ty pl (LibQueue.idempotencyKey J) corr jobId now q
      = (LibQueue.id J, q))
  /\ (forall (q : LibQueue.Queue) (J : LibQueue.Job) ty pl corr jobId now,
      In J (LibQueue.jobs q) ->
      LibQueue.status J = succeeded ->
      (forall J', In J' (LibQueue.jobs q) ->
         LibQueue.idempotencyKey J' = LibQueue.idempotencyKey J -> J' = J) ->
      LibQueue.addJob ty pl (LibQueue.idempotencyKey J) corr jobId now q
      = (LibQueue.id J, q))
  /\ (forall (q : LibQueue.Queue) ty pl key corr jobId now tnow r later jitter
             ty' pl' corr' jobId' now',
      LibQueue.findJobByIdempotencyKey key (LibQueue.jobs q) = None ->
      ~ In jobId (map LibQueue.id (LibQueue.jobs q)) ->
      let first := LibQueue.addJob ty pl key corr jobId now q in
      let done :=
        LibQueue.finishJob jobId (LibQueue.Returned r) later jitter
          (LibQueue.startJob jobId tnow (snd first)) in
      fst first = jobId
      /\ LibQueue.addJob ty' pl' key corr' jobId' now' done = (jobId, done)).
Proof.
  split; [|split; [|split]].
  - intros rows J jobData again newId newId' now now' Hwf HJ _ Hkey Hkey'
      first second.
    assert (Hfirst : first
              = ({| ElectronQueue.success := true;
                    ElectronQueue.jobId := ElectronQueue.id J;
                    ElectronQueue.error := None;
                    ElectronQueue.retryable := None;
                    ElectronQueue.correlationId :=
                      ElectronQueue.correlation_id J |}, rows))
      by (now apply ElectronFacts.addJob_existing).
    unfold second. rewrite Hfirst. simpl.
    rewrite (ElectronFacts.addJob_existing again newId' now' rows J);
      auto.
  - intros q J ty pl corr jobId now Hfind Hst.
    now apply LibFacts.addJob_replay.
  - intros q J ty pl corr jobId now HJ Hst Honly.
    apply LibFacts.addJob_replay; [|assumption].
    unfold LibQueue.findJobByIdempotencyKey.
    destruct (find _ (LibQueue.jobs q)) as [J'|] eqn:Hfind.
    + apply (find_key_Some LibQueue.idempotencyKey) in Hfind as [HJ' Hk].
      now rewrite (Honly J' HJ' Hk).
    + now destruct (find_key_None LibQueue.idempotencyKey _ _ Hfind J HJ).
  - intros. now apply LibFacts.enqueue_run_enqueue.
Qed.

(** X4 at work: the renderer queue after one job was enqueued, ran and
    succeeded; and the main-process table in the same situation. *)
Lemma X4_replay_witness :
  LibQueue.addJob create_label "{}" "label_O1" None "job_2" 900
    Scenarios.oneSucceeded
  = ("job_1", Scenarios.oneSucceeded)
  /\ ElectronQueue.jobId
       (fst (ElectronQueue.addJob Scenarios.labelJob "job_2" 20000
               (ElectronQueue.rows Scenarios.tableOneSucceeded)))
     = "job_1".
Proof.
  split.
  - assert (Hlast : exists J,
        LibQueue.jobs Scenarios.oneSucceeded = [J]
        /\ LibQueue.idempotencyKey J = "label_O1"
        /\ LibQueue.status J = succeeded /\ LibQueue.id J = "job_1")
      by (eexists; repeat split; vm_compute; reflexivity).
    destruct Hlast as (J & Hjobs & Hkey & Hst & Hid).
    rewrite <- Hid, <- Hkey.
    apply (proj1 (proj2 (proj2 X4_replay_of_succeeded_key))).
    + rewrite Hjobs. now left.
    + exact Hst.
    + rewrite Hjobs. intros J' [<-|[]] _. reflexivity.
  - assert (Hrow : exists J,
        ElectronQueue.rows Scenarios.tableOneSucceeded = [J]
        /\ ElectronQueue.idempotency_key J = "label_O1"
        /\ ElectronQueue.status J = succeeded
        /\ ElectronQueue.id J = "job_1")
      by (eexists; repeat split; vm_compute; reflexivity).
    destruct Hrow as (J & Hrows & Hkey & Hst & Hid).
    rewrite <- Hid.
    apply (proj1 X4_replay_of_succeeded_key
             (ElectronQueue.rows Scenarios.tableOneSucceeded) J
             Scenarios.labelJob Scenarios.labelJob "job_2" "job_3"
             20000 30000).
    + rewrite Hrows. split; repeat constructor; simpl; tauto.
    + rewrite Hrows. now left.
    + exact Hst.
    + now rewrite Hkey.
    + now rewrite Hkey.
Defined.


(** ** Listing the stored jobs *)

(** X5.  [getJobs] of the main-process queue.  For a status that is one of
    the five and a limit that is a whole number from 0 to below 2^63, the
    listing holds min(limit, number of stored jobs in that status) jobs, all
    of them stored and in that status, newest first, and no job in that
    status that is left out is newer than a listed one.  A negative whole
    limit above -2^63 lists them all.  A limit of 2^63 or more, or one that
    is not a whole number, makes SQLite reject the statement, and the
    listing is empty.  A status text that is none of the five gives the
    empty list; the empty text is no filter at all; without arguments the
    listing is the 100 newest jobs: no job left out is newer than a listed
    one. *)
Theorem X5_listing_of_jobs :
  (forall st limit rows, 0 <= limit < 2 ^ 63 ->
     let l := ElectronQueue.getJobs (Some (ElectronQueue.statusText st))
                (Some (ElectronQueue.Whole limit)) rows in
     length l
     = Nat.min (Z.to_nat limit) (ElectronQueue.countStatus st rows)
     /\ (forall j, In j l -> In j rows /\ ElectronQueue.status j = st)
     /\ StronglySorted ElectronQueue.newerEq l
     /\ (forall j j', In j l -> In j' rows ->
           ElectronQueue.status j' = st -> ~ In j' l ->
           ElectronQueue.created_at j' <= ElectronQueue.created_at j))
  /\ (forall st limit rows, - 2 ^ 63 < limit < 0 ->
     Permutation
       (ElectronQueue.getJobs (Some (ElectronQueue.statusText st))
          (Some (ElectronQueue.Whole limit)) rows)
       (List.filter (fun r => status_eqb (ElectronQueue.status r) st) rows))
  /\ (forall st limit rows, 2 ^ 63 <= limit ->
     ElectronQueue.getJobs st (Some (ElectronQueue.Whole limit)) rows = [])
  /\ (forall st rows,
     ElectronQueue.getJobs st (Some ElectronQueue.NotWhole) rows = [])
  /\ (forall s limit rows,
     s <> EmptyString ->
     (forall st, ElectronQueue.statusText st <> s) ->
     ElectronQueue.getJobs (Some s) limit rows = [])
  /\ (forall limit rows,
     ElectronQueue.getJobs (Some EmptyString) limit rows
     = ElectronQueue.getJobs None limit rows)
  /\ (forall rows,
     let l := ElectronQueue.getJobs None None rows in
     length l = Nat.min 100 (length rows)
     /\ (forall j, In j l -> In j rows)
     /\ StronglySorted ElectronQueue.newerEq l
     /\ (forall j j', In j l -> In j' rows -> ~ In j' l ->
           ElectronQueue.created_at j' <= ElectronQueue.created_at j)).
Proof.
  split; [|split; [|split; [|split; [|split; [|split]]]]].
  - intros st limit rows Hlimit. cbv zeta.
    rewrite ElectronFacts.getJobs_status.
    rewrite ElectronFacts.limitRows_whole by lia.
    destruct (Z.ltb_spec limit 0) as [Hneg|_]; [lia|].
    destruct (ElectronFacts.newest_first (Z.to_nat limit)
                (List.filter (fun r => status_eqb (ElectronQueue.status r) st)
                   rows)) as (Hlen & Hin & Hsorted & Hcut).
    split; [exact Hlen|]. split; [|split; [exact Hsorted|]].
    + intros j Hj. apply Hin, filter_In in Hj as [Hj Hst].
      split; [exact Hj|]. now apply status_eqb_true.
    + intros j j' Hj Hj' Hst Hnot. apply Hcut; auto.
      apply filter_In. split; [exact Hj'|]. now apply status_eqb_true.
  - intros st limit rows Hneg.
    rewrite ElectronFacts.getJobs_status.
    rewrite ElectronFacts.limitRows_whole by lia.
    destruct (Z.ltb_spec limit 0) as [_|Hpos]; [|lia].
    apply ElectronFacts.orderByCreatedAtDesc_perm.
  - intros st limit rows Hbig.
    unfold ElectronQueue.getJobs, ElectronQueue.limitRows.
    replace (limit <? 2 ^ 63) with false
      by (symmetry; apply Z.ltb_ge; exact Hbig).
    now rewrite andb_false_r.
  - reflexivity.
  - intros s limit rows Hne Hnone. unfold ElectronQueue.getJobs.
    destruct s as [|c s]; [congruence|].
    replace (List.filter _ rows) with (@nil ElectronQueue.OutboxJob).
    + apply ElectronFacts.limitRows_nil.
    + symmetry. induction rows as [|r rows IH]; [reflexivity|]. simpl.
      destruct (String.eqb_spec
                  (ElectronQueue.statusText (ElectronQueue.status r))
                  (String c s)) as [Heq|_]; [|exact IH].
      now destruct (Hnone (ElectronQueue.status r)).
  - reflexivity.
  - intros rows. cbv zeta. unfold ElectronQueue.getJobs.
    rewrite ElectronFacts.limitRows_whole by (split; reflexivity).
    change (100 <? 0) with false. cbv iota.
    change (Z.to_nat 100) with 100%nat.
    exact (ElectronFacts.newest_first 100 rows).
Qed.

(** X5 at work: two jobs, the newer one listed first. *)
Lemma X5_listing_witness :
  length (ElectronQueue.getJobs (Some (ElectronQueue.statusText queued))
            (Some (ElectronQueue.Whole 1)) [Scenarios.jobA; Scenarios.jobB])
  = Nat.min (Z.to_nat 1)
      (ElectronQueue.countStatus queued [Scenarios.jobA; Scenarios.jobB])
  /\ ElectronQueue.getJobs (Some "queued") (Some (ElectronQueue.Whole 1))
       [Scenarios.jobA; Scenarios.jobB] = [Scenarios.jobB]
  /\ ElectronQueue.getJobs (Some "queued")
       (Some (ElectronQueue.Whole (2 ^ 63)))
       [Scenarios.jobA; Scenarios.jobB] = [].
Proof.
  split; [|split; reflexivity].
  apply (proj1 X5_listing_of_jobs queued 1 [Scenarios.jobA; Scenarios.jobB]).
  split; [lia|reflexivity].
Defined.


(** ** The statistics of the main-process queue *)

(** X6.  [oldestJob] in the statistics of the main-process queue is the
    creation time of the oldest queued job: it is the [created_at] of a
    stored queued job and no stored queued job was created earlier.  It is
    absent exactly when no job is queued. *)
Theorem X6_oldest_queued_job :
  forall rows,
    (ElectronQueue.oldestJob (ElectronQueue.getStats rows) = None
     <-> ElectronQueue.countStatus queued rows = 0%nat)
    /\ (forall t,
        ElectronQueue.oldestJob (ElectronQueue.getStats rows) = Some t ->
        (exists j, In j rows /\ ElectronQueue.status j = queued
                   /\ ElectronQueue.created_at j = t)
        /\ forall j, In j rows -> ElectronQueue.status j = queued ->
             t <= ElectronQueue.created_at j).
Proof.
  intros rows. rewrite ElectronFacts.oldestJob_getStats.
  unfold ElectronQueue.countStatus.
  assert (Hq : forall j,
             In j (List.filter
                     (fun r => status_eqb (ElectronQueue.status r) queued) rows)
             <-> In j rows /\ ElectronQueue.status j = queued).
  { intros j. rewrite filter_In, status_eqb_true. tauto. }
  destruct (List.filter (fun r => status_eqb (ElectronQueue.status r) queued)
              rows) as [|r rs].
  - split; [tauto|]. intros t Ht. discriminate.
  - split; [split; simpl; intros; discriminate|].
    intros t Ht. injection Ht as <-.
    destruct (ElectronFacts.fold_min_le (ElectronQueue.created_at r)
                (map ElectronQueue.created_at rs)) as [Hr Hrs].
    split.
    + destruct (ElectronFacts.fold_min_In (ElectronQueue.created_at r)
                  (map ElectronQueue.created_at rs)) as [Heq|Hin].
      * exists r. destruct (proj1 (Hq r)) as [Hin Hst]; [now left|]. auto.
      * apply in_map_iff in Hin as (j & Hj & Hin).
        exists j. destruct (proj1 (Hq j)) as [Hin' Hst]; [now right|]. auto.
    + intros j Hj Hst.
      destruct (proj2 (Hq j) (conj Hj Hst)) as [<-|Hin]; [exact Hr|].
      apply Hrs. now apply in_map.
Qed.

(** X6 at work: of two queued jobs the older one dates the queue. *)
Lemma X6_oldest_witness :
  ElectronQueue.oldestJob
    (ElectronQueue.getStats [Scenarios.jobB; Scenarios.jobA]) = Some 0
  /\ exists j, In j [Scenarios.jobB; Scenarios.jobA]
       /\ ElectronQueue.status j = queued /\ ElectronQueue.created_at j = 0.
Proof.
  split; [reflexivity|].
  apply (proj2 (X6_oldest_queued_job [Scenarios.jobB; Scenarios.jobA]) 0).
  reflexivity.
Defined.


(** ** Enqueue, then look up *)

(** X7.  The answer of an enqueue can be looked up.  Main-process queue
    (ids and keys unique): [addJob] awaits the lookup of the key and then
    the INSERT, and other calls may change the table in between.  The
    enqueue fails exactly when the lookup found no job with the key and,
    by the time of the INSERT, the generated id or the key is stored; it
    then answers with the empty id and [retryable: false] and stores
    nothing.  Otherwise it succeeds, and on the table it leaves
    [getJobHistory] of the returned id gives a stored job with the
    submitted key, the same job the key leads to.  With nothing in between
    it fails exactly when the key is new and the generated id is taken, and
    every row stored before is still stored.  Renderer queue (ids unique,
    no await inside [addJob]): [getJobHistory] of the returned id gives a
    job with the submitted key, either a succeeded job or the job just
    created. *)
Theorem X7_enqueue_then_lookup :
  (forall seen rows jobData newId now,
     ElectronQueue.wfTable seen -> ElectronQueue.wfTable rows ->
     let r := ElectronQueue.addJobInterleaved jobData newId now seen rows in
     let key := ElectronQueue.jd_idempotency_key jobData in
     (ElectronQueue.success (fst r) = false
      <-> ElectronQueue.getJobByIdempotencyKey key seen = None
          /\ (In newId (map ElectronQueue.id rows)
              \/ In key (map ElectronQueue.idempotency_key rows)))
     /\ (ElectronQueue.success (fst r) = false ->
         ElectronQueue.jobId (fst r) = EmptyString
         /\ ElectronQueue.retryable (fst r) = Some false
         /\ snd r = rows)
     /\ (ElectronQueue.success (fst r) = true ->
         ElectronQueue.wfTable (snd r)
         /\ exists j,
              ElectronQueue.getJobHistory (ElectronQueue.jobId (fst r)) (snd r)
              = Some j
              /\ ElectronQueue.getJobByIdempotencyKey key (snd r) = Some j
              /\ ElectronQueue.id j = ElectronQueue.jobId (fst r)
              /\ ElectronQueue.idempotency_key j = key))
  /\ (forall rows jobData newId now,
     ElectronQueue.wfTable rows ->
     let r := ElectronQueue.addJob jobData newId now rows in
     r = ElectronQueue.addJobInterleaved jobData newId now rows rows
     /\ (ElectronQueue.success (fst r) = false
         <-> ElectronQueue.getJobByIdempotencyKey
               (ElectronQueue.jd_idempotency_key jobData) rows = None
             /\ In newId (map ElectronQueue.id rows))
     /\ (forall j, In j rows -> In j (snd r))
     /\ ElectronQueue.wfTable (snd r))
  /\ (forall q ty pl key corr jobId now,
     LibQueue.wfMap (LibQueue.jobs q) ->
     let r := LibQueue.addJob ty pl key corr jobId now q in
     LibQueue.wfMap (LibQueue.jobs (snd r))
     /\ exists j,
          LibQueue.getJobHistory (fst r) (snd r) = Some j
          /\ LibQueue.idempotencyKey j = key
          /\ (LibQueue.status j = succeeded
              \/ (fst r = jobId
                  /\ j = LibQueue.newJob (LibQueue.config q) ty pl key corr
                           jobId now))).
Proof.
  split; [|split].
  - intros seen rows jobData newId now Hseen Hwf. cbv zeta.
    destruct (ElectronFacts.addJobInterleaved_lookup jobData newId now
                seen rows Hseen Hwf)
      as [(Hok & Hwf' & Hj)|(Hfail & Hkey & Htaken & Heq)].
    + split; [|split].
      * split; [congruence|]. intros [Hnone Htaken].
        unfold ElectronQueue.addJobInterleaved in Hok |- *.
        rewrite Hnone in Hok |- *. unfold ElectronQueue.insertRow in Hok |- *.
        destruct (ElectronQueue.constraintFailed _ rows) eqn:Hc;
          [reflexivity|].
        apply ElectronFacts.constraintFailed_false in Hc as [Hid Hk].
        simpl in Hid, Hk. tauto.
      * congruence.
      * intros _. split; [exact Hwf'|exact Hj].
    + split; [|split].
      * split; [auto|intros _; exact Hfail].
      * intros _. rewrite Heq. repeat split.
      * congruence.
  - intros rows jobData newId now Hwf. cbv zeta.
    split; [reflexivity|]. split; [|split].
    + destruct (ElectronFacts.addJob_lookup jobData newId now rows Hwf)
        as [(Hok & _)|(Hfail & Hkey & Hid & _)].
      * split; [congruence|]. intros [Hnone Hid].
        unfold ElectronQueue.addJob, ElectronQueue.addJobInterleaved
          in Hok |- *.
        rewrite Hnone in Hok |- *. unfold ElectronQueue.insertRow in Hok |- *.
        destruct (ElectronQueue.constraintFailed _ rows) eqn:Hc;
          [reflexivity|].
        apply ElectronFacts.constraintFailed_false in Hc as [Hid' _].
        simpl in Hid'. tauto.
      * split; [auto|intros _; exact Hfail].
    + intros j Hj.
      destruct (ElectronFacts.addJob_rows jobData newId now rows)
        as [->|(_ & ->)]; [exact Hj|]. apply in_app_iff. now left.
    + now apply ElectronFacts.addJob_wf.
  - intros q ty pl key corr jobId now Hwf. cbv zeta.
    unfold LibQueue.addJob, LibQueue.getJobHistory.
    assert (Hfresh :
      LibQueue.wfMap
        (LibQueue.mapSet (LibQueue.newJob (LibQueue.config q) ty pl key corr
                            jobId now) (LibQueue.jobs q))
      /\ exists j,
           LibQueue.mapGet jobId
             (LibQueue.mapSet (LibQueue.newJob (LibQueue.config q) ty pl key
                                 corr jobId now) (LibQueue.jobs q)) = Some j
           /\ LibQueue.idempotencyKey j = key
           /\ (LibQueue.status j = succeeded
               \/ (jobId = jobId
                   /\ j = LibQueue.newJob (LibQueue.config q) ty pl key corr
                            jobId now))).
    { split; [now apply LibFacts.mapSet_wf|].
      eexists. split; [|split; [|right; split; reflexivity]].
      - exact (LibFacts.mapGet_mapSet
                 (LibQueue.newJob (LibQueue.config q) ty pl key corr jobId now)
                 (LibQueue.jobs q)).
      - reflexivity. }
    destruct (LibQueue.findJobByIdempotencyKey key (LibQueue.jobs q))
      as [ex|] eqn:Hfind; [|exact Hfresh].
    destruct (status_eqb (LibQueue.status ex) succeeded) eqn:Hst;
      [|exact Hfresh].
    simpl. split; [exact Hwf|]. exists ex.
    apply (find_key_Some LibQueue.idempotencyKey) in Hfind as [Hin Hkey].
    split; [now apply LibFacts.mapGet_In|]. split; [exact Hkey|].
    left. now apply status_eqb_true.
Qed.

(** X7 at work.  Main-process queue: two enqueues of the key
    ["fulfillment_O1"] both find no job with the key on the table that
    holds ["job_1"]; by the time the second one inserts, the first has
    stored ["job_2"], and the second fails although its id is new.
    Renderer queue: a second key is enqueued on the map that holds
    ["job_1"]. *)
Lemma X7_enqueue_witness :
  ElectronQueue.success
    (fst (ElectronQueue.addJobInterleaved Scenarios.fulfillmentJob "job_3" 2
            (ElectronQueue.rows Scenarios.tableOneQueued)
            (snd (ElectronQueue.addJob Scenarios.fulfillmentJob "job_2" 1
                    (ElectronQueue.rows Scenarios.tableOneQueued)))))
  = false
  /\ LibQueue.wfMap
       (LibQueue.jobs
          (snd (LibQueue.addJob create_fulfillment "{}" "fulfillment_O1" None
                  "job_2" 1 Scenarios.oneQueued))).
Proof.
  split.
  - apply (proj1 (proj1 X7_enqueue_then_lookup
                    (ElectronQueue.rows Scenarios.tableOneQueued)
                    (snd (ElectronQueue.addJob Scenarios.fulfillmentJob "job_2"
                            1 (ElectronQueue.rows Scenarios.tableOneQueued)))
                    Scenarios.fulfillmentJob "job_3" 2
                    ltac:(vm_compute; split; repeat constructor; simpl; tauto)
                    ltac:(vm_compute; split; repeat constructor; not_in_ids))).
    split; [reflexivity|]. right. vm_compute. tauto.
  - apply (proj2 (proj2 X7_enqueue_then_lookup) Scenarios.oneQueued
             create_fulfillment "{}" "fulfillment_O1" None "job_2" 1).
    vm_compute. repeat constructor. simpl. tauto.
Defined.


(** ** The public [processQueue] of the main-process queue *)

(** X8.  A call of the public [processQueue] ends.  On a table with unique
    ids, under a clock that does not go back between the two selections of a
    turn, and whatever the handlers do, the loop stops after at most as many
    turns as there are executions left in the table: one for each queued job
    plus one for each entry of the backoff schedule the job has not used,
    hence at most 7 for each queued job.  The call neither adds nor removes
    a job.  If fewer than [maxConcurrency] jobs were active when it started,
    it stops because no queued job is due any more; otherwise it does
    nothing. *)
Theorem X8_processQueue_ends :
  forall turns q,
    ElectronQueue.wfTable (ElectronQueue.rows q) ->
    (forall k, ElectronQueue.t_select (turns k)
               <= ElectronQueue.t_start (turns k)) ->
    exists q' n,
      ElectronQueue.processQueue
        (S (ElectronQueue.workLeft (ElectronQueue.rows q))) turns 0 q
      = Some (q', n)
      /\ (n <= ElectronQueue.workLeft (ElectronQueue.rows q))%nat
      /\ (ElectronQueue.workLeft (ElectronQueue.rows q)
          <= 7 * ElectronQueue.countStatus queued (ElectronQueue.rows q))%nat
      /\ map ElectronQueue.id (ElectronQueue.rows q')
         = map ElectronQueue.id (ElectronQueue.rows q)
      /\ ((size (ElectronQueue.activeJobs q)
           < ElectronQueue.maxConcurrency)%nat ->
          ElectronQueue.getNextJobToProcess
            (ElectronQueue.t_select (turns n)) (ElectronQueue.rows q') = None)
      /\ ((ElectronQueue.maxConcurrency
           <= size (ElectronQueue.activeJobs q))%nat ->
          q' = q /\ n = 0%nat).
Proof.
  intros turns q Hwf Hclock.
  destruct (ElectronFacts.processQueue_ends turns Hclock
              (S (ElectronQueue.workLeft (ElectronQueue.rows q))) q 0%nat Hwf)
    as (q' & n & Hrun & _ & Hn & Hids & Hdone & Hfull); [lia|].
  exists q', n. split; [exact Hrun|]. split; [lia|].
  split; [exact (ElectronFacts.workLeft_bound (ElectronQueue.rows q))|].
  auto.
Qed.

(** X8 at work: two due jobs, the handler failing with
    ["503 Service Unavailable"] each time; the clock stands still, so a
    failed job is not due again within the call. *)
Lemma X8_processQueue_witness :
  exists q' n,
    ElectronQueue.processQueue
      (S (ElectronQueue.workLeft [Scenarios.jobA; Scenarios.jobB]))
      (fun _ => {| ElectronQueue.t_select := 5; ElectronQueue.t_start := 5;
                   ElectronQueue.t_settle := 5;
                   ElectronQueue.t_outcome := Scenarios.unavailable |})
      0
      {| ElectronQueue.rows := [Scenarios.jobA; Scenarios.jobB];
         ElectronQueue.isProcessing := false;
         ElectronQueue.activeJobs := ∅;
         ElectronQueue.inflight := [] |}
    = Some (q', n)
    /\ (n <= ElectronQueue.workLeft [Scenarios.jobA; Scenarios.jobB])%nat.
Proof.
  destruct (X8_processQueue_ends
    (fun _ => {| ElectronQueue.t_select := 5; ElectronQueue.t_start := 5;
                 ElectronQueue.t_settle := 5;
                 ElectronQueue.t_outcome := Scenarios.unavailable |})
    {| ElectronQueue.rows := [Scenarios.jobA; Scenarios.jobB];
       ElectronQueue.isProcessing := false;
       ElectronQueue.activeJobs := ∅;
       ElectronQueue.inflight := [] |})
    as (q' & n & Hrun & Hn & _).
  - split; repeat constructor; simpl; intuition discriminate.
  - intros k. simpl. lia.
  - exists q', n. split; [exact Hrun|exact Hn].
Defined.


(** ** What the renderer is told about a processed job *)




(** ** The statuses the main-process table holds *)

(** X10.  After any sequence of events on the main-process queue no stored
    job is [failed]: the counter [failed] of the statistics is 0 and the
    listing of the failed jobs is empty.  A stored job that is running or
    has succeeded carries no error message. *)
Theorem X10_no_failed_row :
  forall q,
    ElectronQueue.reachable q ->
    (forall r, In r (ElectronQueue.rows q) ->
       ElectronQueue.status r <> failed
       /\ (ElectronQueue.status r = succeeded
           \/ ElectronQueue.status r = running ->
           ElectronQueue.error_message r = None))
    /\ ElectronQueue.n_failed (ElectronQueue.getStats (ElectronQueue.rows q))
       = 0%nat
    /\ forall limit,
         ElectronQueue.getJobs (Some "failed") limit (ElectronQueue.rows q)
         = [].
Proof.
  intros q Hreach.
  assert (Hall : forall r, In r (ElectronQueue.rows q) ->
            ElectronQueue.status r <> failed
            /\ (ElectronQueue.status r = succeeded
                \/ ElectronQueue.status r = running ->
                ElectronQueue.error_message r = None))
    by (intros r Hr;
        exact (proj2 (ElectronFacts.table_reachable_rows q Hreach r Hr))).
  assert (Hnone : List.filter
                    (fun r => status_eqb (ElectronQueue.status r) failed)
                    (ElectronQueue.rows q) = []).
  { induction (ElectronQueue.rows q) as [|r rows IH]; [reflexivity|].
    simpl. destruct (status_eqb (ElectronQueue.status r) failed) eqn:Hst.
    - apply status_eqb_true in Hst.
      now destruct (proj1 (Hall r (or_introl eq_refl))).
    - apply IH. intros r' Hr'. apply Hall. now right. }
  split; [exact Hall|]. split.
  - destruct (ElectronFacts.getStats_counts (ElectronQueue.rows q))
      as (_ & _ & _ & -> & _).
    unfold ElectronQueue.countStatus. now rewrite Hnone.
  - intros limit.
    change "failed"%string with (ElectronQueue.statusText failed).
    rewrite (ElectronFacts.getJobs_status failed limit (ElectronQueue.rows q)).
    rewrite Hnone. apply ElectronFacts.limitRows_nil.
Qed.

(** X10 at work: the table after six retryable failures of its one job. *)
Lemma X10_no_failed_witness :
  ElectronQueue.n_failed
    (ElectronQueue.getStats
       (ElectronQueue.rows Scenarios.tableAfterSixFailures)) = 0%nat.
Proof.
  apply (X10_no_failed_row Scenarios.tableAfterSixFailures).
  unfold Scenarios.tableAfterSixFailures, Scenarios.sixFailures.
  reachable_table.
Defined.


(** ** The renderer queue runs one job at a time *)

(** X11.  A renderer queue that [importJobs] was never called on, after
    any sequence of its other events (enqueues, each under an id that is
    not stored, retries, purges, passes and the settling of jobs), whatever
    its [concurrency] setting: at most one job is in the set [running] and
    at most one stored job has status running, and while a job is in the
    set the flag [isProcessing] is up.  With [concurrency] 0 nothing ever
    runs: every stored job is queued. *)
Theorem X11_one_job_at_a_time :
  forall cfg q,
    LibQueue.reachableImportFree cfg q ->
    (size (LibQueue.runningSet q) <= 1)%nat
    /\ (LibQueue.countStatus running (LibQueue.jobs q) <= 1)%nat
    /\ (LibQueue.runningSet q <> ∅ -> LibQueue.isProcessing q = true)
    /\ (LibQueue.concurrency cfg = 0%nat ->
        forall j, In j (LibQueue.jobs q) -> LibQueue.status j = queued).
Proof.
  intros cfg q Hreach.
  pose proof (LibFacts.map_reachable_Invariant _ _ Hreach) as Hinv.
  pose proof (LibFacts.running_le_set _ _ Hinv) as Hle.
  pose proof (LibFacts.map_running_is_awaited _ _ Hreach) as Hset.
  assert (Hsize : (size (LibQueue.runningSet q) <= 1)%nat).
  { rewrite Hset. destruct (LibQueue.pass q) as [[pnow todo [a|]]|];
      rewrite ?size_singleton, ?size_empty; lia. }
  split; [exact Hsize|]. split; [lia|]. split.
  - intros Hne. destruct (LibQueue.pass q) as [p|] eqn:Hpass.
    + exact (LibFacts.map_inv_busy _ _ _ Hinv Hpass).
    + now rewrite Hset in Hne.
  - intros Hzero. exact (proj2 (LibFacts.map_concurrency_zero _ _ Hzero Hreach)).
Qed.

(** X11 at work: the queue while its one job runs. *)
Lemma X11_one_job_witness :
  (size (LibQueue.runningSet Scenarios.oneRunning) <= 1)%nat
  /\ (LibQueue.countStatus running (LibQueue.jobs Scenarios.oneRunning)
      <= 1)%nat.
Proof.
  assert (Hreach : LibQueue.reachableImportFree LibQueue.defaultConfig
                     Scenarios.oneRunning).
  { unfold Scenarios.oneRunning. reachable_import_free. }
  destruct (X11_one_job_at_a_time _ _ Hreach) as (Hsize & Hcount & _).
  split; [exact Hsize|exact Hcount].
Defined.


(** ** The attempt count in the renderer queue *)

(** X12.  A renderer queue that [importJobs] was never called on, after
    any sequence of its other events (enqueues, each under an id that is
    not stored, retries, purges, passes and the settling of jobs): every
    stored job carries the cap
    [maxAttempts] of the configuration, and its attempts never pass the cap
    by more than one; they are within the cap unless the job is dead, and
    below the cap while the job is failed.  Hence [retryJob] never meets a
    failed job whose attempts are used up: it returns true exactly when the
    job is stored and failed. *)
Theorem X12_renderer_attempts_bound :
  forall cfg q,
    LibQueue.reachableImportFree cfg q ->
    (forall j, In j (LibQueue.jobs q) ->
       LibQueue.maxAttempts j = LibQueue.cfg_maxAttempts cfg
       /\ (LibQueue.attempts j <= S (LibQueue.maxAttempts j))%nat
       /\ (LibQueue.status j <> dead ->
           (LibQueue.attempts j <= LibQueue.maxAttempts j)%nat)
       /\ (LibQueue.status j = failed ->
           (LibQueue.attempts j < LibQueue.maxAttempts j)%nat))
    /\ (forall jobId now jitter,
        fst (LibQueue.retryJob jobId now jitter q) = true
        <-> exists job,
              LibQueue.mapGet jobId (LibQueue.jobs q) = Some job
              /\ LibQueue.status job = failed).
Proof.
  intros cfg q Hreach.
  pose proof (LibFacts.map_attempts cfg q Hreach) as Hall.
  split; [exact Hall|].
  intros jobId now jitter.
  destruct (LibFacts.retryJob_cases jobId now jitter q)
    as [[-> Hnot]|[(job & Hget & Hst & Hmax & _)|(job & Hget & Hst & _ & ->)]].
  - split; [discriminate|]. intros (job & Hget & Hst).
    now destruct (Hnot job Hget).
  - pose proof Hget as Hin. apply LibFacts.mapGet_Some in Hin as [Hin _].
    destruct (Hall job Hin) as (_ & _ & _ & Hfailed).
    specialize (Hfailed Hst). lia.
  - split; [|reflexivity]. intros _. now exists job.
Qed.

(** X12 at work: the queue whose one job has failed once. *)
Lemma X12_attempts_witness :
  fst (LibQueue.retryJob "job_1" 400 0 Scenarios.notFoundOnce) = true
  /\ exists job,
        LibQueue.mapGet "job_1" (LibQueue.jobs Scenarios.notFoundOnce)
        = Some job
        /\ LibQueue.status job = failed.
Proof.
  assert (Hreach : LibQueue.reachableImportFree LibQueue.defaultConfig
                     Scenarios.notFoundOnce).
  { unfold Scenarios.notFoundOnce. reachable_import_free. }
  assert (Hjob : exists job,
             LibQueue.mapGet "job_1" (LibQueue.jobs Scenarios.notFoundOnce)
             = Some job
             /\ LibQueue.status job = failed).
  { eexists. split; vm_compute; reflexivity. }
  split; [|exact Hjob].
  exact (proj2 (proj2 (X12_renderer_attempts_bound _ _ Hreach) "job_1" 400 0)
           Hjob).
Defined.

(** ** A failed job of the renderer queue waits for the operator *)

(** X13.  The renderer queue retries nothing by itself.  In a queue that
    [importJobs] was never called on, after any sequence of its other
    events (an enqueue coming under an id that is not stored), a stored job
    that is failed is left as it is by every such
    event but a [retryJob] of its id: enqueues, purges, passes over the
    queue and the settling of other jobs do not touch it, and no turn of a
    pass hands it to [executeJob].  A stored job that is dead is left as it
    is by every such event but [clearDeadJobs], and a stored job that has
    succeeded by every such event. *)
Theorem X13_failed_job_waits :
  forall cfg q e J,
    LibQueue.reachableImportFree cfg q ->
    LibQueue.admissible e q -> LibQueue.importFree e ->
    In J (LibQueue.jobs q) ->
    (LibQueue.status J = failed ->
     (forall jobId now jitter,
        e = LibQueue.EvRetryJob jobId now jitter -> jobId <> LibQueue.id J) ->
     In J (LibQueue.jobs (LibQueue.apply e q))
     /\ LibQueue.getJobHistory (LibQueue.id J) (LibQueue.apply e q) = Some J)
    /\ (LibQueue.status J = failed ->
        forall tnow, snd (LibQueue.loopTurn tnow q) <> Some (LibQueue.id J))
    /\ (LibQueue.status J = dead -> e <> LibQueue.EvClearDeadJobs ->
        In J (LibQueue.jobs (LibQueue.apply e q))
        /\ LibQueue.getJobHistory (LibQueue.id J) (LibQueue.apply e q)
           = Some J)
    /\ (LibQueue.status J = succeeded ->
        In J (LibQueue.jobs (LibQueue.apply e q))
        /\ LibQueue.getJobHistory (LibQueue.id J) (LibQueue.apply e q)
           = Some J).
Proof.
  intros cfg q e J Hreach Hadm Hfree HJ.
  pose proof (LibFacts.map_reachable_Invariant _ _ Hreach) as Hinv.
  pose proof (LibFacts.map_inv_apply _ _ _ Hinv Hadm Hfree) as Hinv'.
  split; [|split; [|split]].
  - intros Hst Hretry.
    assert (Hkept : In J (LibQueue.jobs (LibQueue.apply e q))).
    { apply (LibFacts.map_parked_kept cfg); auto;
        try (rewrite Hst; discriminate).
      intros jobId now jitter Heq. left. exact (Hretry jobId now jitter Heq). }
    split; [exact Hkept|].
    apply LibFacts.mapGet_In; [apply Hinv'|exact Hkept].
  - intros Hst tnow Hturn.
    destruct (LibFacts.loopTurn_cases tnow q)
      as [[_ Hnone]|(p & jobId & rest & job & Hp & _ & Htodo & _ & Hget & _ & _
                     & Heq)]; [congruence|].
    rewrite Heq in Hturn. simpl in Hturn. injection Hturn as ->.
    assert (Hq : LibQueue.status J = queued).
    { apply (LibQueue.inv_todo _ _ Hinv p (LibQueue.id J) J Hp); auto.
      rewrite Htodo. now left. }
    congruence.
  - intros Hst Hclear.
    assert (Hkept : In J (LibQueue.jobs (LibQueue.apply e q))).
    { apply (LibFacts.map_parked_kept cfg); auto;
        try (rewrite Hst; discriminate).
      intros jobId now jitter _. right. rewrite Hst. discriminate. }
    split; [exact Hkept|].
    apply LibFacts.mapGet_In; [apply Hinv'|exact Hkept].
  - intros Hst.
    assert (Hkept : In J (LibQueue.jobs (LibQueue.apply e q)))
      by now apply (LibFacts.map_succeeded_kept cfg).
    split; [exact Hkept|].
    apply LibFacts.mapGet_In; [apply Hinv'|exact Hkept].
Qed.


(** X13 at work: the job that failed with ["404 Not Found"] is past its
    [nextRunAt] and a new pass starts; the job stays failed. *)
Lemma X13_failed_witness :
  exists J,
    In J (LibQueue.jobs Scenarios.notFoundOnce)
    /\ LibQueue.status J = failed
    /\ LibQueue.nextRunAt J <= 100000
    /\ LibQueue.getJobHistory (LibQueue.id J)
         (LibQueue.apply (LibQueue.EvProcessQueue 100000)
            Scenarios.notFoundOnce) = Some J.
Proof.
  assert (Hreach : LibQueue.reachableImportFree LibQueue.defaultConfig
                     Scenarios.notFoundOnce).
  { unfold Scenarios.notFoundOnce. reachable_import_free. }
  eexists. split; [vm_compute; left; reflexivity|].
  split; [reflexivity|]. split; [vm_compute; discriminate|].
  apply (proj1 (X13_failed_job_waits LibQueue.defaultConfig
                  Scenarios.notFoundOnce (LibQueue.EvProcessQueue 100000) _
                  Hreach I I ltac:(vm_compute; left; reflexivity))).
  - reflexivity.
  - intros jobId now jitter Heq. discriminate Heq.
Defined.


(** ** Export and import of the renderer queue *)

(** X14.  [exportJobs] and [importJobs] of the renderer queue.  Importing a
    list of jobs with distinct ids and exporting again gives the list back,
    in its order; importing what was exported from a queue with distinct
    ids gives the queue back.  For any list the imported map has distinct
    ids, and under an id it holds the last job of the list with that id.
    The import touches nothing but the map: the set [running], the flag
    [isProcessing] and the configuration stay as they were. *)
Theorem X14_export_import :
  (forall l q,
     List.NoDup (map LibQueue.id l) ->
     LibQueue.exportJobs (LibQueue.importJobs l q) = l)
  /\ (forall q,
     LibQueue.wfMap (LibQueue.jobs q) ->
     LibQueue.importJobs (LibQueue.exportJobs q) q = q)
  /\ (forall l q,
     LibQueue.wfMap (LibQueue.jobs (LibQueue.importJobs l q))
     /\ (forall i,
         LibQueue.getJobHistory i (LibQueue.importJobs l q)
         = find (LibQueue.hasId i) (rev l))
     /\ LibQueue.runningSet (LibQueue.importJobs l q) = LibQueue.runningSet q
     /\ LibQueue.isProcessing (LibQueue.importJobs l q)
        = LibQueue.isProcessing q
     /\ LibQueue.config (LibQueue.importJobs l q) = LibQueue.config q).
Proof.
  split; [|split].
  - intros l q Hnd. unfold LibQueue.exportJobs, LibQueue.importJobs. simpl.
    now apply (LibFacts.import_distinct l []).
  - intros q Hwf. unfold LibQueue.exportJobs, LibQueue.importJobs.
    rewrite (LibFacts.import_distinct (LibQueue.jobs q) []) by exact Hwf.
    now destruct q.
  - intros l q. split; [|split; [|repeat split]].
    + apply LibFacts.import_wf. constructor.
    + intros i. unfold LibQueue.getJobHistory, LibQueue.importJobs. simpl.
      rewrite LibFacts.import_lookup.
      now destruct (find (LibQueue.hasId i) (rev l)).
Qed.

(** X14 at work: the two jobs stored after the run [oneKeyTwice]. *)
Lemma X14_export_import_witness :
  LibQueue.exportJobs
    (LibQueue.importJobs [Scenarios.failedFirst; Scenarios.succeededSecond]
       (LibQueue.create LibQueue.defaultConfig))
  = [Scenarios.failedFirst; Scenarios.succeededSecond].
Proof.
  apply (proj1 X14_export_import).
  repeat constructor; simpl; intuition discriminate.
Defined.


(** ** The job list of the view against the queue *)

(** X15.  What [JobQueueView] shows after a refresh of [useJobQueue].  The
    hook copies the first 100 jobs of the map, and the statistics of all of
    them.  So the list holds min(100, total) jobs; under a status filter the
    view shows a prefix of what [getJobs(status)] returns, and no more jobs
    than the counter of that status says.  With at most 100 jobs stored the
    list is the whole map, the filtered list is [getJobs(status)] and its
    length is the counter. *)
Theorem X15_view_against_queue :
  forall q s,
    let st := JobQueueView.refresh q in
    let shown :=
      JobQueueView.filteredJobs (JobQueueView.SelStatus s)
        (JobQueueView.h_jobs st) in
    length (JobQueueView.h_jobs st)
    = Nat.min 100 (LibQueue.total (JobQueueView.h_stats st))
    /\ JobQueueView.statOf s (JobQueueView.h_stats st)
       = LibQueue.countStatus s (LibQueue.jobs q)
    /\ (length shown
        <= JobQueueView.statOf s (JobQueueView.h_stats st))%nat
    /\ (exists rest, JobQueueView.getJobsByStatus s q = shown ++ rest)
    /\ ((length (LibQueue.jobs q) <= 100)%nat ->
        JobQueueView.h_jobs st = LibQueue.jobs q
        /\ shown = JobQueueView.getJobsByStatus s q
        /\ length shown
           = JobQueueView.statOf s (JobQueueView.h_stats st)).
Proof.
  intros q s. cbv zeta.
  unfold JobQueueView.refresh, JobQueueView.getJobsByStatus,
    JobQueueView.filteredJobs, LibQueue.getJobs.
  cbn [JobQueueView.h_jobs JobQueueView.h_stats].
  destruct (LibFacts.getStats_fields (LibQueue.jobs q))
    as (Htotal & Hq & Hr & Hs & Hf & Hd).
  assert (Hstat : JobQueueView.statOf s (LibQueue.getStats (LibQueue.jobs q))
                  = LibQueue.countStatus s (LibQueue.jobs q))
    by (destruct s; assumption).
  destruct (LibFacts.filter_firstn_prefix
              (fun j => status_eqb (LibQueue.status j) s) 100
              (LibQueue.jobs q)) as (rest & Hrest).
  split; [rewrite Htotal; apply List.length_firstn|].
  split; [exact Hstat|]. split; [|split].
  - rewrite Hstat. unfold LibQueue.countStatus.
    rewrite <- (firstn_skipn 100 (LibQueue.jobs q)) at 2.
    rewrite List.filter_app, List.length_app. lia.
  - exists rest. exact Hrest.
  - intros Hsmall.
    rewrite (List.firstn_all2 (LibQueue.jobs q)) by exact Hsmall.
    split; [reflexivity|].
    rewrite List.firstn_all2
      by (etransitivity; [apply filter_length_le|exact Hsmall]).
    split; [reflexivity|]. now rewrite Hstat.
Qed.

(** X15 at work: the two jobs stored after the run [oneKeyTwice]. *)
Lemma X15_view_witness :
  JobQueueView.h_jobs (JobQueueView.refresh Scenarios.afterOneKeyTwice)
  = LibQueue.jobs Scenarios.afterOneKeyTwice
  /\ JobQueueView.filteredJobs (JobQueueView.SelStatus failed)
       (JobQueueView.h_jobs (JobQueueView.refresh Scenarios.afterOneKeyTwice))
     = JobQueueView.getJobsByStatus failed Scenarios.afterOneKeyTwice.
Proof.
  destruct (X15_view_against_queue Scenarios.afterOneKeyTwice failed)
    as (_ & _ & _ & _ & Hsmall).
  destruct Hsmall as (Hjobs & Hshown & _); [vm_compute; lia|].
  split; [exact Hjobs|exact Hshown].
Defined.


(** ** The duration shown for a job *)

(** X16.  [formatDuration] of [JobQueueView], for two valid dates that are
    [diff] milliseconds apart.  Below one minute, and for every negative
    [diff], the text is the whole number of seconds followed by [s].  From
    one minute to below one hour it is [<m>m <s>s] with 1 <= m < 60 and
    0 <= s < 60, short of [diff] by less than a second.  From one hour on it
    is [<h>h <m>m] with 0 <= m < 60, short of [diff] by less than a minute:
    the seconds are not shown. *)
Theorem X16_duration_text :
  forall startDate endDate,
    let diff := endDate - startDate in
    let text := JobQueueView.formatDuration startDate endDate in
    (diff < 60000 -> text = (JobQueueView.showZ (diff / 1000) ++ "s")%string)
    /\ (60000 <= diff < 3600000 ->
        let m := diff / 60000 in
        let s := (diff / 1000) mod 60 in
        text = (JobQueueView.showZ m ++ "m " ++ JobQueueView.showZ s ++ "s")%string
        /\ 1 <= m < 60 /\ 0 <= s < 60
        /\ m * 60000 + s * 1000 <= diff < m * 60000 + s * 1000 + 1000)
    /\ (3600000 <= diff ->
        let h := diff / 3600000 in
        let m := (diff / 60000) mod 60 in
        text = (JobQueueView.showZ h ++ "h " ++ JobQueueView.showZ m ++ "m")%string
        /\ 1 <= h /\ 0 <= m < 60
        /\ h * 3600000 + m * 60000 <= diff
           < h * 3600000 + m * 60000 + 60000).
Proof.
  intros startDate endDate. cbv zeta. unfold JobQueueView.formatDuration.
  set (diff := endDate - startDate).
  assert (Hm : diff / 1000 / 60 = diff / 60000)
    by (rewrite Z.div_div by lia; reflexivity).
  assert (Hh : diff / 1000 / 60 / 60 = diff / 3600000)
    by (rewrite !Z.div_div by lia; reflexivity).
  rewrite Hh, Hm.
  split; [|split].
  - intros Hlt.
    assert (diff / 3600000 < 1) by (apply Z.div_lt_upper_bound; lia).
    assert (diff / 60000 < 1) by (apply Z.div_lt_upper_bound; lia).
    destruct (Z.ltb_spec 0 (diff / 3600000)); [lia|].
    destruct (Z.ltb_spec 0 (diff / 60000)); [lia|]. reflexivity.
  - intros [Hlo Hhi].
    assert (diff / 3600000 < 1) by (apply Z.div_lt_upper_bound; lia).
    assert (1 <= diff / 60000) by (apply Z.div_le_lower_bound; lia).
    assert (diff / 60000 < 60) by (apply Z.div_lt_upper_bound; lia).
    assert (0 <= diff / 1000) by (apply Z.div_pos; lia).
    destruct (Z.ltb_spec 0 (diff / 3600000)); [lia|].
    destruct (Z.ltb_spec 0 (diff / 60000)); [|lia].
    rewrite Z.rem_mod_nonneg by lia.
    split; [reflexivity|]. split; [lia|].
    pose proof (Z.mod_pos_bound (diff / 1000) 60 ltac:(lia)).
    split; [lia|].
    pose proof (Z.div_mod (diff / 1000) 60 ltac:(lia)) as Hs.
    rewrite Hm in Hs.
    pose proof (Z.div_mod diff 1000 ltac:(lia)) as Hd.
    pose proof (Z.mod_pos_bound diff 1000 ltac:(lia)).
    lia.
  - intros Hlo.
    assert (1 <= diff / 3600000) by (apply Z.div_le_lower_bound; lia).
    assert (0 <= diff / 60000) by (apply Z.div_pos; lia).
    destruct (Z.ltb_spec 0 (diff / 3600000)); [|lia].
    rewrite Z.rem_mod_nonneg by lia.
    split; [reflexivity|]. split; [lia|].
    pose proof (Z.mod_pos_bound (diff / 60000) 60 ltac:(lia)).
    split; [lia|].
    pose proof (Z.div_mod (diff / 60000) 60 ltac:(lia)) as Hs.
    replace (diff / 60000 / 60) with (diff / 3600000) in Hs
      by (rewrite Z.div_div by lia; reflexivity).
    pose proof (Z.div_mod diff 60000 ltac:(lia)) as Hd.
    pose proof (Z.mod_pos_bound diff 60000 ltac:(lia)).
    lia.
Qed.

(** X16 at work: a job updated 1 h 1 min 5.5 s after its creation. *)
Lemma X16_duration_witness :
  JobQueueView.formatDuration 1000 3666500 = "1h 1m"
  /\ 1 * 3600000 + 1 * 60000 <= 3666500 - 1000
     < 1 * 3600000 + 1 * 60000 + 60000.
Proof.
  destruct (proj2 (proj2 (X16_duration_text 1000 3666500)))
    as (Htext & _ & _ & Hbounds); [lia|].
  split; [exact Htext|exact Hbounds].
Defined.


(** ** The main-process queue over the database manager *)

(** X17.  The methods of the main-process queue over the database manager
    as the repository has it.  While the manager's [initialize] has not
    run, every call to it throws ["Database not initialized"], and what the
    callers see is: [addJob] fails with that message, the empty id and
    [retryable: false]; [retryJob] answers ["Job not found"] for every id;
    [clearDeadJobs] answers [success: false] with count 0; the statistics
    are all 0; the listing is empty and no job has a history;
    [processNextJob] finds nothing to do; [initialize] of the queue throws
    the error on and does not start the timer.  When the manager is open
    and [outbox_jobs] is the table of its own [createTables], without the
    columns [error_message] and [last_attempt_at]: both UPDATE
    statements of the queue are rejected and the error is swallowed, so
    [updateJobStatus] and [updateJobForRetry] change nothing, a whole
    [processNextJob] leaves the table as it was, whatever the handler did,
    and the same job is selected again; [retryJob] of a dead job answers
    [success: true] and changes nothing. *)
Theorem X17_database_not_initialized :
  (forall jobData newId now,
     ElectronStore.addJob jobData newId now ElectronStore.Closed
     = ({| ElectronQueue.success := false;
           ElectronQueue.jobId := "";
           ElectronQueue.error := Some "Database not initialized";
           ElectronQueue.retryable := Some false;
           ElectronQueue.correlationId := None |}, ElectronStore.Closed))
  /\ (forall jobId now,
     ElectronStore.retryJob jobId now ElectronStore.Closed
     = ({| ElectronQueue.r_success := false;
           ElectronQueue.r_error := Some "Job not found" |},
        ElectronStore.Closed))
  /\ ElectronStore.clearDeadJobs ElectronStore.Closed
     = ((false, 0%nat), ElectronStore.Closed)
  /\ ElectronStore.getStats ElectronStore.Closed = ElectronQueue.emptyStats
  /\ (forall st limit,
     ElectronStore.getJobs st limit ElectronStore.Closed = [])
  /\ (forall jobId,
     ElectronStore.getJobHistory jobId ElectronStore.Closed = None)
  /\ (forall now outcome later,
     ElectronStore.processNextJob now outcome later ElectronStore.Closed
     = ElectronStore.Closed)
  /\ ElectronStore.initialize ElectronStore.Closed
     = (inl (ThrownError "Database not initialized"), false)
  /\ (forall rows jobId st msg n t now,
     ElectronStore.updateJobStatus jobId st msg now
       (ElectronStore.Open false rows)
     = ElectronStore.Open false rows
     /\ ElectronStore.updateJobForRetry jobId n t msg now
          (ElectronStore.Open false rows)
        = ElectronStore.Open false rows)
  /\ (forall rows now outcome later now',
     ElectronStore.processNextJob now outcome later
       (ElectronStore.Open false rows)
     = ElectronStore.Open false rows
     /\ ElectronStore.getNextJobToProcess now'
          (ElectronStore.processNextJob now outcome later
             (ElectronStore.Open false rows))
        = ElectronQueue.getNextJobToProcess now' rows)
  /\ (forall rows jobId now job,
     ElectronQueue.getJobById jobId rows = Some job ->
     ElectronQueue.status job = dead ->
     ElectronStore.retryJob jobId now (ElectronStore.Open false rows)
     = ({| ElectronQueue.r_success := true;
           ElectronQueue.r_error := None |},
        ElectronStore.Open false rows)).
Proof.
  assert (Hpass : forall rows now outcome later,
            ElectronStore.processNextJob now outcome later
              (ElectronStore.Open false rows)
            = ElectronStore.Open false rows).
  { intros rows now outcome later. unfold ElectronStore.processNextJob.
    destruct (ElectronStore.getNextJobToProcess now _) as [nextJob|];
      [|reflexivity].
    cbv zeta. destruct (ElectronQueue.p_success _); [reflexivity|].
    destruct (_ && _); reflexivity. }
  repeat match goal with |- _ /\ _ => split end; try reflexivity.
  - intros rows jobId st msg n t now. split; reflexivity.
  - intros rows now outcome later now'. split; [apply Hpass|].
    rewrite Hpass. reflexivity.
  - intros rows jobId now job Hget Hdead.
    unfold ElectronStore.retryJob, ElectronStore.getJobById,
      ElectronStore.getJobHistory. simpl.
    unfold ElectronQueue.getJobById, ElectronQueue.getJobHistory in Hget.
    rewrite Hget, Hdead. reflexivity.
Qed.

(** X17 at work: the table whose one job is dead, in a file the manager
    opened; the retry is answered with success and the job stays dead. *)
Lemma X17_database_witness :
  ElectronStore.retryJob "job_1" 14000000
    (ElectronStore.Open false (ElectronQueue.rows Scenarios.tableOneDead))
  = ({| ElectronQueue.r_success := true; ElectronQueue.r_error := None |},
     ElectronStore.Open false (ElectronQueue.rows Scenarios.tableOneDead))
  /\ map ElectronQueue.status (ElectronQueue.rows Scenarios.tableOneDead)
     = [dead].
Proof.
  split; [|vm_compute; reflexivity].
  eapply (proj2 (proj2 (proj2 (proj2 (proj2 (proj2 (proj2 (proj2 (proj2
            (proj2 X17_database_not_initialized))))))))));
    vm_compute; reflexivity.
Defined.


(** ** The idempotency keys of the pick-and-pack screen *)

(** X20.  The keys [handleComplete] of [BenchView] builds carry the clock:
    for one order two label keys, or two fulfillment keys, are equal
    exactly when they were built in the same millisecond, and a label key
    is never a fulfillment key.  On the main-process queue (generated ids
    new, keys not yet stored) the first completion of an order is stored
    under its new id; a second completion of the same order at another
    millisecond is stored as a second label job, and only one within the
    same millisecond is answered with the id of the first and stores
    nothing. *)
Theorem X20_pick_screen_keys :
  (forall o t1 t2, BenchView.labelKey o t1 = BenchView.labelKey o t2
                   <-> t1 = t2)
  /\ (forall o t1 t2,
      BenchView.fulfillmentKey o t1 = BenchView.fulfillmentKey o t2
      <-> t1 = t2)
  /\ (forall o o' t t',
      BenchView.labelKey o t <> BenchView.fulfillmentKey o' t')
  /\ (forall rows o p p' t1 r1 id1 now1 t2 r2 id2 now2,
      ElectronQueue.wfTable rows ->
      ~ In id1 (map ElectronQueue.id rows) ->
      ~ In id2 (map ElectronQueue.id rows) ->
      id1 <> id2 ->
      ~ In (BenchView.labelKey o t1)
           (map ElectronQueue.idempotency_key rows) ->
      ~ In (BenchView.labelKey o t2)
           (map ElectronQueue.idempotency_key rows) ->
      let first :=
        ElectronQueue.addJob (BenchView.labelJobData o p t1 r1) id1 now1 rows
      in
      let second :=
        ElectronQueue.addJob (BenchView.labelJobData o p' t2 r2) id2 now2
          (snd first) in
      ElectronQueue.jobId (fst first) = id1
      /\ (t1 <> t2 ->
          ElectronQueue.jobId (fst second) = id2
          /\ snd second
             = rows
               ++ [ElectronQueue.makeJob (BenchView.labelJobData o p t1 r1)
                     id1 now1;
                   ElectronQueue.makeJob (BenchView.labelJobData o p' t2 r2)
                     id2 now2])
      /\ (t1 = t2 ->
          ElectronQueue.jobId (fst second) = id1
          /\ snd second = snd first)).
Proof.
  assert (Hlabel : forall o t1 t2,
            BenchView.labelKey o t1 = BenchView.labelKey o t2 <-> t1 = t2).
  { intros o t1 t2. split; [|now intros ->].
    unfold BenchView.labelKey. intros H.
    apply String.app_inj in H. apply String.app_inj in H.
    apply String.app_inj in H. now apply showZ_inj. }
  split; [exact Hlabel|]. split; [|split].
  - intros o t1 t2. split; [|now intros ->].
    unfold BenchView.fulfillmentKey. intros H.
    apply String.app_inj in H. apply String.app_inj in H.
    apply String.app_inj in H. now apply showZ_inj.
  - intros o o' t t'. discriminate.
  - intros rows o p p' t1 r1 id1 now1 t2 r2 id2 now2
      Hwf Hid1 Hid2 Hne Hk1 Hk2. cbv zeta.
    assert (Hfirst :
      ElectronQueue.addJob (BenchView.labelJobData o p t1 r1) id1 now1 rows
      = ({| ElectronQueue.success := true; ElectronQueue.jobId := id1;
            ElectronQueue.error := None; ElectronQueue.retryable := None;
            ElectronQueue.correlationId := Some o |},
         rows ++ [ElectronQueue.makeJob (BenchView.labelJobData o p t1 r1)
                    id1 now1])).
    { apply ElectronFacts.addJob_new; [|exact Hid1].
      now apply (ElectronFacts.head_filter_absent
                   ElectronQueue.idempotency_key). }
    rewrite Hfirst. cbn [fst snd ElectronQueue.jobId].
    split; [reflexivity|]. split.
    + intros Ht.
      rewrite ElectronFacts.addJob_new.
      * cbn [fst snd ElectronQueue.jobId]. split; [reflexivity|].
        now rewrite <- app_assoc.
      * apply (ElectronFacts.head_filter_absent ElectronQueue.idempotency_key).
        rewrite map_app, in_app_iff. simpl.
        intros [Hin|[Heq|[]]]; [now apply Hk2|].
        apply Ht. now apply (Hlabel o).
      * rewrite map_app, in_app_iff. simpl.
        intros [Hin|[Heq|[]]]; [now apply Hid2|congruence].
    + intros <-.
      rewrite (ElectronFacts.addJob_existing _ id2 now2 _
                 (ElectronQueue.makeJob (BenchView.labelJobData o p t1 r1)
                    id1 now1)).
      * split; reflexivity.
      * pose proof (ElectronFacts.addJob_wf (BenchView.labelJobData o p t1 r1)
                      id1 now1 rows Hwf) as Hwf1.
        now rewrite Hfirst in Hwf1.
      * apply in_app_iff. right. now left.
      * reflexivity.
Qed.

(** X20 at work: order ["O1"] completed twice, one millisecond apart, on
    the empty table. *)
Lemma X20_pick_screen_witness :
  ElectronQueue.jobId
    (fst (ElectronQueue.addJob (BenchView.labelJobData "O1" "{}" 1000 1000)
            "job_1" 1000 [])) = "job_1"
  /\ length
       (snd (ElectronQueue.addJob
               (BenchView.labelJobData "O1" "{}" 1001 1001) "job_2" 1001
               (snd (ElectronQueue.addJob
                       (BenchView.labelJobData "O1" "{}" 1000 1000)
                       "job_1" 1000 [])))) = 2%nat.
Proof.
  assert (Hwf : ElectronQueue.wfTable []) by (split; constructor).
  destruct (proj2 (proj2 (proj2 X20_pick_screen_keys))
              [] "O1" "{}" "{}" 1000 1000 "job_1" 1000 1001 1001 "job_2" 1001
              Hwf (fun H => H) (fun H => H) ltac:(discriminate)
              (fun H => H) (fun H => H))
    as (Hfirst & Hsecond & _).
  split; [exact Hfirst|].
  destruct Hsecond as [_ ->]; [discriminate|reflexivity].
Defined.


(** ** A pass of the renderer queue *)

(** X21.  A whole call of [processQueue] of the renderer queue, started
    with the flag down and nothing running, on a map with distinct ids and
    a [concurrency] of at least 1.  The call ends with the flag down and
    nothing running.  Every job it handed to [executeJob] was queued and
    due, and is stored afterwards as [processJob] leaves it: succeeded with
    the result when the handler returned, failed or dead with one more
    attempt and the error text when it threw; never queued or running.
    Every other job is stored unchanged, and no job appears or
    disappears.  The pass is taken with one clock reading [tnow] and one
    jitter for all its jobs. *)
Theorem X21_renderer_pass :
  forall q now env tnow jitter,
    LibQueue.wfMap (LibQueue.jobs q) ->
    LibQueue.isProcessing q = false ->
    LibQueue.runningSet q = ∅ ->
    (1 <= LibQueue.concurrency (LibQueue.config q))%nat ->
    let r := LibQueue.processQueue now env tnow jitter q in
    let ran i := existsb (String.eqb i) (snd r) in
    LibQueue.isProcessing (fst r) = false
    /\ LibQueue.runningSet (fst r) = ∅
    /\ (forall i,
        LibQueue.getJobHistory i (fst r)
        = option_map
            (fun j =>
               if ran i
               then LibQueue.settleJob (LibQueue.config q) (env i) tnow jitter
                      (LibQueue.markRunning tnow j)
               else j)
            (LibQueue.getJobHistory i q))
    /\ (forall i job,
        LibQueue.getJobHistory i q = Some job -> ran i = true ->
        LibQueue.status job = queued /\ LibQueue.nextRunAt job <= now)
    /\ (forall o j,
        let j' := LibQueue.settleJob (LibQueue.config q) o tnow jitter
                    (LibQueue.markRunning tnow j) in
        LibQueue.id j' = LibQueue.id j
        /\ match o with
           | LibQueue.Returned res =>
               LibQueue.status j' = succeeded
               /\ LibQueue.result j' = Some res
               /\ LibQueue.attempts j' = LibQueue.attempts j
           | LibQueue.Threw e =>
               (LibQueue.status j' = failed \/ LibQueue.status j' = dead)
               /\ LibQueue.error j' = Some (errorText e)
               /\ LibQueue.attempts j' = S (LibQueue.attempts j)
           end).
Proof.
  intros q now env tnow jitter Hwf Hidle Hrun Hconc. cbv zeta.
  destruct (LibFacts.processQueue_state now env tnow jitter q
              Hwf Hidle Hrun Hconc) as (_ & Hflag & Hset & _ & Hmap).
  split; [exact Hflag|]. split; [exact Hset|]. split; [exact Hmap|].
  split.
  - intros i job Hget Hran.
    rewrite (LibFacts.processQueue_log now env tnow jitter q
               Hwf Hidle Hrun Hconc) in Hran.
    apply existsb_exists in Hran as (x & Hx & Heq).
    apply String.eqb_eq in Heq. subst x.
    apply in_map_iff in Hx as (j & Hid & Hj).
    apply filter_In in Hj as [Hj Hdue].
    simpl in Hj. pose proof (LibFacts.In_firstn_In _ _ _ Hj) as Hj'.
    apply filter_In in Hj' as [Hin Hq].
    unfold LibQueue.getJobHistory in Hget.
    rewrite <- Hid, (LibFacts.mapGet_In _ _ Hwf Hin) in Hget.
    injection Hget as <-.
    split; [now apply status_eqb_true|now apply Z.leb_le].
  - intros o j. split; [now destruct o|].
    destruct o as [res|e]; simpl; [auto|].
    split; [|auto].
    destruct (LibQueue.maxAttempts j <=? S (LibQueue.attempts j))%nat; auto.
Qed.

(** X21 at work: the queue with its one job enqueued and due. *)
Lemma X21_pass_witness :
  LibQueue.isProcessing
    (fst (LibQueue.processQueue 100 (fun _ => Scenarios.failure) 100 0
            Scenarios.oneQueued)) = false
  /\ map (fun j => (LibQueue.id j, LibQueue.status j, LibQueue.attempts j))
       (LibQueue.jobs
          (fst (LibQueue.processQueue 100 (fun _ => Scenarios.failure) 100 0
                  Scenarios.oneQueued)))
     = [("job_1", failed, 1%nat)].
Proof.
  split; [|vm_compute; reflexivity].
  apply (X21_renderer_pass Scenarios.oneQueued 100
           (fun _ => Scenarios.failure) 100 0).
  - repeat constructor. simpl. tauto.
  - reflexivity.
  - reflexivity.
  - simpl. lia.
Defined.


(** ** Thrown values that are not ordinary errors *)

(** X22.  What the main-process queue stores when a handler throws
    something other than an [Error] with a message.  [throw null] or
    [throw undefined] is never retried: the job is dead at once, with the
    message ["Unknown error"].  A thrown string is classified by its text
    like the message of an [Error], but the stored message is
    ["Unknown error"].  An [Error] with the empty message counts as
    retryable, and the job is queued again with no error message at all. *)
Theorem X22_unusual_throws :
  forall q now later nextJob,
    ElectronQueue.wfTable (ElectronQueue.rows q) ->
    ElectronQueue.getNextJobToProcess now (ElectronQueue.rows q)
    = Some nextJob ->
    (exists r',
       ElectronQueue.getJobById (ElectronQueue.id nextJob)
         (ElectronQueue.rows
            (ElectronQueue.processNextJob now (Some ThrownNullish) later q))
       = Some r'
       /\ ElectronQueue.status r' = dead
       /\ ElectronQueue.attempts r' = ElectronQueue.attempts nextJob
       /\ ElectronQueue.error_message r' = Some "Unknown error")
    /\ (forall s, s <> EmptyString ->
        exists r',
          ElectronQueue.getJobById (ElectronQueue.id nextJob)
            (ElectronQueue.rows
               (ElectronQueue.processNextJob now (Some (ThrownString s))
                  later q))
          = Some r'
          /\ ElectronQueue.error_message r' = Some "Unknown error"
          /\ (ElectronQueue.status r' = queued
              <-> ElectronQueue.isRetryableError (ThrownError s) = true
                  /\ (ElectronQueue.attempts nextJob
                      < length ElectronQueue.backoffSchedule)%nat)
          /\ (ElectronQueue.status r' = dead
              <-> ElectronQueue.isRetryableError (ThrownError s) = false
                  \/ (length ElectronQueue.backoffSchedule
                      <= ElectronQueue.attempts nextJob)%nat))
    /\ ((ElectronQueue.attempts nextJob
         < length ElectronQueue.backoffSchedule)%nat ->
        exists r',
          ElectronQueue.getJobById (ElectronQueue.id nextJob)
            (ElectronQueue.rows
               (ElectronQueue.processNextJob now
                  (Some (ThrownError EmptyString)) later q))
          = Some r'
          /\ ElectronQueue.status r' = queued
          /\ ElectronQueue.attempts r' = S (ElectronQueue.attempts nextJob)
          /\ ElectronQueue.error_message r' = None).
Proof.
  intros q now later nextJob Hwf Hnext.
  split; [|split].
  - destruct (ElectronFacts.processNextJob_job now (Some ThrownNullish) later
                q nextJob Hwf Hnext) as (r' & Hget & _ & _ & Hcase).
    rewrite ElectronFacts.processJob_handlerResult in Hcase.
    cbn in Hcase. destruct Hcase as (Hst & Hatt & _ & Herr).
    exists r'. auto.
  - intros s Hs.
    destruct (ElectronFacts.processNextJob_job now (Some (ThrownString s))
                later q nextJob Hwf Hnext) as (r' & Hget & _ & _ & Hcase).
    rewrite ElectronFacts.processJob_handlerResult in Hcase.
    cbv zeta in Hcase.
    cbn [ElectronQueue.handlerResult ElectronQueue.p_success
         ElectronQueue.p_retryable ElectronQueue.p_error errorText] in Hcase.
    assert (Hsame : ElectronQueue.isRetryableError (ThrownString s)
                    = ElectronQueue.isRetryableError (ThrownError s))
      by (destruct s; [congruence|reflexivity]).
    rewrite Hsame in Hcase.
    exists r'. split; [exact Hget|].
    destruct (ElectronQueue.isRetryableError (ThrownError s));
      cbn [andb] in Hcase;
      [destruct (Nat.ltb_spec (ElectronQueue.attempts nextJob)
                  (length ElectronQueue.backoffSchedule))|];
      destruct Hcase as (Hst & _ & _ & Herr); rewrite Hst;
      (split; [exact Herr|]); split; split;
      try discriminate; try tauto; try lia; intuition (try discriminate; lia).
  - intros Hlt.
    destruct (ElectronFacts.processNextJob_job now
                (Some (ThrownError EmptyString)) later q nextJob Hwf Hnext)
      as (r' & Hget & _ & _ & Hcase).
    rewrite ElectronFacts.processJob_handlerResult in Hcase.
    cbv zeta in Hcase.
    cbn [ElectronQueue.handlerResult ElectronQueue.p_success
         ElectronQueue.p_retryable ElectronQueue.p_error errorText] in Hcase.
    change (ElectronQueue.isRetryableError (ThrownError "")) with true in Hcase.
    apply Nat.ltb_lt in Hlt. rewrite Hlt in Hcase. cbn [andb] in Hcase.
    destruct Hcase as (Hst & Hatt & _ & Herr).
    exists r'. auto.
Qed.

(** X22 at work: the handler of the one queued job throws [null]. *)
Lemma X22_unusual_witness :
  exists nextJob,
    ElectronQueue.getNextJobToProcess 10000
      (ElectronQueue.rows Scenarios.tableOneQueued) = Some nextJob
    /\ exists r',
         ElectronQueue.getJobById (ElectronQueue.id nextJob)
           (ElectronQueue.rows
              (ElectronQueue.processNextJob 10000 (Some ThrownNullish) 11000
                 Scenarios.tableOneQueued))
         = Some r'
         /\ ElectronQueue.status r' = dead
         /\ ElectronQueue.attempts r' = ElectronQueue.attempts nextJob
         /\ ElectronQueue.error_message r' = Some "Unknown error".
Proof.
  eexists. split; [vm_compute; reflexivity|].
  apply (X22_unusual_throws Scenarios.tableOneQueued 10000 11000).
  - split; repeat constructor; simpl; tauto.
  - vm_compute. reflexivity.
Defined.


(** ** The key of a dead job *)

(** X23.  Main-process queue, ids and keys unique.  An enqueue with the key
    of a job that is dead is answered with success and the id of the dead
    job, and changes nothing: the job stays dead and nothing is run again.
    Once [clearDeadJobs] has purged the job the key is free, and the same
    enqueue (with a new id) stores a new job. *)
Theorem X23_key_of_a_dead_job :
  forall rows J jobData newId now,
    ElectronQueue.wfTable rows -> In J rows ->
    ElectronQueue.status J = dead ->
    ElectronQueue.jd_idempotency_key jobData
    = ElectronQueue.idempotency_key J ->
    let r := ElectronQueue.addJob jobData newId now rows in
    ElectronQueue.success (fst r) = true
    /\ ElectronQueue.jobId (fst r) = ElectronQueue.id J
    /\ snd r = rows
    /\ ElectronQueue.getJobHistory (ElectronQueue.id J) (snd r) = Some J
    /\ (~ In newId (map ElectronQueue.id rows) ->
        let purged := snd (ElectronQueue.clearDeadJobs rows) in
        let r' := ElectronQueue.addJob jobData newId now purged in
        ElectronQueue.success (fst r') = true
        /\ ElectronQueue.jobId (fst r') = newId
        /\ snd r' = purged ++ [ElectronQueue.makeJob jobData newId now]).
Proof.
  intros rows J jobData newId now Hwf HJ Hdead Hkey. cbv zeta.
  rewrite (ElectronFacts.addJob_existing jobData newId now rows J Hwf HJ
             (eq_sym Hkey)).
  cbn [fst snd ElectronQueue.success ElectronQueue.jobId].
  split; [reflexivity|]. split; [reflexivity|]. split; [reflexivity|].
  split; [now apply ElectronFacts.getJobById_In|].
  intros Hfresh. rewrite ElectronFacts.clearDeadJobs_rows.
  rewrite ElectronFacts.addJob_new.
  - repeat split.
  - destruct (ElectronQueue.getJobByIdempotencyKey _ _) as [x|] eqn:Hget;
      [|reflexivity].
    apply (head_filter_key_Some ElectronQueue.idempotency_key) in Hget
      as [Hin Hk].
    apply filter_In in Hin as [Hin Hlive].
    assert (x = J) as ->.
    { apply (key_inj ElectronQueue.idempotency_key rows);
        [apply Hwf|assumption|assumption|congruence]. }
    rewrite Hdead in Hlive. discriminate.
  - intros Hin. apply Hfresh.
    apply in_map_iff in Hin as (x & Hx & Hin).
    apply filter_In in Hin as [Hin _]. rewrite <- Hx. now apply in_map.
Qed.

(** X23 at work: the table whose one job is dead after its seventh
    failure. *)
Lemma X23_dead_key_witness :
  exists J,
    In J (ElectronQueue.rows Scenarios.tableOneDead)
    /\ ElectronQueue.status J = dead
    /\ ElectronQueue.jobId
         (fst (ElectronQueue.addJob Scenarios.labelJob "job_2" 20000000
                 (ElectronQueue.rows Scenarios.tableOneDead)))
       = ElectronQueue.id J
    /\ snd (ElectronQueue.addJob Scenarios.labelJob "job_2" 20000000
              (ElectronQueue.rows Scenarios.tableOneDead))
       = ElectronQueue.rows Scenarios.tableOneDead.
Proof.
  assert (Hwf : ElectronQueue.wfTable
                  (ElectronQueue.rows Scenarios.tableOneDead)).
  { vm_compute. split; repeat constructor; simpl; tauto. }
  eexists. split; [vm_compute; left; reflexivity|].
  split; [reflexivity|].
  match goal with
  | |- context [ElectronQueue.id ?J] =>
      destruct (X23_key_of_a_dead_job
                  (ElectronQueue.rows Scenarios.tableOneDead) J
                  Scenarios.labelJob "job_2" 20000000 Hwf
                  ltac:(vm_compute; left; reflexivity) eq_refl eq_refl)
        as (_ & Hid & Hrows & _)
  end.
  split; [exact Hid|exact Hrows].
Defined.

(** ** No job is lost *)

(** X24.  No job is lost.  Main-process queue: whatever calls are in
    flight, an event keeps every stored job unless the event is the answer
    to the DELETE of [clearDeadJobs] and the job is dead.  Renderer queue,
    whatever the map holds, under distinct ids: an event other than
    [importJobs], which fills the map anew, keeps every stored job unless
    the event is [clearDeadJobs] and the job is dead; an enqueue comes with
    an id that is not stored.  After the event a
    job is stored with the same id, type, payload, idempotency key,
    correlation id and creation time (and, in the renderer queue, the same
    [maxAttempts]); only status, attempts, schedule, error, result and the
    update times ever change. *)
Theorem X24_no_job_is_lost :
  (forall s e r,
     In r (ElectronQueue.rows (ElectronQueue.queue s)) ->
     (exists r',
        In r' (ElectronQueue.rows
                 (ElectronQueue.queue (ElectronQueue.apply e s)))
        /\ ElectronQueue.id r' = ElectronQueue.id r
        /\ ElectronQueue.type r' = ElectronQueue.type r
        /\ ElectronQueue.payload_json r' = ElectronQueue.payload_json r
        /\ ElectronQueue.idempotency_key r' = ElectronQueue.idempotency_key r
        /\ ElectronQueue.correlation_id r' = ElectronQueue.correlation_id r
        /\ ElectronQueue.created_at r' = ElectronQueue.created_at r)
     \/ (ElectronQueue.status r = dead
         /\ exists k now newId outcome,
              e = ElectronQueue.EvAnswer k now newId outcome
              /\ ElectronQueue.calls s !! k = Some ElectronQueue.AwaitDelete))
  /\ (forall q e j,
     LibQueue.wfMap (LibQueue.jobs q) -> LibQueue.admissible e q ->
     LibQueue.importFree e ->
     In j (LibQueue.jobs q) ->
     (exists j',
        In j' (LibQueue.jobs (LibQueue.apply e q))
        /\ LibQueue.id j' = LibQueue.id j
        /\ LibQueue.type j' = LibQueue.type j
        /\ LibQueue.payload j' = LibQueue.payload j
        /\ LibQueue.idempotencyKey j' = LibQueue.idempotencyKey j
        /\ LibQueue.correlationId j' = LibQueue.correlationId j
        /\ LibQueue.createdAt j' = LibQueue.createdAt j
        /\ LibQueue.maxAttempts j' = LibQueue.maxAttempts j)
     \/ (e = LibQueue.EvClearDeadJobs /\ LibQueue.status j = dead)).
Proof.
  split.
  - intros s e r Hr. now apply ElectronFacts.table_durable.
  - intros q e j Hwf Hadm Hfree Hj. now apply LibFacts.map_durable.
Qed.

(** X24 at work: the running job of each queue settles with a failure and
    is still stored under its id. *)
Lemma X24_no_job_lost_witness :
  (exists r',
     In r' (ElectronQueue.rows
              (ElectronQueue.queue
                 (ElectronQueue.runSystem
                    (Scenarios.settled Scenarios.unavailable 11000)
                    Scenarios.systemOneRunning)))
     /\ ElectronQueue.id r' = "job_1"
     /\ ElectronQueue.idempotency_key r' = "label_O1")
  /\ (exists j',
     In j' (LibQueue.jobs
              (LibQueue.apply (LibQueue.EvSettled Scenarios.failure 300 0)
                 Scenarios.oneRunning))
     /\ LibQueue.id j' = "job_1"
     /\ LibQueue.idempotencyKey j' = "label_O1").
Proof.
  split.
  - destruct (proj1 X24_no_job_is_lost
                (ElectronQueue.apply
                   (ElectronQueue.EvAnswer 0 11000 "" Scenarios.unavailable)
                   Scenarios.systemOneRunning)
                (ElectronQueue.EvAnswer 0 11000 "" None)
                (hd Scenarios.jobA
                    (ElectronQueue.rows
                       (ElectronQueue.queue Scenarios.systemOneRunning)))
                ltac:(vm_compute; left; reflexivity))
      as [(r' & Hin & Hid & _ & _ & Hkey & _)|[Hdead _]];
      [|discriminate Hdead].
    exists r'. split; [exact Hin|]. split; [exact Hid|exact Hkey].
  - destruct (proj2 X24_no_job_is_lost Scenarios.oneRunning
                (LibQueue.EvSettled Scenarios.failure 300 0)
                (hd Scenarios.failedFirst (LibQueue.jobs Scenarios.oneRunning))
                ltac:(vm_compute; repeat constructor; simpl; tauto)
                I I ltac:(vm_compute; left; reflexivity))
      as [(j' & Hin & Hid & _ & _ & Hkey & _)|[Hclear _]];
      [|discriminate Hclear].
    exists j'. split; [exact Hin|]. split; [exact Hid|exact Hkey].
Defined.
